(** * Random-number tutorial of Kokkos: [generate_random] and [main]

    Shallow embedding of
    [example/tutorial/Algorithms/01_random_numbers/random_numbers.cpp].

    The file has two pieces of code of its own: the functor
    [generate_random<GeneratorPool>::operator()(int i)] and [main].  Both are
    embedded below.  Everything they call (generator pools, views, range
    policies, the parallel dispatch, timers, [std::stoi], the output streams)
    lives in headers that are not part of the example; those parts are either
    fields of the [Platform] class (opaque library functions) or small models
    marked "Modelled from the spec". *)

From stdpp Require Import gmap strings list fin_maps.

Local Open Scope Z_scope.

(** ** The platform: opaque library functions the example is compiled against *)

(** How a lane obtains its slot of a pool.  The header comment of the example
    distinguishes the two: on CPUs the pool has one state per thread, on CUDA
    "threads acquire states via atomics". *)
Inductive acquisition := ThreadIndexed | Contended.

#[global] Instance acquisition_eq_dec : EqDecision acquisition.
Proof. solve_decision. Defined.

(** What [std::stoi] does with a string it cannot convert. *)
Inductive exn := invalid_argument | out_of_range.

Class Platform := {
  (** values of C++ [double]; the example never inspects them *)
  double : Type;
  (** time points of the clock behind [Kokkos::Timer] *)
  elapsed_seconds : Z → Z → double;
  (** [operator<<(std::ostream&, double)] *)
  show_double : double → string;
  (** the raw state kept in one slot of a generator pool *)
  gstate : Type;
  (** [Random_XorShift64::normal()] and [Random_XorShift1024::normal()] on the
      raw state: the value drawn and the successor state *)
  xorshift64_normal : gstate → double * gstate;
  xorshift1024_normal : gstate → double * gstate;
  (** the state a pool constructor puts into slot [j] for a given seed *)
  xorshift64_init : Z → nat → gstate;
  xorshift1024_init : Z → nat → gstate;
  (** [ExecutionSpace{}.name()] *)
  exec_space_name : string;
  (** [ExecutionSpace().concurrency()]: the number of lanes that can run at
      once, which is also the number of states in a pool *)
  concurrency : nat;
  exec_space_acquisition : acquisition;
  (** [Kokkos::initialize(argc, args)] takes [argc] by reference and removes
      the arguments it consumes; this is what it leaves *)
  initialize_args : list string → list string;
  (** [std::stoi]: the converted integer, or the exception thrown *)
  stoi : string → exn + Z;
}.

Section Model.
Context `{PF : Platform}.

(** ** Views (Modelled from the spec) *)

(** Modelled from the spec: [Kokkos::View<double**>] is declared in
    [Kokkos_Core.hpp].  "Output buffer: a dense two-dimensional numeric array
    of double-precision floating-point values, dimensions rows x samples".
    [data] records the entries that have been stored since allocation; an
    entry that is absent has never been written.  An access outside the
    extents is not checked by the library and has no defined result. *)
Record buffer := Buffer {
  extent0 : Z;
  extent1 : Z;
  data : gmap (Z * Z) double;
}.

Definition in_extents (b : buffer) (i k : Z) : Prop :=
  0 ≤ i < extent0 b ∧ 0 ≤ k < extent1 b.

(** Modelled from the spec: [vals(i, k) = x], the assignment through
    [View::operator()], which is not part of the example.  [None] is an
    access outside the extents. *)
Definition view_store (i k : Z) (x : double) (b : buffer) : option buffer :=
  if decide (in_extents b i k)
  then Some (Buffer (extent0 b) (extent1 b) (<[(i, k) := x]> (data b)))
  else None.

(** ** Generator pools (Modelled from the spec) *)

(** Modelled from the spec: the pool classes are declared in
    [Kokkos_Random.hpp].  "Generator pool: an opaque collection of independent
    pseudo-random generator states sized to the execution parallelism; exposes
    acquire (check out one state, excludes it from concurrent reuse) and
    release (return a state to the pool)", "backed by a fixed-size array of
    generator states plus an atomic free-list or bitmap". *)
Record pool_mem := PoolMem {
  states_ : list gstate;
  locks_ : list bool;
}.

(** [typename GeneratorPool::generator_type]: a private copy of the state of
    one slot together with the slot it came from. *)
Record generator_type := Generator {
  state_ : gstate;
  state_idx_ : nat;
}.

Definition free_slots (locks : list bool) : list nat :=
  filter (λ j, locks !! j = Some false) (seq 0 (length locks)).

(** Modelled from the spec: the slot a lane goes for.  "executed either by a
    fixed static partition across worker threads (deterministic) or by a large
    oversubscribed pool of concurrent lightweight execution lanes with atomic,
    contention-based state checkout".  A thread-indexed pool hands lane [t]
    slot [t]; a contended pool hands out one of the free slots, which one
    being decided by the race ([pick] is the outcome of the race). *)
Definition get_state_idx (acq : acquisition) (pick : nat → list nat → nat)
    (t : nat) (locks : list bool) : option nat :=
  match acq with
  | ThreadIndexed => Some t
  | Contended =>
      let fs := free_slots locks in
      fs !! (pick t fs `mod` length fs)%nat
  end.

(** Modelled from the spec: [rand_pool.get_state()], "acquire (check out one
    state, excludes it from concurrent reuse)"; it "spins until a slot is
    free".  [None] is a lane that cannot have a state right now and has to
    try again. *)
Definition get_state (acq : acquisition) (pick : nat → list nat → nat)
    (t : nat) (pm : pool_mem) : option (generator_type * pool_mem) :=
  idx ← get_state_idx acq pick t (locks_ pm);
  s ← states_ pm !! idx;
  match locks_ pm !! idx with
  | Some false => Some (Generator s idx, PoolMem (states_ pm) (<[idx := true]> (locks_ pm)))
  | _ => None
  end.

(** Modelled from the spec: [rand_pool.free_state(rand_gen)], "release
    (return a state to the pool)": the state is written back to its slot and
    the slot is unlocked. *)
Definition free_state (g : generator_type) (pm : pool_mem) : pool_mem :=
  PoolMem (<[state_idx_ g := state_ g]> (states_ pm))
          (<[state_idx_ g := false]> (locks_ pm)).

(** Modelled from the spec: [rand_gen.normal()] on the generator a lane
    holds.  It advances the private copy of the state by the platform's
    [draw]; the slot the copy belongs to stays the same. *)
Definition normal (draw : gstate → double * gstate) (g : generator_type)
    : double * generator_type :=
  let '(x, s) := draw (state_ g) in (x, Generator s (state_idx_ g)).

(** ** The functor [generate_random<GeneratorPool>] *)

(** The calls one invocation makes, in the order it makes them. *)
Inductive op :=
| OpGetState (idx : nat)
| OpNormal (x : double)
| OpStore (i k : Z) (x : double)
| OpFreeState (idx : nat).

Section generate_random.
(** The template parameter fixes [normal]; the execution space fixes how
    [get_state] finds a slot. *)
Variable draw : gstate → double * gstate.
Variable acq : acquisition.
Variable pick : nat → list nat → nat.
(** The member [samples]. The members [vals] and [rand_pool] are the buffer
    and the pool memory threaded through the definitions below. *)
Variable samples : Z.

(** [for (int k = 0; k < samples; k++) vals(i, k) = rand_gen.normal();]
    The loop stops when its test fails; [fuel] bounds the iterations and
    [None] is an access outside the extents (or no fuel).  [k++] cannot
    overflow: [k < samples] and [samples] is an [int]. *)
Fixpoint draw_loop (fuel : nat) (i k : Z) (rand_gen : generator_type) (vals : buffer)
    : option (generator_type * buffer * list op) :=
  if decide (k < samples) then
    match fuel with
    | O => None
    | S fuel' =>
        let '(x, rand_gen') := normal draw rand_gen in
        vals' ← view_store i k x vals;
        '(g, b, ops) ← draw_loop fuel' i (k + 1) rand_gen' vals';
        Some (g, b, OpNormal x :: OpStore i k x :: ops)
    end
  else Some (rand_gen, vals, []).

(** [void operator()(int i) const], called by lane [t]. *)
Definition call_operator (t : nat) (i : Z) (rand_pool : pool_mem) (vals : buffer)
    : option (pool_mem * buffer * list op) :=
  '(rand_gen, rand_pool1) ← get_state acq pick t rand_pool;
  '(rand_gen', vals', ops) ← draw_loop (Z.to_nat samples) i 0 rand_gen vals;
  Some (free_state rand_gen' rand_pool1, vals',
        OpGetState (state_idx_ rand_gen) :: ops ++ [OpFreeState (state_idx_ rand_gen')]).

(** *** What one invocation is expected to do

    The values of [n] successive calls of [normal] from a raw state, the
    state they leave, the entries of row [i] they are stored to from column
    [k] on, and the calls this makes. *)
Fixpoint draw_seq (n : nat) (s : gstate) : list double * gstate :=
  match n with
  | O => ([], s)
  | S n' =>
      let '(x, s1) := draw s in
      let '(xs, s2) := draw_seq n' s1 in
      (x :: xs, s2)
  end.

Fixpoint store_row (i k : Z) (xs : list double) (d : gmap (Z * Z) double)
    : gmap (Z * Z) double :=
  match xs with
  | [] => d
  | x :: xs' => store_row i (k + 1) xs' (<[(i, k) := x]> d)
  end.

Fixpoint row_ops (i k : Z) (xs : list double) : list op :=
  match xs with
  | [] => []
  | x :: xs' => OpNormal x :: OpStore i k x :: row_ops i (k + 1) xs'
  end.

(** The state [n] draws lead to, and the value of draw number [n], counted
    from 0: the state and the values of [draw_seq] ([draw_seq_draw_at]
    below). *)
Definition advance (n : nat) (s : gstate) : gstate := Nat.iter n (λ s, (draw s).2) s.
Definition draw_at (s : gstate) (n : nat) : double := (draw (advance n s)).1.

(** Row [i] holds segment [m] of the draws from [s]: the draws number
    [m * samples] to [m * samples + samples - 1]. *)
Definition holds_segment (b : buffer) (i : Z) (s : gstate) (m : nat) : Prop :=
  ∀ k, 0 ≤ k < samples →
    data b !! (i, k) = Some (draw_at s (m * Z.to_nat samples + Z.to_nat k)).

(** *** The parallel dispatch (Modelled from the spec) *)

(** Modelled from the spec: [Kokkos::parallel_for] over a [RangePolicy] is
    declared in [Kokkos_Core.hpp].  "a data-parallel fan-out over an index
    range, executed either by a fixed static partition across worker threads or
    by a large oversubscribed pool of concurrent lightweight execution lanes";
    "No ordering is guaranteed or required across different i".

    Every lane works through the indices it was given, one invocation of
    [operator()] after the other; the steps of different lanes interleave.
    [frame] is an invocation between [get_state] and [free_state]: the index,
    the local [rand_gen] and the loop counter [k]. *)
Record frame := Frame { fr_i : Z; fr_gen : generator_type; fr_k : Z }.
Record lane := Lane { todo : list Z; cur : option frame }.
Record kernel := Kernel {
  k_pool : pool_mem;
  k_vals : buffer;
  k_lanes : list lane;
  (** set once an access outside the extents has happened *)
  k_ub : bool;
}.
Record event := Event { ev_lane : nat; ev_task : Z; ev_op : op }.

(** One step of lane [t], which is [operator()] cut at the places where
    another lane can step in: enter the next invocation ([get_state], line
    73), run one iteration of the loop (line 78), or leave the invocation
    ([free_state], line 81).  A lane that cannot get a state, or has nothing
    left to do, leaves the kernel as it is.  [call_operator_by_steps] below
    shows that the steps of one invocation make up [call_operator]. *)
Definition lane_step (t : nat) (c : kernel) : kernel * list event :=
  match k_lanes c !! t with
  | None => (c, [])
  | Some (Lane td None) =>
      match td with
      | [] => (c, [])
      | i :: rest =>
          match get_state acq pick t (k_pool c) with
          | None => (c, [])
          | Some (g, pm) =>
              (Kernel pm (k_vals c)
                 (<[t := Lane rest (Some (Frame i g 0))]> (k_lanes c)) (k_ub c),
               [Event t i (OpGetState (state_idx_ g))])
          end
      end
  | Some (Lane td (Some (Frame i g k))) =>
      if decide (k < samples) then
        let '(x, g') := normal draw g in
        let lanes' := <[t := Lane td (Some (Frame i g' (k + 1)))]> (k_lanes c) in
        match view_store i k x (k_vals c) with
        | Some b =>
            (Kernel (k_pool c) b lanes' (k_ub c),
             [Event t i (OpNormal x); Event t i (OpStore i k x)])
        | None =>
            (Kernel (k_pool c) (k_vals c) lanes' true, [Event t i (OpNormal x)])
        end
      else
        (Kernel (free_state g (k_pool c)) (k_vals c)
           (<[t := Lane td None]> (k_lanes c)) (k_ub c),
         [Event t i (OpFreeState (state_idx_ g))])
  end.

(** The state a launch starts in: [assign] gives every lane its indices. *)
Definition start (assign : list (list Z)) (rand_pool : pool_mem) (vals : buffer) : kernel :=
  Kernel rand_pool vals ((λ td, Lane td None) <$> assign) false.

(** Modelled from the spec: the lanes step in the order [sched] names
    them, "No ordering is guaranteed or required across different i". *)
Fixpoint exec (sched : list nat) (c : kernel) : kernel * list event :=
  match sched with
  | [] => (c, [])
  | t :: sched' =>
      let '(c1, ev1) := lane_step t c in
      let '(c2, ev2) := exec sched' c1 in
      (c2, ev1 ++ ev2)
  end.

(** Steps a lane still has to take: the rest of the invocation it is in and
    [samples + 2] for every index it has not started. *)
Definition remaining (ln : lane) : nat :=
  (match cur ln with
   | None => 0
   | Some fr => Z.to_nat (samples - fr_k fr) + 1
   end + length (todo ln) * (Z.to_nat samples + 2))%nat.

(** Modelled from the spec: the fence, "guaranteeing all fill work completes
    before timing is read or the next launch begins".  Whatever is left when
    the interleaving ends is run to the end, lane after lane. *)
Definition drain_from (t0 : nat) (lanes : list lane) : list nat :=
  concat (imap (λ j ln, replicate (remaining ln) (t0 + j)%nat) lanes).
Definition drain (c : kernel) : list nat := drain_from 0 (k_lanes c).

Definition idle (ln : lane) : bool :=
  match ln with Lane [] None => true | _ => false end.
Definition finished (c : kernel) : bool := forallb idle (k_lanes c).

(** Modelled from the spec: a complete launch.  [assign] gives every lane
    its indices, [sched] is the interleaving.  [None] stands for a launch
    that has no defined result: an access outside the extents, or lanes left
    spinning for a state. *)
Definition run_kernel (assign : list (list Z)) (sched : list nat)
    (rand_pool : pool_mem) (vals : buffer)
    : option (pool_mem * buffer * list event) :=
  let c0 := start assign rand_pool vals in
  let '(c1, ev1) := exec sched c0 in
  let '(c2, ev2) := exec (drain c1) c1 in
  if finished c2 && negb (k_ub c2)
  then Some (k_pool c2, k_vals c2, ev1 ++ ev2)
  else None.

(** *** The launch without interleaving

    The lanes run one after the other, and every lane makes its invocations
    one after the other: the loops
    [for (t ...) for (i : assign[t]) functor(i);]. *)
Fixpoint run_rows (t : nat) (rows : list Z) (rand_pool : pool_mem) (vals : buffer)
    : option (pool_mem * buffer) :=
  match rows with
  | [] => Some (rand_pool, vals)
  | i :: rest =>
      '(rand_pool', vals', _) ← call_operator t i rand_pool vals;
      run_rows t rest rand_pool' vals'
  end.

Fixpoint run_serial (t : nat) (assign : list (list Z)) (rand_pool : pool_mem) (vals : buffer)
    : option (pool_mem * buffer) :=
  match assign with
  | [] => Some (rand_pool, vals)
  | rows :: rest =>
      '(rand_pool', vals') ← run_rows t rows rand_pool vals;
      run_serial (S t) rest rand_pool' vals'
  end.

(** The same step as a relation, case by case. *)
Inductive steps (t : nat) (c : kernel) : kernel → list event → Prop :=
| steps_stay :
    k_lanes c !! t = None ∨
    k_lanes c !! t = Some (Lane [] None) ∨
    (∃ i rest, k_lanes c !! t = Some (Lane (i :: rest) None) ∧
               get_state acq pick t (k_pool c) = None) →
    steps t c c []
| steps_get i rest g pm :
    k_lanes c !! t = Some (Lane (i :: rest) None) →
    get_state acq pick t (k_pool c) = Some (g, pm) →
    steps t c
      (Kernel pm (k_vals c)
         (<[t := Lane rest (Some (Frame i g 0))]> (k_lanes c)) (k_ub c))
      [Event t i (OpGetState (state_idx_ g))]
| steps_store td i g k x g' b :
    k_lanes c !! t = Some (Lane td (Some (Frame i g k))) →
    k < samples →
    normal draw g = (x, g') →
    view_store i k x (k_vals c) = Some b →
    steps t c
      (Kernel (k_pool c) b
         (<[t := Lane td (Some (Frame i g' (k + 1)))]> (k_lanes c)) (k_ub c))
      [Event t i (OpNormal x); Event t i (OpStore i k x)]
| steps_outside td i g k x g' :
    k_lanes c !! t = Some (Lane td (Some (Frame i g k))) →
    k < samples →
    normal draw g = (x, g') →
    view_store i k x (k_vals c) = None →
    steps t c
      (Kernel (k_pool c) (k_vals c)
         (<[t := Lane td (Some (Frame i g' (k + 1)))]> (k_lanes c)) true)
      [Event t i (OpNormal x)]
| steps_free td i g k :
    k_lanes c !! t = Some (Lane td (Some (Frame i g k))) →
    ¬ k < samples →
    steps t c
      (Kernel (free_state g (k_pool c)) (k_vals c)
         (<[t := Lane td None]> (k_lanes c)) (k_ub c))
      [Event t i (OpFreeState (state_idx_ g))].

(** *** The footprint of a step when the pool is thread-indexed

    With a thread-indexed pool a step of lane [t] reads the lane, its own
    slot and the extents, and changes the lane, its own slot, one entry of
    the buffer and the flag.  [local_step] is [lane_step] written in this
    form; [lane_step_local] below shows that the two agree. *)
Inductive pool_eff := PKeep | PLock | PFree (s : gstate).
Inductive vals_eff := VKeep | VStore (i k : Z) (x : double).
Record effect := Effect {
  eff_pool : pool_eff;
  eff_vals : vals_eff;
  eff_lane : lane;
  eff_ub : bool;
}.

Definition pool_apply (t : nat) (pe : pool_eff) (pm : pool_mem) : pool_mem :=
  match pe with
  | PKeep => pm
  | PLock => PoolMem (states_ pm) (<[t := true]> (locks_ pm))
  | PFree s => PoolMem (<[t := s]> (states_ pm)) (<[t := false]> (locks_ pm))
  end.
Definition vals_apply (ve : vals_eff) (b : buffer) : buffer :=
  match ve with
  | VKeep => b
  | VStore i k x => Buffer (extent0 b) (extent1 b) (<[(i, k) := x]> (data b))
  end.
Definition stores_to (ve : vals_eff) (i : Z) : Prop :=
  match ve with VKeep => False | VStore i' _ _ => i' = i end.
Definition apply_eff (t : nat) (e : effect) (c : kernel) : kernel :=
  Kernel (pool_apply t (eff_pool e) (k_pool c)) (vals_apply (eff_vals e) (k_vals c))
    (<[t := eff_lane e]> (k_lanes c)) (eff_ub e || k_ub c).

Definition local_step (t : nat) (ln : lane) (s : option gstate) (l : option bool)
    (e0 e1 : Z) : option (effect * list event) :=
  match ln with
  | Lane td None =>
      match td, s, l with
      | i :: rest, Some s, Some false =>
          Some (Effect PLock VKeep (Lane rest (Some (Frame i (Generator s t) 0))) false,
                [Event t i (OpGetState t)])
      | _, _, _ => None
      end
  | Lane td (Some (Frame i g k)) =>
      if decide (k < samples) then
        let '(x, g') := normal draw g in
        let ln' := Lane td (Some (Frame i g' (k + 1))) in
        if decide (0 ≤ i < e0 ∧ 0 ≤ k < e1)
        then Some (Effect PKeep (VStore i k x) ln' false,
                   [Event t i (OpNormal x); Event t i (OpStore i k x)])
        else Some (Effect PKeep VKeep ln' true, [Event t i (OpNormal x)])
      else
        Some (Effect (PFree (state_ g)) VKeep (Lane td None) false,
              [Event t i (OpFreeState t)])
  end.

Definition lane_step_by_footprint (t : nat) (c : kernel) : kernel * list event :=
  match k_lanes c !! t with
  | None => (c, [])
  | Some ln =>
      match local_step t ln (states_ (k_pool c) !! t) (locks_ (k_pool c) !! t)
              (extent0 (k_vals c)) (extent1 (k_vals c)) with
      | None => (c, [])
      | Some (e, ev) => (apply_eff t e c, ev)
      end
  end.

End generate_random.

(** The entries a list of calls stores to, and some counts. *)
Definition written (ops : list op) : gset (Z * Z) :=
  list_to_set (omap (λ o, match o with OpStore i k _ => Some (i, k) | _ => None end) ops).
Definition is_get_state (o : op) : bool :=
  match o with OpGetState _ => true | _ => false end.
Definition is_free_state (o : op) : bool :=
  match o with OpFreeState _ => true | _ => false end.
Definition is_normal (o : op) : bool :=
  match o with OpNormal _ => true | _ => false end.
Definition is_store (o : op) : bool :=
  match o with OpStore _ _ _ => true | _ => false end.
Definition count (p : op → bool) (ops : list op) : nat :=
  length (filter (λ o, p o = true) ops).

(** A lane can have a state: its own slot is there and free, or some slot is
    free. *)
Definition can_acquire (acq : acquisition) (t : nat) (pm : pool_mem) : Prop :=
  length (states_ pm) = length (locks_ pm) ∧
  match acq with
  | ThreadIndexed => locks_ pm !! t = Some false
  | Contended => ∃ idx, locks_ pm !! idx = Some false
  end.

(** *** What holds at every moment of a launch *)

(** Lane [t] is inside an invocation and has the state of slot [idx]. *)
Definition holds (lanes : list lane) (t idx : nat) : Prop :=
  ∃ td fr, lanes !! t = Some (Lane td (Some fr)) ∧ state_idx_ (fr_gen fr) = idx.

(** The rows a lane is still going to store to. *)
Definition lane_rows (ln : lane) : list Z :=
  match cur ln with Some fr => [fr_i fr] | None => [] end ++ todo ln.

(** The pool and the lanes agree: a slot is locked exactly when a lane
    holds its state, no two lanes hold the state of one slot, and in a
    thread-indexed pool a lane holds its own slot. *)
Record pool_inv (acq : acquisition) (c : kernel) : Prop := PoolInv {
  pi_len : length (states_ (k_pool c)) = length (locks_ (k_pool c));
  pi_lanes : (length (k_lanes c) ≤ length (locks_ (k_pool c)))%nat;
  pi_locked : ∀ idx, locks_ (k_pool c) !! idx = Some true ↔ ∃ t, holds (k_lanes c) t idx;
  pi_excl : ∀ t1 t2 idx, holds (k_lanes c) t1 idx → holds (k_lanes c) t2 idx → t1 = t2;
  pi_indexed : acq = ThreadIndexed → ∀ t idx, holds (k_lanes c) t idx → idx = t;
}.

(** Every store a lane is going to make is inside the extents, and none has
    been outside so far. *)
Record bounds_inv (samples : Z) (c : kernel) : Prop := BoundsInv {
  bi_ub : k_ub c = false;
  bi_cols : samples ≤ extent1 (k_vals c);
  bi_rows : ∀ t ln i, k_lanes c !! t = Some ln → i ∈ lane_rows ln →
            0 ≤ i < extent0 (k_vals c);
  bi_k : ∀ t td fr, k_lanes c !! t = Some (Lane td (Some fr)) → 0 ≤ fr_k fr;
}.

(** Different lanes have different rows before them. *)
Definition rows_apart (c : kernel) : Prop :=
  ∀ t1 t2 ln1 ln2 i, t1 ≠ t2 →
    k_lanes c !! t1 = Some ln1 → k_lanes c !! t2 = Some ln2 →
    i ∈ lane_rows ln1 → i ∈ lane_rows ln2 → False.

(** What the launches on a thread-indexed pool keep. *)
Definition indexed_inv (c : kernel) : Prop :=
  pool_inv ThreadIndexed c ∧ rows_apart c.

(** Entry [(i, k)] holds a value and the launch has stored to it. *)
Definition stored (b : buffer) (evs : list event) (i k : Z) : Prop :=
  is_Some (data b !! (i, k)) ∧ ∃ t x, Event t i (OpStore i k x) ∈ evs.
Definition row_filled (samples : Z) (b : buffer) (evs : list event) (i : Z) : Prop :=
  ∀ k, 0 ≤ k < samples → stored b evs i k.

(** Where the rows of an assignment stand: still to be started, being
    filled (the columns below [k] are stored), or filled. *)
Definition cover_inv (samples : Z) (assign : list (list Z))
    (c : kernel) (evs : list event) : Prop :=
  ∀ t td0 i, assign !! t = Some td0 → i ∈ td0 →
    ∃ ln, k_lanes c !! t = Some ln ∧
      (i ∈ todo ln ∨
       (∃ fr, cur ln = Some fr ∧ fr_i fr = i ∧
              ∀ k, 0 ≤ k < fr_k fr → stored (k_vals c) evs i k) ∨
       row_filled samples (k_vals c) evs i).

(** A pool nobody holds a state of, with a slot for each of [n] lanes. *)
Definition pool_ready (n : nat) (pm : pool_mem) : Prop :=
  length (states_ pm) = length (locks_ pm) ∧
  (n ≤ length (locks_ pm))%nat ∧
  ∀ idx, locks_ pm !! idx ≠ Some true.

(** The entries of a buffer that came with a launch: they were there
    before, or they are inside the extents and below column [samples]. *)
Definition data_from (samples : Z) (b0 : buffer) (c : kernel) : Prop :=
  ∀ i k, is_Some (data (k_vals c) !! (i, k)) →
    is_Some (data b0 !! (i, k)) ∨ (in_extents b0 i k ∧ k < samples).

(** The stores of a list of events, made one after the other on [d]. *)
Fixpoint stores_map (evs : list event) (d : gmap (Z * Z) double) : gmap (Z * Z) double :=
  match evs with
  | [] => d
  | e :: evs' =>
      stores_map evs'
        match ev_op e with
        | OpStore i k x => <[(i, k) := x]> d
        | _ => d
        end
  end.

(** The slots whose state some lane holds, lane by lane. *)
Definition held (lanes : list lane) : list nat :=
  omap (λ ln, (λ fr, state_idx_ (fr_gen fr)) <$> cur ln) lanes.

(** *** Counting the calls of a launch *)

(** The calls of kind [p] that the invocations for index [i] make in a
    launch. *)
Definition count_of (p : op → bool) (i : Z) (evs : list event) : nat :=
  length (filter (λ e, ev_task e = i ∧ p (ev_op e) = true) evs).

(** How often index [i] is dealt out. *)
Definition dealt (i : Z) (rows : list Z) : nat := length (filter (λ j, j = i) rows).

(** Of the invocations for index [i]: those a lane has before it, the one
    it is in, and the iterations that one has made. *)
Definition pending (i : Z) (ln : lane) : nat := dealt i (todo ln).
Definition inside (i : Z) (ln : lane) : nat :=
  match cur ln with
  | Some fr => if decide (fr_i fr = i) then 1 else 0
  | None => 0
  end.
Definition drawn (i : Z) (ln : lane) : nat :=
  match cur ln with
  | Some fr => if decide (fr_i fr = i) then Z.to_nat (fr_k fr) else 0
  | None => 0
  end.

(** The counts for index [i] add up at every moment of a launch in which
    it is dealt out [total] times. *)
Record count_inv (samples : Z) (i : Z) (total : nat) (c : kernel) (evs : list event)
    : Prop := CountInv {
  ci_get : (count_of is_get_state i evs + sum_list_with (pending i) (k_lanes c) = total)%nat;
  ci_free : (count_of is_free_state i evs + sum_list_with (inside i) (k_lanes c)
             = count_of is_get_state i evs)%nat;
  ci_normal : (count_of is_normal i evs
               = sum_list_with (drawn i) (k_lanes c)
                 + count_of is_free_state i evs * Z.to_nat samples)%nat;
  ci_store : k_ub c = false → count_of is_store i evs = count_of is_normal i evs;
  ci_k : ∀ t td fr, k_lanes c !! t = Some (Lane td (Some fr)) →
         0 ≤ fr_k fr ≤ Z.max 0 samples;
}.

(** *** The segments of a launch

    [seg] has for every row that has been started the slot its state came
    from and the number of the segment it draws, [uses] how many segments
    have been drawn from a slot and given back.  A slot that is free holds
    the state behind its segments; a row that is being filled holds the
    first [k] values of its segment and its lane the state behind them; a
    row that is filled holds its whole segment; no two rows have the same
    segment. *)
Record seg_inv (draw : gstate → double * gstate) (samples : Z)
    (pm0 : pool_mem) (assign : list (list Z))
    (seg : gmap Z (nat * nat)) (uses : nat → nat) (c : kernel) : Prop := SegInv {
  si_len : length (states_ (k_pool c)) = length (states_ pm0);
  si_pool : ∀ idx s0, states_ pm0 !! idx = Some s0 →
            locks_ (k_pool c) !! idx = Some false →
            states_ (k_pool c) !! idx = Some (advance draw (uses idx * Z.to_nat samples) s0);
  si_frame : ∀ t td i g k, k_lanes c !! t = Some (Lane td (Some (Frame i g k))) →
             0 ≤ k ≤ Z.max 0 samples ∧
             seg !! i = Some (state_idx_ g, uses (state_idx_ g)) ∧
             ∃ s0, states_ pm0 !! state_idx_ g = Some s0 ∧
                   state_ g =
                   advance draw (uses (state_idx_ g) * Z.to_nat samples + Z.to_nat k) s0 ∧
                   ∀ k', 0 ≤ k' < k →
                     data (k_vals c) !! (i, k') =
                     Some (draw_at draw s0
                             (uses (state_idx_ g) * Z.to_nat samples + Z.to_nat k'));
  si_seg : ∀ i idx m, seg !! i = Some (idx, m) →
           (∃ t td g k, k_lanes c !! t = Some (Lane td (Some (Frame i g k))) ∧
                        state_idx_ g = idx ∧ m = uses idx) ∨
           ((m < uses idx)%nat ∧
            (∀ t ln, k_lanes c !! t = Some ln → i ∉ lane_rows ln) ∧
            ∃ s0, states_ pm0 !! idx = Some s0 ∧
                  holds_segment draw samples (k_vals c) i s0 m);
  si_inj : ∀ i j p, seg !! i = Some p → seg !! j = Some p → i = j;
  si_todo : ∀ t ln i, k_lanes c !! t = Some ln → i ∈ todo ln → seg !! i = None;
  si_cover : ∀ i, i ∈ concat assign →
             (∃ t ln, k_lanes c !! t = Some ln ∧ i ∈ todo ln) ∨ is_Some (seg !! i);
  si_nodup : ∀ t ln, k_lanes c !! t = Some ln → NoDup (lane_rows ln);
}.

(** ** The objects [main] works with *)

(** Views and pools are handles to memory of the execution space: a copy of
    a view or of a pool, such as the one a functor holds, reaches the same
    memory as the original. *)
Record memory := Memory {
  views : gmap nat buffer;
  pools : gmap nat pool_mem;
}.

(** [using ViewType = Kokkos::View<double**, DeviceType>] *)
Record ViewType := View_handle { view_id : nat }.

(** [Kokkos::Random_XorShift64_Pool] and [Kokkos::Random_XorShift1024_Pool] *)
Record Random_XorShift64_Pool := XorShift64_handle { pool64_id : nat }.
Record Random_XorShift1024_Pool := XorShift1024_handle { pool1024_id : nat }.

Inductive width := W64 | W1024.

(** What the template [generate_random<GeneratorPool>] needs of its
    parameter. *)
Class GeneratorPool (P : Type) := {
  pool_id : P → nat;
  pool_width : width;
}.
#[global] Instance XorShift64_GeneratorPool : GeneratorPool Random_XorShift64_Pool :=
  {| pool_id := pool64_id; pool_width := W64 |}.
#[global] Instance XorShift1024_GeneratorPool : GeneratorPool Random_XorShift1024_Pool :=
  {| pool_id := pool1024_id; pool_width := W1024 |}.

Definition draw_of (w : width) : gstate → double * gstate :=
  match w with W64 => xorshift64_normal | W1024 => xorshift1024_normal end.
Definition init_of (w : width) : Z → nat → gstate :=
  match w with W64 => xorshift64_init | W1024 => xorshift1024_init end.

(** [struct generate_random]: the three members, set by the constructor. *)
Record generate_random (P : Type) := Functor {
  vals : ViewType;
  rand_pool : P;
  samples : Z;
}.
Arguments Functor {P} _ _ _.
Arguments vals {P} _.
Arguments rand_pool {P} _.
Arguments samples {P} _.

(** [Kokkos::RangePolicy<ExecutionSpace>(0, size)] *)
Record RangePolicy := Range { m_begin : Z; m_end : Z }.
Definition range_indices (policy : RangePolicy) : list Z :=
  seqZ (m_begin policy) (m_end policy - m_begin policy).

(** [Kokkos::Timer]: the time point of construction or of the last reset. *)
Record Timer := Timer_at { m_old : Z }.

(** What is not decided by the program: the clock, and for every launch how
    the indices are dealt to the lanes, how the lanes interleave and, for a
    contended pool, who wins which slot.  Both are indexed by the number of
    library calls made so far. *)
Record launch := Launch {
  lp_assign : list (list Z);
  lp_interleave : list nat;
  lp_pick : nat → list nat → nat;
}.
Record environment := Environment {
  env_clock : nat → Z;
  env_launch : nat → launch;
}.

(** Modelled from the spec: "for each independent unit of work i in
    [0, size)"; the dispatch hands every index of the range to exactly one
    lane, and there are as many lanes as the execution space runs at once. *)
Definition valid_launch (policy : RangePolicy) (lp : launch) : Prop :=
  length (lp_assign lp) = concurrency ∧
  concat (lp_assign lp) ≡ₚ range_indices policy.

#[global] Instance valid_launch_dec policy lp : Decision (valid_launch policy lp).
Proof. unfold valid_launch. apply _. Defined.

(** The library calls of [main], as they appear in its run. *)
Inductive call :=
| Kokkos_initialize_call
| Kokkos_finalize_call
| printf_call (s : string)
| cout_call (s : string)
| stoi_call (s : string)
| Pool_ctor_call (w : width) (seed : Z) (id : nat)
| View_ctor_call (label : string) (n0 n1 : Z) (id : nat)
| Timer_ctor_call (now : Z)
| Timer_reset_call (now : Z)
| Timer_seconds_call (now : Z) (result : double)
| parallel_for_call (policy : RangePolicy) (w : width) (pool view : nat) (n : Z)
| fence_call.

(** Modelled from the spec: a launch on the memory the members [vals] and
    [rand_pool] of a functor refer to, the buffer of view [vid] and the pool
    [pid].  The result is the memory after the launch, with the events of the
    launch. *)
Definition launch_on (lp : launch) (wd : width) (n : Z) (vid pid : nat) (m : memory)
    : option (memory * list event) :=
  b ← views m !! vid;
  pm ← pools m !! pid;
  '(pm', b', evs) ← run_kernel (draw_of wd) exec_space_acquisition (lp_pick lp) n
                      (lp_assign lp) (lp_interleave lp) pm b;
  Some (Memory (<[vid := b']> (views m)) (<[pid := pm']> (pools m)), evs).

Record world := World {
  w_mem : memory;
  w_out : string;
  w_trace : list call;
}.

(** How a run of [main] can end: by [return], by an exception nobody catches,
    or outside of what the model of the library defines. *)
Inductive outcome (A : Type) :=
| Returned (a : A) (w : world)
| Uncaught (e : exn) (w : world)
| Undefined.
Arguments Returned {A} _ _.
Arguments Uncaught {A} _ _.
Arguments Undefined {A}.

Definition M (A : Type) : Type := world → outcome A.

#[global] Instance M_ret : MRet M := λ A a w, Returned a w.
#[global] Instance M_bind : MBind M := λ A B f m w,
  match m w with
  | Returned a w1 => f a w1
  | Uncaught e w1 => Uncaught e w1
  | Undefined => Undefined
  end.

Definition throw {A} (e : exn) : M A := λ w, Uncaught e w.
Definition logged (c : call) : M unit := λ w,
  Returned () (World (w_mem w) (w_out w) (w_trace w ++ [c])).
Definition put_out (s : string) : M unit := λ w,
  Returned () (World (w_mem w) (w_out w +:+ s) (w_trace w)).

Section main.
Variable env : environment.

(** The time at which the next call is made. *)
Definition now (w : world) : Z := env_clock env (length (w_trace w)).

(** Modelled from the spec: "process-wide initialization/teardown of the
    parallelism runtime must bracket all of the above", and the fence, "a
    full synchronization barrier".  [Kokkos::initialize], [Kokkos::finalize]
    and [Kokkos::fence] are calls of the library; of their effects the model
    keeps the arguments [initialize] leaves.  [printf] and [std::cout <<]
    append to standard output. *)
Definition Kokkos_initialize (args : list string) : M (list string) :=
  logged Kokkos_initialize_call ;; mret (initialize_args args).
Definition Kokkos_finalize : M unit := logged Kokkos_finalize_call.
Definition Kokkos_fence : M unit := logged fence_call.
Definition printf (s : string) : M unit := put_out s ;; logged (printf_call s).
Definition cout (s : string) : M unit := put_out s ;; logged (cout_call s).

(** [std::stoi(s)]: the integer, or the exception, which [main] does not
    catch. *)
Definition std_stoi (s : string) : M Z :=
  logged (stoi_call s) ;;
  match stoi s with
  | inr z => mret z
  | inl e => throw e
  end.

(** Modelled from the spec: the pool constructors are declared in
    [Kokkos_Random.hpp].  "Construct two generator pools from a fixed literal
    seed value"; a pool is "sized to the execution parallelism" and starts
    with every state free. *)
Definition new_pool_mem (w : width) (seed : Z) : pool_mem :=
  PoolMem (init_of w seed <$> seq 0 concurrency) (replicate concurrency false).
Definition new_pool {P} (mk : nat → P) (wd : width) (seed : Z) : M P := λ w,
  let id := size (pools (w_mem w)) in
  Returned (mk id)
    (World (Memory (views (w_mem w)) (<[id := new_pool_mem wd seed]> (pools (w_mem w))))
       (w_out w) (w_trace w ++ [Pool_ctor_call wd seed id])).

(** Modelled from the spec: the view constructor is declared in
    [Kokkos_Core.hpp].  "Allocate the output buffer", "dimensions rows x
    samples".  The extents are of type [size_t]; what the library does with a
    negative [int] converted to it is outside of the model. *)
Definition new_view (label : string) (n0 n1 : Z) : M ViewType := λ w,
  if decide (0 ≤ n0 ∧ 0 ≤ n1) then
    let id := size (views (w_mem w)) in
    Returned (View_handle id)
      (World (Memory (<[id := Buffer n0 n1 ∅]> (views (w_mem w))) (pools (w_mem w)))
         (w_out w) (w_trace w ++ [View_ctor_call label n0 n1 id]))
  else Undefined.

(** Modelled from the spec: [Kokkos::Timer] is declared in
    [Kokkos_Timer.hpp].  "a monotonic stopwatch with reset and elapsed-seconds
    queries". *)
Definition new_Timer : M Timer := λ w,
  Returned (Timer_at (now w))
    (World (w_mem w) (w_out w) (w_trace w ++ [Timer_ctor_call (now w)])).
Definition Timer_reset (timer : Timer) : M Timer := λ w,
  Returned (Timer_at (now w))
    (World (w_mem w) (w_out w) (w_trace w ++ [Timer_reset_call (now w)])).
Definition Timer_seconds (timer : Timer) : M double := λ w,
  let r := elapsed_seconds (now w) (m_old timer) in
  Returned r (World (w_mem w) (w_out w) (w_trace w ++ [Timer_seconds_call (now w) r])).

(** Modelled from the spec: [Kokkos::parallel_for(policy, functor)].  The
    launch the environment chooses runs on the memory the functor's members
    refer to; a choice that does not hand every index of the range to exactly
    one of the lanes is not a launch of the library, and the run is then
    [Undefined].  The model lets the launch complete here; the fence that
    follows each launch in [main] is then only a call. *)
Definition parallel_for {P} `{GeneratorPool P}
    (policy : RangePolicy) (functor : generate_random P) : M unit := λ w,
  let lp := env_launch env (length (w_trace w)) in
  let vid := view_id (vals functor) in
  let pid := pool_id (rand_pool functor) in
  if decide (valid_launch policy lp) then
    match launch_on lp pool_width (samples functor) vid pid (w_mem w) with
    | Some (m, _) =>
        Returned ()
          (World m (w_out w)
             (w_trace w ++ [parallel_for_call policy pool_width pid vid (samples functor)]))
    | None => Undefined
    end
  else Undefined.

(** [for(int i=0;i<5;i++){ ... }] with a body that does not use [i]. *)
Fixpoint repeat_M (n : nat) (body : M unit) : M unit :=
  match n with
  | O => mret ()
  | S n' => body ;; repeat_M n' body
  end.

Definition endl : string := String (Ascii.ascii_of_nat 10) EmptyString.

(** [int main(int argc, char* args[])] *)
Definition main (args : list string) : M Z :=
  args ← Kokkos_initialize args;
  (if decide (length args ≠ 3%nat) then
     printf ("Please pass two integers on the command line" +:+ endl)
   else
     cout ("Exec space: " +:+ exec_space_name +:+ endl) ;;
     size ← std_stoi (args !!! 1%nat);
     samples ← std_stoi (args !!! 2%nat);
     rand_pool64 ← new_pool XorShift64_handle W64 5374857;
     rand_pool1024 ← new_pool XorShift1024_handle W1024 5374857;
     vals ← new_view "Vals" size samples;
     let policy := Range 0 size in
     timer ← new_Timer;
     repeat_M 5 (parallel_for policy (Functor vals rand_pool64 samples) ;;
                 Kokkos_fence) ;;
     timer ← Timer_reset timer;
     parallel_for policy (Functor vals rand_pool64 samples) ;;
     Kokkos_fence ;;
     time_64 ← Timer_seconds timer;
     parallel_for policy (Functor vals rand_pool1024 samples) ;;
     Kokkos_fence ;;
     timer ← Timer_reset timer;
     parallel_for policy (Functor vals rand_pool1024 samples) ;;
     Kokkos_fence ;;
     time_1024 ← Timer_seconds timer;
     cout ("Time 64: " +:+ show_double time_64 +:+ endl) ;;
     cout ("Time 1024: " +:+ show_double time_1024 +:+ endl)) ;;
  Kokkos_finalize ;;
  mret 0.

Definition initial_world : world := World (Memory ∅ ∅) "" [].

(** What a run of [main] with two arguments that convert is expected to
    print and to call, read off [main] line by line; [main_valid_run] below
    shows that this is what the run does.  The clock is read as call 7 (the
    timer is constructed), 18 and 21 (around the timed fill with the first
    pool), 24 and 27 (around the timed fill with the second pool). *)
Definition usage_line : string :=
  "Please pass two integers on the command line" +:+ endl.
Definition exec_space_line : string := "Exec space: " +:+ exec_space_name +:+ endl.
Definition time_64 : double := elapsed_seconds (env_clock env 21) (env_clock env 18).
Definition time_1024 : double := elapsed_seconds (env_clock env 27) (env_clock env 24).
Definition time_64_line : string := "Time 64: " +:+ show_double time_64 +:+ endl.
Definition time_1024_line : string := "Time 1024: " +:+ show_double time_1024 +:+ endl.

Definition fill_calls (size n : Z) (wd : width) (pid : nat) : list call :=
  [parallel_for_call (Range 0 size) wd pid 0 n; fence_call].

Definition valid_trace (args : list string) (size n : Z) : list call :=
  [Kokkos_initialize_call;
   cout_call exec_space_line;
   stoi_call (args !!! 1%nat);
   stoi_call (args !!! 2%nat);
   Pool_ctor_call W64 5374857 0;
   Pool_ctor_call W1024 5374857 1;
   View_ctor_call "Vals" size n 0;
   Timer_ctor_call (env_clock env 7)] ++
  concat (replicate 5 (fill_calls size n W64 0)) ++
  [Timer_reset_call (env_clock env 18)] ++
  fill_calls size n W64 0 ++
  [Timer_seconds_call (env_clock env 21) time_64] ++
  fill_calls size n W1024 1 ++
  [Timer_reset_call (env_clock env 24)] ++
  fill_calls size n W1024 1 ++
  [Timer_seconds_call (env_clock env 27) time_1024;
   cout_call time_64_line;
   cout_call time_1024_line;
   Kokkos_finalize_call].

(** The memory between two launches of [main]: the one buffer, of view 0,
    with entries inside its extents only, and the two pools, ready. *)
Definition fill_ready (size n : Z) (m : memory) : Prop :=
  dom (views m) = {[0%nat]} ∧
  (∃ b, views m !! 0%nat = Some b ∧ extent0 b = size ∧ extent1 b = n ∧
        ∀ i k, is_Some (data b !! (i, k)) → in_extents b i k) ∧
  (∃ pm, pools m !! 0%nat = Some pm ∧ pool_ready concurrency pm) ∧
  (∃ pm, pools m !! 1%nat = Some pm ∧ pool_ready concurrency pm).

(** The launches of [main]: the number of the call, the generator and the
    pool ([valid_trace] has them at these places). *)
Definition main_launches : list (nat * width * nat) :=
  [(8, W64, 0); (10, W64, 0); (12, W64, 0); (14, W64, 0); (16, W64, 0);
   (19, W64, 0); (22, W1024, 1); (25, W1024, 1)]%nat.

(** The memory a list of launches on view 0 leaves. *)
Fixpoint launch_all (n : Z) (ls : list (nat * width * nat)) (m : memory) : option memory :=
  match ls with
  | [] => Some m
  | (k, wd, pid) :: rest =>
      '(m', _) ← launch_on (env_launch env k) wd n 0 pid m;
      launch_all n rest m'
  end.

(** The memory of [main] when the pools are constructed and the buffer is
    allocated (lines 100 to 102). *)
Definition allocated (size n : Z) : memory :=
  Memory {[0%nat := Buffer size n ∅]}
    (<[1%nat := new_pool_mem W1024 5374857]> {[0%nat := new_pool_mem W64 5374857]}).

End main.

End Model.

(** ** The order of the stages of a run

    The stages the specification names, which stage a call belongs to (calls
    of no stage: output, fences, the construction of the timer), and the two
    orders that are compared below: the one the specification gives and the
    one with the pools before the buffer. *)
Inductive stage :=
| Initialize
| Parse
| Allocate
| Construct_pool (w : width)
| Fill (w : width)
| Timer_start
| Timer_read
| Teardown.

#[global] Instance width_eq_dec : EqDecision width.
Proof. solve_decision. Defined.
#[global] Instance stage_eq_dec : EqDecision stage.
Proof. solve_decision. Defined.

Definition stage_of `{PF : Platform} (c : call) : option stage :=
  match c with
  | Kokkos_initialize_call => Some Initialize
  | stoi_call _ => Some Parse
  | View_ctor_call _ _ _ _ => Some Allocate
  | Pool_ctor_call w _ _ => Some (Construct_pool w)
  | parallel_for_call _ w _ _ _ => Some (Fill w)
  | Timer_reset_call _ => Some Timer_start
  | Timer_seconds_call _ _ => Some Timer_read
  | Kokkos_finalize_call => Some Teardown
  | _ => None
  end.

(** [l1] occurs in [l2], in order, with anything in between. *)
Fixpoint in_order (l1 l2 : list stage) : bool :=
  match l1, l2 with
  | [], _ => true
  | _ :: _, [] => false
  | x :: l1', y :: l2' =>
      if decide (x = y) then in_order l1' l2' else in_order l1 l2'
  end.

(** The order as the specification has it: "environment initialization,
    argument parsing into two integers, allocation of a row-major
    matrix-shaped output buffer, construction of two generator pools, five
    warm-up parallel fills using the first pool, a timed single fill using
    each pool, and teardown". *)
Definition spec_order : list stage :=
  [Initialize; Parse; Parse; Allocate; Construct_pool W64; Construct_pool W1024] ++
  replicate 5 (Fill W64) ++
  [Timer_start; Fill W64; Timer_read; Timer_start; Fill W1024; Timer_read; Teardown].

(** The same with the construction of the pools before the allocation. *)
Definition pools_first_order : list stage :=
  [Initialize; Parse; Parse; Construct_pool W64; Construct_pool W1024; Allocate] ++
  replicate 5 (Fill W64) ++
  [Timer_start; Fill W64; Timer_read; Timer_start; Fill W1024; Timer_read; Teardown].

(** The calls that write to standard output. *)
Definition is_output `{PF : Platform} (c : call) : bool :=
  match c with
  | printf_call _ | cout_call _ => true
  | _ => false
  end.

(** The calls of [Kokkos::parallel_for]. *)
Definition is_launch `{PF : Platform} (c : call) : bool :=
  match c with
  | parallel_for_call _ _ _ _ _ => true
  | _ => false
  end.

(** A call that allocates a view or launches on one does so with view [v]. *)
Definition uses_view `{PF : Platform} (v : nat) (c : call) : Prop :=
  match c with
  | parallel_for_call _ _ _ v' _ => v' = v
  | View_ctor_call _ _ _ v' => v' = v
  | _ => True
  end.

Arguments Returned {PF A} _ _.
Arguments Uncaught {PF A} _ _.
Arguments Undefined {PF A}.
Arguments Functor {P} _ _ _.
Arguments vals {P} _.
Arguments rand_pool {P} _.
Arguments samples {P} _.
Arguments call_operator {PF} draw acq pick samples t i rand_pool vals.
Arguments draw_seq {PF} draw n s.
Arguments run_kernel {PF} draw acq pick samples assign sched rand_pool vals.
Arguments main {PF} env args.

(** ** A small platform to run the model on

    Two lanes, integers for [double], a linear congruential step for the
    generators and a decimal parser for [std::stoi].  It only serves to
    evaluate the definitions above on concrete inputs. *)
Module Demo.

Definition digit_of (a : Ascii.ascii) : option Z :=
  let n := Z.of_nat (Ascii.nat_of_ascii a) in
  if decide (48 ≤ n ≤ 57) then Some (n - 48) else None.

Fixpoint digits (acc : Z) (s : string) : option Z :=
  match s with
  | EmptyString => Some acc
  | String a s' => d ← digit_of a; digits (10 * acc + d) s'
  end.

Definition parse (s : string) : exn + Z :=
  match s with
  | EmptyString => inl invalid_argument
  | _ =>
      match digits 0 s with
      | None => inl invalid_argument
      | Some z => if decide (z < 2 ^ 31) then inr z else inl out_of_range
      end
  end.

Definition lcg (a c s : Z) : Z * Z :=
  let s' := (a * s + c) `mod` 2 ^ 64 in (s' `div` 2 ^ 32, s').

Definition platform (acq : acquisition) : Platform := {|
  double := Z;
  elapsed_seconds := λ t1 t0, t1 - t0;
  show_double := λ x, if decide (x = 0) then "0" else "positive";
  gstate := Z;
  xorshift64_normal := lcg 6364136223846793005 1442695040888963407;
  xorshift1024_normal := lcg 3935559000370003845 2691343689449507681;
  xorshift64_init := λ seed j, seed + Z.of_nat j;
  xorshift1024_init := λ seed j, 2 * seed + Z.of_nat j;
  exec_space_name := "Demo";
  concurrency := 2;
  exec_space_acquisition := acq;
  initialize_args := λ args, args;
  stoi := parse;
|}.

(** Lane 0 gets the even indices, lane 1 the odd ones. *)
Definition deal (size : Z) : list (list Z) :=
  [filter (λ i, Z.even i = true) (seqZ 0 size);
   filter (λ i, Z.even i = false) (seqZ 0 size)].

Definition env (size : Z) (sched : list nat) (pick : nat → list nat → nat) : environment :=
  Environment (λ n, 10 * Z.of_nat n) (λ _, Launch (deal size) sched pick).

(** A run with three rows of two samples, a pool of two states, and a
    buffer of three rows by two columns. *)
Definition args : list string := ["random_numbers"; "3"; "2"].
Definition few_args : list string := ["random_numbers"; "3"].
Definition bad_args : list string := ["random_numbers"; "three"; "2"].
Definition unconverted_args : list string := ["random_numbers"; "3"; "x"].
Definition sched : list nat := [0; 1; 1; 0; 0; 1]%nat.
Definition race (t : nat) (free : list nat) : nat := t.
Definition run_env : environment := env 3 sched race.
Definition cpu : Platform := platform ThreadIndexed.
Definition gpu : Platform := platform Contended.
Definition pool : @pool_mem cpu := @PoolMem cpu [5; 6] [false; false].
Definition fresh_vals : @buffer cpu := @Buffer cpu 3 2 ∅.
Definition gpu_pool : @pool_mem gpu := @PoolMem gpu [5; 6] [false; false].
Definition gpu_vals : @buffer gpu := @Buffer gpu 3 2 ∅.

(** A run with no samples to draw, and a second environment that deals the
    indices as [run_env] does and interleaves the lanes in another way. *)
Definition no_samples_args : list string := ["random_numbers"; "3"; "0"].
Definition other_env : environment := env 3 [1; 1; 0]%nat (λ _ _, 1%nat).

(** The buffers two interleavings of one launch leave when the pool is
    contended and slot 0 goes to the lane that steps first. *)
Definition race_left : option (gmap (Z * Z) Z) :=
  Eval vm_compute in
    (λ r, data r.1.2) <$>
      run_kernel (PF := gpu) xorshift64_normal Contended (λ _ _, 0%nat) 2
        (deal 3) [0; 1]%nat gpu_pool gpu_vals.
Definition race_right : option (gmap (Z * Z) Z) :=
  Eval vm_compute in
    (λ r, data r.1.2) <$>
      run_kernel (PF := gpu) xorshift64_normal Contended (λ _ _, 0%nat) 2
        (deal 3) [1; 0]%nat gpu_pool gpu_vals.

End Demo.

(** * Facts about one invocation *)

Section Invocation.
Context `{PF : Platform}.
Variable draw : gstate → double * gstate.
Variable acq : acquisition.
Variable pick : nat → list nat → nat.
Variable samples : Z.

Lemma elem_of_free_slots (locks : list bool) (j : nat) :
  j ∈ free_slots locks ↔ locks !! j = Some false.
Proof.
  unfold free_slots. rewrite list_elem_of_filter, elem_of_seq. split.
  - tauto.
  - intros H. split; [done|]. apply lookup_lt_Some in H. lia.
Qed.

Lemma get_state_Some (t : nat) (pm : pool_mem) g pm1 :
  get_state acq pick t pm = Some (g, pm1) →
  locks_ pm !! state_idx_ g = Some false ∧
  states_ pm !! state_idx_ g = Some (state_ g) ∧
  pm1 = PoolMem (states_ pm) (<[state_idx_ g := true]> (locks_ pm)) ∧
  (acq = ThreadIndexed → state_idx_ g = t).
Proof.
  unfold get_state. intros H.
  destruct (get_state_idx acq pick t (locks_ pm)) as [idx|] eqn:Hidx; [|done].
  simpl in H. destruct (states_ pm !! idx) as [s|] eqn:Hs; [|done]. simpl in H.
  destruct (locks_ pm !! idx) as [[|]|] eqn:Hl; try done.
  injection H as <- <-. simpl. repeat split; try done.
  intros ->. simpl in Hidx. congruence.
Qed.

Lemma can_acquire_get_state (t : nat) (pm : pool_mem) :
  can_acquire acq t pm → is_Some (get_state acq pick t pm).
Proof.
  intros [Hlen Hfree]. unfold get_state.
  assert (∃ idx, get_state_idx acq pick t (locks_ pm) = Some idx ∧
                 locks_ pm !! idx = Some false) as (idx & -> & Hl).
  { destruct acq; simpl.
    - eauto.
    - destruct Hfree as [j Hj]. apply elem_of_free_slots in Hj.
      assert (length (free_slots (locks_ pm)) ≠ 0%nat) as Hne.
      { destruct (free_slots (locks_ pm)); [by apply elem_of_nil in Hj|done]. }
      destruct (lookup_lt_is_Some_2 (free_slots (locks_ pm))
                  (pick t (free_slots (locks_ pm)) `mod` length (free_slots (locks_ pm)))%nat)
        as [idx Hidx].
      { by apply Nat.mod_upper_bound. }
      exists idx. split; [done|].
      apply elem_of_free_slots. eapply list_elem_of_lookup_2. exact Hidx. }
  simpl. destruct (lookup_lt_is_Some_2 (states_ pm) idx) as [s ->].
  { rewrite Hlen. by eapply lookup_lt_Some. }
  simpl. rewrite Hl. eauto.
Qed.

Lemma draw_seq_length (n : nat) (s : gstate) : length (draw_seq draw n s).1 = n.
Proof.
  revert s. induction n as [|n IH]; intros s; simpl; [done|].
  destruct (draw s) as [x s1]. specialize (IH s1).
  destruct (draw_seq draw n s1) as [xs s2]. simpl in *. by rewrite IH.
Qed.

Lemma store_row_lookup (i k : Z) (xs : list double) (d : gmap (Z * Z) double) (i' k' : Z) :
  store_row i k xs d !! (i', k') =
  if decide (i' = i ∧ k ≤ k' < k + Z.of_nat (length xs))
  then xs !! Z.to_nat (k' - k)
  else d !! (i', k').
Proof.
  revert k d. induction xs as [|x xs IH]; intros k d; simpl.
  - case_decide; [lia|done].
  - rewrite IH. repeat case_decide; try lia.
    + replace (Z.to_nat (k' - k)) with (S (Z.to_nat (k' - (k + 1)))) by lia. done.
    + destruct_and!. subst. assert (k' = k) as -> by lia.
      rewrite lookup_insert_eq. by replace (Z.to_nat (k - k)) with 0%nat by lia.
    + rewrite lookup_insert_ne; [done|]. intros [= -> ->]. lia.
    + rewrite lookup_insert_ne; [done|]. intros [= -> ->]. lia.
Qed.

(** The loop of [operator()] draws [samples] values and stores them to row
    [i], from whatever column it is entered at. *)
Lemma draw_loop_run (fuel : nat) (i k : Z) (g : generator_type) (b : buffer) :
  0 ≤ i < extent0 b → 0 ≤ k → samples ≤ extent1 b →
  (Z.to_nat (samples - k) ≤ fuel)%nat →
  draw_loop draw samples fuel i k g b =
  let '(xs, s) := draw_seq draw (Z.to_nat (samples - k)) (state_ g) in
  Some (Generator s (state_idx_ g),
        Buffer (extent0 b) (extent1 b) (store_row i k xs (data b)),
        row_ops i k xs).
Proof.
  intros Hi. revert k g b Hi.
  induction fuel as [|fuel IH]; intros k g b Hi Hk He Hfuel; simpl.
  - case_decide; [lia|]. replace (Z.to_nat (samples - k)) with 0%nat by lia.
    simpl. by destruct g, b.
  - case_decide as Hlt.
    + replace (Z.to_nat (samples - k)) with (S (Z.to_nat (samples - (k + 1)))) by lia.
      simpl. unfold normal. destruct (draw (state_ g)) as [x s1].
      unfold view_store. rewrite decide_True by (unfold in_extents; lia).
      simpl. rewrite IH; simpl; try lia.
      by destruct (draw_seq draw (Z.to_nat (samples - (k + 1))) s1) as [xs s2].
    + replace (Z.to_nat (samples - k)) with 0%nat by lia.
      simpl. by destruct g, b.
Qed.

Lemma draw_loop_stays (fuel : nat) (i k : Z) (g : generator_type) (b : buffer) g' b' ops :
  draw_loop draw samples fuel i k g b = Some (g', b', ops) →
  state_idx_ g' = state_idx_ g ∧
  extent0 b' = extent0 b ∧ extent1 b' = extent1 b ∧
  (∀ i' k', i' ≠ i → data b' !! (i', k') = data b !! (i', k')) ∧
  written ops ⊆ set_map (λ k', (i, k')) (list_to_set (C := gset Z) (seqZ k (samples - k))) ∧
  count is_get_state ops = 0%nat ∧ count is_free_state ops = 0%nat.
Proof.
  revert k g b g' b' ops.
  induction fuel as [|fuel IH]; intros k g b g' b' ops; simpl.
  - case_decide; [done|]. intros [= <- <- <-]. repeat split; set_solver.
  - case_decide as Hlt; [|intros [= <- <- <-]; repeat split; set_solver].
    unfold normal. destruct (draw (state_ g)) as [x s1].
    unfold view_store. case_decide as Hin; [|done]. simpl.
    destruct (draw_loop draw samples fuel i (k + 1) _ _) as [[[g1 b1] ops1]|] eqn:Hrec;
      [|done].
    simpl. intros [= <- <- <-].
    apply IH in Hrec as (Hidx & He0 & He1 & Hframe & Hwr & Hg & Hf). simpl in *.
    repeat split; try done.
    + intros i' k' Hne. rewrite Hframe by done.
      rewrite lookup_insert_ne; [done|]. congruence.
    + unfold written in *. simpl.
      intros c Hc. apply elem_of_union in Hc as [Hc|Hc].
      * apply elem_of_singleton in Hc as ->. apply elem_of_map.
        exists k. split; [done|]. apply elem_of_list_to_set, elem_of_seqZ. lia.
      * apply Hwr in Hc. apply elem_of_map in Hc as (k' & -> & Hk').
        apply elem_of_map. exists k'. split; [done|].
        apply elem_of_list_to_set, elem_of_seqZ.
        apply elem_of_list_to_set, elem_of_seqZ in Hk'. lia.
Qed.

Lemma count_row_ops (i k : Z) (xs : list double) :
  count is_get_state (row_ops i k xs) = 0%nat ∧
  count is_free_state (row_ops i k xs) = 0%nat ∧
  count is_normal (row_ops i k xs) = length xs.
Proof.
  revert k. induction xs as [|x xs IH]; intros k; [done|].
  destruct (IH (k + 1)) as (Hg & Hf & Hn). unfold count in *. simpl.
  rewrite !filter_cons. simpl.
  repeat case_decide; try discriminate; simpl; auto.
Qed.

Lemma count_app (p : op → bool) (l1 l2 : list op) :
  count p (l1 ++ l2) = (count p l1 + count p l2)%nat.
Proof. unfold count. by rewrite filter_app, length_app. Qed.

(** [operator()] in closed form. *)
Lemma call_operator_run (t : nat) (i : Z) (pm : pool_mem) (b : buffer) :
  can_acquire acq t pm → 0 ≤ i < extent0 b → samples ≤ extent1 b →
  ∃ g pm1 xs s,
    get_state acq pick t pm = Some (g, pm1) ∧
    draw_seq draw (Z.to_nat samples) (state_ g) = (xs, s) ∧
    call_operator draw acq pick samples t i pm b =
    Some (free_state (Generator s (state_idx_ g)) pm1,
          Buffer (extent0 b) (extent1 b) (store_row i 0 xs (data b)),
          OpGetState (state_idx_ g) :: row_ops i 0 xs ++ [OpFreeState (state_idx_ g)]).
Proof.
  intros Hacq Hi He.
  destruct (can_acquire_get_state t pm Hacq) as [[g pm1] Hget].
  destruct (draw_seq draw (Z.to_nat samples) (state_ g)) as [xs s] eqn:Hseq.
  exists g, pm1, xs, s. repeat split; try done.
  unfold call_operator. rewrite Hget. simpl.
  rewrite draw_loop_run by (try done; lia).
  replace (samples - 0) with samples by lia. rewrite Hseq. done.
Qed.

Lemma written_call (idx idx' : nat) (ops : list op) :
  written (OpGetState idx :: ops ++ [OpFreeState idx']) = written ops.
Proof.
  unfold written. simpl. rewrite omap_app. simpl. by rewrite app_nil_r.
Qed.

Lemma call_operator_stays (t : nat) (i : Z) (pm : pool_mem) (b : buffer) pm' b' ops :
  call_operator draw acq pick samples t i pm b = Some (pm', b', ops) →
  (∀ c, c ∈ written ops → c.1 = i) ∧
  (∀ i' k, i' ≠ i → data b' !! (i', k) = data b !! (i', k)).
Proof.
  unfold call_operator. intros H.
  destruct (get_state acq pick t pm) as [[g pm1]|]; [|done]. simpl in H.
  destruct (draw_loop draw samples (Z.to_nat samples) i 0 g b)
    as [[[g' b1] ops1]|] eqn:Hloop; [|done].
  simpl in H. injection H as <- <- <-.
  apply draw_loop_stays in Hloop as (_ & _ & _ & Hframe & Hwr & _).
  split; [|done].
  intros c Hc. rewrite written_call in Hc. apply Hwr in Hc.
  apply elem_of_map in Hc as (k' & -> & _). done.
Qed.

(** C1. One invocation of the fill task [operator()(i)], for a row [i] of the
    buffer and with a state to be had from the pool, takes exactly one state
    ([get_state] once, of a slot [idx] that was free), draws exactly [samples]
    values from it ([normal] that many times), stores them to the entries
    [(i, 0)] to [(i, samples - 1)] in the order drawn, and then gives the
    same slot back ([free_state] once, last, of slot [idx], which is free
    again and holds the state the draws left). *)
Theorem fill_task_invocation (t : nat) (i : Z) (pm : pool_mem) (b : buffer) :
  can_acquire acq t pm → 0 ≤ i < extent0 b → samples ≤ extent1 b →
  ∃ idx s0 xs s pm' b' ops,
    call_operator draw acq pick samples t i pm b = Some (pm', b', ops) ∧
    ops = OpGetState idx :: row_ops i 0 xs ++ [OpFreeState idx] ∧
    locks_ pm !! idx = Some false ∧ states_ pm !! idx = Some s0 ∧
    draw_seq draw (Z.to_nat samples) s0 = (xs, s) ∧
    length xs = Z.to_nat samples ∧
    (∀ k, 0 ≤ k < samples → data b' !! (i, k) = xs !! Z.to_nat k) ∧
    locks_ pm' !! idx = Some false ∧ states_ pm' !! idx = Some s ∧
    count is_get_state ops = 1%nat ∧
    count is_normal ops = Z.to_nat samples ∧
    count is_free_state ops = 1%nat.
Proof.
  intros Hacq Hi He.
  destruct (call_operator_run t i pm b Hacq Hi He)
    as (g & pm1 & xs & s & Hget & Hseq & Hcall).
  apply get_state_Some in Hget as (Hl & Hs & -> & _).
  assert (length xs = Z.to_nat samples) as Hlen.
  { pose proof (draw_seq_length (Z.to_nat samples) (state_ g)) as Hd.
    by rewrite Hseq in Hd. }
  destruct (count_row_ops i 0 xs) as (Hcg & Hcf & Hcn).
  eexists (state_idx_ g), (state_ g), xs, s, _, _, _.
  split; [exact Hcall|]. simpl.
  repeat split; try done.
  - intros k Hk. rewrite store_row_lookup.
    rewrite decide_True by lia. by replace (k - 0) with k by lia.
  - apply list_lookup_insert_eq. rewrite length_insert. by eapply lookup_lt_Some.
  - apply list_lookup_insert_eq. by eapply lookup_lt_Some.
  - change (OpGetState (state_idx_ g) :: row_ops i 0 xs ++ [OpFreeState (state_idx_ g)])
      with ([OpGetState (state_idx_ g)] ++ row_ops i 0 xs ++ [OpFreeState (state_idx_ g)]).
    rewrite !count_app, Hcg. done.
  - change (OpGetState (state_idx_ g) :: row_ops i 0 xs ++ [OpFreeState (state_idx_ g)])
      with ([OpGetState (state_idx_ g)] ++ row_ops i 0 xs ++ [OpFreeState (state_idx_ g)]).
    rewrite !count_app, Hcn, Hlen. unfold count. simpl. lia.
  - change (OpGetState (state_idx_ g) :: row_ops i 0 xs ++ [OpFreeState (state_idx_ g)])
      with ([OpGetState (state_idx_ g)] ++ row_ops i 0 xs ++ [OpFreeState (state_idx_ g)]).
    rewrite !count_app, Hcf. done.
Qed.

(** C2. An invocation of the fill task for index [i] that completes stores
    only to entries of row [i]; every entry of another row holds after it
    what it held before; and the entries stored to by invocations for two
    different indices are disjoint sets. *)
Theorem fill_task_frame (t : nat) (i : Z) (pm : pool_mem) (b : buffer) pm' b' ops :
  call_operator draw acq pick samples t i pm b = Some (pm', b', ops) →
  (∀ c, c ∈ written ops → c.1 = i) ∧
  (∀ i' k, i' ≠ i → data b' !! (i', k) = data b !! (i', k)) ∧
  (∀ t2 i2 pm2 b2 pm2' b2' ops2,
     i2 ≠ i →
     call_operator draw acq pick samples t2 i2 pm2 b2 = Some (pm2', b2', ops2) →
     written ops ## written ops2).
Proof.
  intros H. destruct (call_operator_stays _ _ _ _ _ _ _ H) as [Hrow Hframe].
  repeat split; try done.
  intros t2 i2 pm2 b2 pm2' b2' ops2 Hne H2.
  destruct (call_operator_stays _ _ _ _ _ _ _ H2) as [Hrow2 _].
  intros c Hc Hc2. apply Hrow in Hc. apply Hrow2 in Hc2. congruence.
Qed.

(** The calls of an invocation that completes: [get_state] first,
    [free_state] of the same slot last, neither in between. *)
Lemma call_operator_paired (t : nat) (i : Z) (pm : pool_mem) (b : buffer) pm' b' ops :
  call_operator draw acq pick samples t i pm b = Some (pm', b', ops) →
  ∃ idx body,
    ops = OpGetState idx :: body ++ [OpFreeState idx] ∧
    count is_get_state body = 0%nat ∧ count is_free_state body = 0%nat ∧
    locks_ pm !! idx = Some false ∧ locks_ pm' !! idx = Some false.
Proof.
  unfold call_operator. intros H.
  destruct (get_state acq pick t pm) as [[g pm1]|] eqn:Hget; [|done]. simpl in H.
  destruct (draw_loop draw samples (Z.to_nat samples) i 0 g b)
    as [[[g' b1] ops1]|] eqn:Hloop; [|done].
  simpl in H. injection H as <- <- <-.
  apply draw_loop_stays in Hloop as (Hidx & _ & _ & _ & _ & Hcg & Hcf).
  apply get_state_Some in Hget as (Hl & _ & -> & _).
  exists (state_idx_ g), ops1. simpl. rewrite Hidx. repeat split; try done.
  apply list_lookup_insert_eq. rewrite length_insert. by eapply lookup_lt_Some.
Qed.

End Invocation.

(** ** The edges of one invocation

    What [operator()] does when there is nothing to draw, when the row or the
    columns are not in the buffer, and what it leaves of the pool. *)

Section Invocation_edges.
Context `{PF : Platform}.
Variable draw : gstate → double * gstate.
Variable acq : acquisition.
Variable pick : nat → list nat → nat.
Variable samples : Z.

(** Line 81 after line 73: the slot is unlocked again and holds the state
    the copy was left in. *)
Lemma free_state_get_state (t : nat) (pm pm1 : pool_mem) (g : generator_type) (s : gstate) :
  get_state acq pick t pm = Some (g, pm1) →
  free_state (Generator s (state_idx_ g)) pm1 =
  PoolMem (<[state_idx_ g := s]> (states_ pm)) (locks_ pm).
Proof.
  intros Hget. apply get_state_Some in Hget as (Hl & _ & -> & _).
  unfold free_state. simpl. f_equal.
  rewrite list_insert_insert_eq. by apply list_insert_id.
Qed.

(** The loop of [operator()] stores to every column from the one it is
    entered at up to [samples], so these are inside the extents when it
    completes. *)
Lemma draw_loop_inside (fuel : nat) (i k : Z) (g : generator_type) (b : buffer) r :
  draw_loop draw samples fuel i k g b = Some r →
  ∀ k', k ≤ k' < samples → in_extents b i k'.
Proof.
  revert k g b r. induction fuel as [|fuel IH]; intros k g b r; simpl.
  - case_decide; [done|]. intros _ k' Hk'. lia.
  - case_decide as Hlt; [|intros _ k' Hk'; lia].
    unfold normal. destruct (draw (state_ g)) as [x s1].
    unfold view_store. case_decide as Hin; [|done]. simpl.
    destruct (draw_loop draw samples fuel i (k + 1) _ _) as [r1|] eqn:Hrec; [|done].
    intros _ k' Hk'. destruct (decide (k' = k)) as [->|Hne]; [done|].
    apply IH with (k' := k') in Hrec; [|lia]. exact Hrec.
Qed.

Lemma call_operator_zero (t : nat) (i : Z) (pm : pool_mem) (b : buffer) :
  samples ≤ 0 → can_acquire acq t pm →
  ∃ idx, call_operator draw acq pick samples t i pm b =
         Some (pm, b, [OpGetState idx; OpFreeState idx]).
Proof.
  intros Hn Hacq.
  destruct (can_acquire_get_state acq pick t pm Hacq) as [[g pm1] Hget].
  exists (state_idx_ g). unfold call_operator. rewrite Hget. simpl.
  replace (Z.to_nat samples) with 0%nat by lia. simpl.
  rewrite decide_False by lia. simpl.
  pose proof (free_state_get_state t pm pm1 g (state_ g) Hget) as Hfree.
  destruct g as [s idx]. simpl in *. rewrite Hfree.
  apply get_state_Some in Hget as (_ & Hs & _ & _). simpl in Hs.
  rewrite list_insert_id by done. by destruct pm.
Qed.

(** An invocation that completes, in closed form. *)
Lemma call_operator_inv (t : nat) (i : Z) (pm : pool_mem) (b : buffer) pm' b' ops :
  call_operator draw acq pick samples t i pm b = Some (pm', b', ops) →
  ∃ g pm1 xs s,
    get_state acq pick t pm = Some (g, pm1) ∧
    draw_seq draw (Z.to_nat samples) (state_ g) = (xs, s) ∧
    pm' = PoolMem (<[state_idx_ g := s]> (states_ pm)) (locks_ pm) ∧
    b' = Buffer (extent0 b) (extent1 b) (store_row i 0 xs (data b)) ∧
    ops = OpGetState (state_idx_ g) :: row_ops i 0 xs ++ [OpFreeState (state_idx_ g)] ∧
    (0 < samples → 0 ≤ i < extent0 b ∧ samples ≤ extent1 b).
Proof.
  unfold call_operator. intros H.
  destruct (get_state acq pick t pm) as [[g pm1]|] eqn:Hget; [|done]. simpl in H.
  destruct (draw_loop draw samples (Z.to_nat samples) i 0 g b) as [r|] eqn:Hloop; [|done].
  assert (0 < samples → 0 ≤ i < extent0 b ∧ samples ≤ extent1 b) as Hin.
  { intros Hpos.
    destruct (draw_loop_inside _ _ _ _ _ _ Hloop 0 ltac:(lia)) as [? _].
    destruct (draw_loop_inside _ _ _ _ _ _ Hloop (samples - 1) ltac:(lia)) as [_ ?].
    lia. }
  destruct (draw_seq draw (Z.to_nat samples) (state_ g)) as [xs s] eqn:Hseq.
  exists g, pm1, xs, s. split; [done|]. split; [done|].
  destruct (decide (0 < samples)) as [Hpos|Hneg].
  - destruct (Hin Hpos) as [Hi He].
    rewrite draw_loop_run in Hloop by (try done; lia).
    replace (samples - 0) with samples in Hloop by lia. rewrite Hseq in Hloop.
    injection Hloop as <-. simpl in H. injection H as <- <- <-.
    by rewrite (free_state_get_state t pm pm1 g s Hget).
  - replace (Z.to_nat samples) with 0%nat in * by lia. simpl in *.
    rewrite decide_False in Hloop by lia. injection Hloop as <-.
    injection Hseq as <- <-. simpl in H. injection H as <- <- <-.
    pose proof (free_state_get_state t pm pm1 g (state_ g) Hget) as Hfree.
    destruct g as [s idx]. simpl in *. rewrite Hfree. by destruct b.
Qed.

(** X1. With a state to be had from the pool, an invocation of
    [operator()(i)] has a result exactly when there is nothing to draw
    ([samples <= 0]), or [i] is a row of the buffer and the buffer has at
    least [samples] columns.  In every other case the loop of line 78 stores
    outside the extents. *)
Theorem invocation_defined_iff (t : nat) (i : Z) (pm : pool_mem) (b : buffer) :
  can_acquire acq t pm →
  is_Some (call_operator draw acq pick samples t i pm b) ↔
  samples ≤ 0 ∨ (0 ≤ i < extent0 b ∧ samples ≤ extent1 b).
Proof.
  intros Hacq. split.
  - intros [[[pm' b'] ops] H].
    apply call_operator_inv in H as (_ & _ & _ & _ & _ & _ & _ & _ & _ & Hin).
    destruct (decide (0 < samples)); [right; auto|left; lia].
  - intros [Hn|[Hi He]].
    + destruct (call_operator_zero t i pm b Hn Hacq) as [idx ->]. eauto.
    + destruct (call_operator_run draw acq pick samples t i pm b Hacq Hi He)
        as (g & pm1 & xs & s & _ & _ & ->). eauto.
Qed.

(** X2. An invocation that completes leaves every lock of the pool as it
    found it and changes the state of one slot only, the one it took with
    [get_state]: that slot holds the state [samples] draws lead to from the
    state it held, every other slot holds what it held.  The extents of the
    buffer stay as they are. *)
Theorem invocation_pool_frame (t : nat) (i : Z) (pm : pool_mem) (b : buffer) pm' b' ops :
  call_operator draw acq pick samples t i pm b = Some (pm', b', ops) →
  ∃ idx s0 s,
    head ops = Some (OpGetState idx) ∧
    states_ pm !! idx = Some s0 ∧
    (draw_seq draw (Z.to_nat samples) s0).2 = s ∧
    states_ pm' = <[idx := s]> (states_ pm) ∧
    locks_ pm' = locks_ pm ∧
    (∀ j, j ≠ idx → states_ pm' !! j = states_ pm !! j) ∧
    extent0 b' = extent0 b ∧ extent1 b' = extent1 b.
Proof.
  intros H.
  apply call_operator_inv in H as (g & pm1 & xs & s & Hget & Hseq & -> & -> & -> & _).
  apply get_state_Some in Hget as (_ & Hs & _ & _).
  exists (state_idx_ g), (state_ g), s. rewrite Hseq. simpl.
  repeat split; try done.
  intros j Hj. by rewrite list_lookup_insert_ne.
Qed.

(** X3. With nothing to draw ([samples <= 0]) an invocation takes a state
    and gives it back, and that is all: the pool and the buffer are what
    they were, for every index [i], a row of the buffer or not. *)
Theorem invocation_without_samples (t : nat) (i : Z) (pm : pool_mem) (b : buffer) :
  samples ≤ 0 → can_acquire acq t pm →
  ∃ idx, call_operator draw acq pick samples t i pm b =
         Some (pm, b, [OpGetState idx; OpFreeState idx]).
Proof. apply call_operator_zero. Qed.

End Invocation_edges.

(** * Facts about a launch *)

Section Launch.
Context `{PF : Platform}.
Variable draw : gstate → double * gstate.
Variable acq : acquisition.
Variable pick : nat → list nat → nat.
Variable samples : Z.

Local Abbreviation lane_step' := (lane_step draw acq pick samples).
Local Abbreviation exec' := (exec draw acq pick samples).
Local Abbreviation steps' := (steps draw acq pick samples).

Lemma lane_step_steps (t : nat) (c : kernel) :
  steps' t c (lane_step' t c).1 (lane_step' t c).2.
Proof.
  unfold lane_step.
  destruct (k_lanes c !! t) as [[td [[i g k]|]]|] eqn:Hln.
  - case_decide as Hk.
    + destruct (normal draw g) as [x g'] eqn:Hn.
      destruct (view_store i k x (k_vals c)) as [b|] eqn:Hst; simpl.
      * by eapply steps_store.
      * by eapply steps_outside.
    + simpl. by eapply steps_free.
  - destruct td as [|i rest].
    + apply steps_stay. auto.
    + destruct (get_state acq pick t (k_pool c)) as [[g pm]|] eqn:Hg; simpl.
      * by eapply steps_get.
      * apply steps_stay. right. right. eauto.
  - apply steps_stay. auto.
Qed.

Lemma exec_app (s1 s2 : list nat) (c : kernel) :
  exec' (s1 ++ s2) c =
  ((exec' s2 (exec' s1 c).1).1, (exec' s1 c).2 ++ (exec' s2 (exec' s1 c).1).2).
Proof.
  revert c. induction s1 as [|t s1 IH]; intros c; simpl.
  - by destruct (exec' s2 c).
  - destruct (lane_step' t c) as [c1 e1]. rewrite IH.
    destruct (exec' s1 c1) as [c2 e2]. simpl.
    destruct (exec' s2 c2) as [c3 e3]. simpl. by rewrite app_assoc.
Qed.

(** *** An invocation is [samples + 2] steps of its lane

    A lane that is left alone for the steps of one invocation does what
    [call_operator] does: the two embeddings of [operator()] agree. *)
Lemma exec_step (t : nat) (sched : list nat) (c : kernel) :
  exec' (t :: sched) c =
  ((exec' sched (lane_step' t c).1).1,
   (lane_step' t c).2 ++ (exec' sched (lane_step' t c).1).2).
Proof.
  simpl. destruct (lane_step' t c) as [c1 e1]. simpl. by destruct (exec' sched c1).
Qed.

Lemma loop_by_steps (fuel : nat) (t : nat) (i : Z) (rest : list Z) (k : Z)
    (g : generator_type) (c : kernel) g' b' ops :
  k_lanes c !! t = Some (Lane rest (Some (Frame i g k))) →
  fuel = Z.to_nat (samples - k) →
  draw_loop draw samples fuel i k g (k_vals c) = Some (g', b', ops) →
  exec' (replicate (S fuel) t) c =
  (Kernel (free_state g' (k_pool c)) b' (<[t := Lane rest None]> (k_lanes c)) (k_ub c),
   (Event t i <$> ops) ++ [Event t i (OpFreeState (state_idx_ g'))]).
Proof.
  revert k g c ops. induction fuel as [|fuel IH]; intros k g c ops Hl Hfuel Hloop.
  - simpl in Hloop. case_decide as Hk; [done|]. injection Hloop as <- <- <-.
    change (replicate 1 t) with [t]. rewrite exec_step.
    unfold lane_step. rewrite Hl. rewrite decide_False by done. done.
  - simpl in Hloop. case_decide as Hk; [|lia].
    destruct (normal draw g) as [x g1] eqn:Hn.
    destruct (view_store i k x (k_vals c)) as [b1|] eqn:Hst; [|done]. simpl in Hloop.
    destruct (draw_loop draw samples fuel i (k + 1) g1 b1) as [[[g2 b2] ops1]|] eqn:Hrec;
      [|done].
    simpl in Hloop. injection Hloop as <- <- <-.
    change (replicate (S (S fuel)) t) with (t :: replicate (S fuel) t).
    rewrite exec_step. unfold lane_step at 1 2 3. rewrite Hl.
    rewrite decide_True by done. rewrite Hn, Hst.
    cbn [fst snd].
    rewrite (IH (k + 1) g1 _ ops1); simpl.
    + by rewrite list_insert_insert_eq.
    + apply list_lookup_insert_eq. by eapply lookup_lt_Some.
    + lia.
    + done.
Qed.

Lemma call_operator_by_steps (t : nat) (i : Z) (rest : list Z) (c : kernel) pm' b' ops :
  k_lanes c !! t = Some (Lane (i :: rest) None) →
  call_operator draw acq pick samples t i (k_pool c) (k_vals c) = Some (pm', b', ops) →
  exec' (replicate (Z.to_nat samples + 2) t) c =
  (Kernel pm' b' (<[t := Lane rest None]> (k_lanes c)) (k_ub c), Event t i <$> ops).
Proof.
  intros Hl. unfold call_operator.
  destruct (get_state acq pick t (k_pool c)) as [[g pm1]|] eqn:Hget; [|done]. simpl.
  destruct (draw_loop draw samples (Z.to_nat samples) i 0 g (k_vals c))
    as [[[g' b1] ops1]|] eqn:Hloop; [|done].
  simpl. intros [= <- <- <-].
  replace (Z.to_nat samples + 2)%nat with (S (S (Z.to_nat samples))) by lia.
  change (replicate (S (S (Z.to_nat samples))) t)
    with (t :: replicate (S (Z.to_nat samples)) t).
  rewrite exec_step. unfold lane_step at 1 2 3. rewrite Hl, Hget. cbn [fst snd].
  rewrite (loop_by_steps (Z.to_nat samples) t i rest 0 g _ g' b1 ops1); simpl.
  - rewrite list_insert_insert_eq, fmap_app. done.
  - apply list_lookup_insert_eq. by eapply lookup_lt_Some.
  - f_equal. lia.
  - done.
Qed.

(** What every step keeps, every interleaving keeps. *)
Lemma exec_keeps (P : kernel → list event → Prop) :
  (∀ t c c' evs ev, P c evs → steps' t c c' ev → P c' (evs ++ ev)) →
  ∀ sched c evs, P c evs → P (exec' sched c).1 (evs ++ (exec' sched c).2).
Proof.
  intros Hstep sched. induction sched as [|t sched IH]; intros c evs HP; simpl.
  - by rewrite app_nil_r.
  - pose proof (lane_step_steps t c) as Hs.
    destruct (lane_step' t c) as [c1 e1]. simpl in Hs.
    specialize (IH c1 (evs ++ e1) (Hstep _ _ _ _ _ HP Hs)).
    destruct (exec' sched c1) as [c2 e2]. simpl in *. by rewrite app_assoc.
Qed.

Lemma exec_keeps_state (P : kernel → Prop) :
  (∀ t c c' ev, P c → steps' t c c' ev → P c') →
  ∀ sched c, P c → P (exec' sched c).1.
Proof.
  intros Hstep sched c HP.
  apply (exec_keeps (λ c _, P c)) with (evs := []); [|done].
  intros. by eapply Hstep.
Qed.

Lemma holds_insert (lanes : list lane) (t : nat) (ln : lane) (t' idx : nat) :
  (t < length lanes)%nat →
  holds (<[t := ln]> lanes) t' idx ↔
  (t' = t ∧ ∃ fr, cur ln = Some fr ∧ state_idx_ (fr_gen fr) = idx) ∨
  (t' ≠ t ∧ holds lanes t' idx).
Proof.
  intros Hlt. unfold holds. destruct (decide (t' = t)) as [->|Hne].
  - rewrite list_lookup_insert_eq by done. split.
    + intros (td & fr & [= ->] & Hidx). left. simpl. eauto.
    + intros [(_ & fr & Hc & Hidx)|[? _]]; [|done].
      destruct ln as [td c0]. simpl in Hc. subst. eauto.
  - rewrite list_lookup_insert_ne by done. naive_solver.
Qed.

Lemma normal_idx (g g' : generator_type) (x : double) :
  normal draw g = (x, g') → state_idx_ g' = state_idx_ g.
Proof.
  unfold normal. destruct (draw (state_ g)). by intros [= _ <-].
Qed.

(** Exclusive use of the states is kept by every step. *)
Lemma steps_pool_inv (t : nat) (c c' : kernel) (ev : list event) :
  pool_inv acq c → steps' t c c' ev → pool_inv acq c'.
Proof.
  intros [Hlen Hlanes Hlocked Hexcl Hidx] Hs.
  destruct Hs as [_|i rest g pm Hln Hget|td i g k x g' b Hln Hk Hn Hst
                  |td i g k x g' Hln Hk Hn Hst|td i g k Hln Hk]; [done|..].
  - (* get_state *)
    apply get_state_Some in Hget as (Hl & Hs & -> & Hti).
    assert (t < length (k_lanes c))%nat as Hlt by (by eapply lookup_lt_Some).
    assert (∀ idx, ¬ holds (k_lanes c) t idx) as Hnot.
    { intros idx (td & fr & Hl2 & _). congruence. }
    assert (∀ t', ¬ holds (k_lanes c) t' (state_idx_ g)) as Hfree.
    { intros t' Hh. assert (locks_ (k_pool c) !! state_idx_ g = Some true) as Ht
        by (apply Hlocked; eauto). congruence. }
    constructor; simpl.
    + by rewrite length_insert.
    + by rewrite !length_insert.
    + intros idx. setoid_rewrite holds_insert; [|done]. simpl.
      destruct (decide (idx = state_idx_ g)) as [->|Hne].
      * rewrite list_lookup_insert_eq by (by eapply lookup_lt_Some).
        split; [|done]. intros _. exists t. left. eauto.
      * rewrite list_lookup_insert_ne by done. rewrite Hlocked.
        split.
        -- intros [t' Hh]. exists t'. right. split; [|done]. intros ->. by eapply Hnot.
        -- intros [t' [[_ (fr & [= <-] & Hfr)]|[_ Hh]]]; [done|eauto].
    + intros t1 t2 idx. rewrite !holds_insert by done. simpl.
      intros [[-> (fr1 & [= <-] & <-)]|[Hn1 Hh1]] [[-> (fr2 & [= <-] & Heq)]|[Hn2 Hh2]];
        simpl in *; try done.
      * by apply Hfree in Hh2.
      * subst. by apply Hfree in Hh1.
      * by eapply Hexcl.
    + intros Hacq t' idx. rewrite holds_insert by done. simpl.
      intros [[-> (fr & [= <-] & <-)]|[_ Hh]]; simpl; [by apply Hti|by eapply Hidx].
  - (* a store inside the extents *)
    apply normal_idx in Hn.
    assert (t < length (k_lanes c))%nat as Hlt by (by eapply lookup_lt_Some).
    assert (∀ t' idx, holds (<[t := Lane td (Some (Frame i g' (k + 1)))]> (k_lanes c)) t' idx
                      ↔ holds (k_lanes c) t' idx) as Hsame.
    { intros t' idx. rewrite holds_insert by done. simpl. split.
      - intros [[-> (fr & [= <-] & <-)]|[_ Hh]]; [|done]. simpl.
        exists td, (Frame i g k). by rewrite Hn.
      - intros Hh. destruct (decide (t' = t)) as [->|]; [|by right].
        left. split; [done|]. destruct Hh as (td2 & fr2 & Hl2 & <-).
        rewrite Hln in Hl2. injection Hl2 as <- <-. simpl. eauto. }
    constructor; simpl; try done.
    + by rewrite length_insert.
    + intros idx. setoid_rewrite Hsame. apply Hlocked.
    + intros t1 t2 idx. rewrite !Hsame. apply Hexcl.
    + intros Hacq t' idx. rewrite Hsame. by apply Hidx.
  - (* a store outside the extents *)
    apply normal_idx in Hn.
    assert (t < length (k_lanes c))%nat as Hlt by (by eapply lookup_lt_Some).
    assert (∀ t' idx, holds (<[t := Lane td (Some (Frame i g' (k + 1)))]> (k_lanes c)) t' idx
                      ↔ holds (k_lanes c) t' idx) as Hsame.
    { intros t' idx. rewrite holds_insert by done. simpl. split.
      - intros [[-> (fr & [= <-] & <-)]|[_ Hh]]; [|done]. simpl.
        exists td, (Frame i g k). by rewrite Hn.
      - intros Hh. destruct (decide (t' = t)) as [->|]; [|by right].
        left. split; [done|]. destruct Hh as (td2 & fr2 & Hl2 & <-).
        rewrite Hln in Hl2. injection Hl2 as <- <-. simpl. eauto. }
    constructor; simpl; try done.
    + by rewrite length_insert.
    + intros idx. setoid_rewrite Hsame. apply Hlocked.
    + intros t1 t2 idx. rewrite !Hsame. apply Hexcl.
    + intros Hacq t' idx. rewrite Hsame. by apply Hidx.
  - (* free_state *)
    assert (t < length (k_lanes c))%nat as Hlt by (by eapply lookup_lt_Some).
    assert (holds (k_lanes c) t (state_idx_ g)) as Hmine.
    { exists td, (Frame i g k). done. }
    constructor; simpl.
    + by rewrite !length_insert.
    + by rewrite !length_insert.
    + intros idx. setoid_rewrite holds_insert; [|done]. simpl.
      destruct (decide (idx = state_idx_ g)) as [->|Hne].
      * rewrite list_lookup_insert_eq
          by (eapply lookup_lt_Some; apply Hlocked; eauto).
        split; [done|]. intros [t' [[_ (fr & ? & _)]|[Hn Hh]]]; [done|].
        destruct Hn. by eapply Hexcl.
      * rewrite list_lookup_insert_ne by done. rewrite Hlocked. split.
        -- intros [t' Hh]. exists t'. right. split; [|done]. intros ->.
           destruct Hh as (td2 & fr2 & Hl2 & Hi2). rewrite Hln in Hl2.
           injection Hl2 as <- <-. done.
        -- intros [t' [[_ (fr & ? & _)]|[_ Hh]]]; [done|eauto].
    + intros t1 t2 idx. rewrite !holds_insert by done. simpl.
      intros [[_ (fr1 & ? & _)]|[Hn1 Hh1]] [[_ (fr2 & ? & _)]|[Hn2 Hh2]]; try done.
      by eapply Hexcl.
    + intros Hacq t' idx. rewrite holds_insert by done. simpl.
      intros [[_ (fr & ? & _)]|[_ Hh]]; [done|by eapply Hidx].
Qed.

Lemma view_store_Some (i k : Z) (x : double) (b b' : buffer) :
  view_store i k x b = Some b' →
  in_extents b i k ∧ extent0 b' = extent0 b ∧ extent1 b' = extent1 b ∧
  data b' = <[(i, k) := x]> (data b).
Proof. unfold view_store. case_decide; [|done]. by intros [= <-]. Qed.

(** A step changes the lane that takes it only, and gives no lane a row it
    did not have before it. *)
Lemma steps_lanes (t : nat) (c c' : kernel) (ev : list event) :
  steps' t c c' ev →
  ∀ t' ln', k_lanes c' !! t' = Some ln' →
    ∃ ln, k_lanes c !! t' = Some ln ∧ (t' ≠ t → ln' = ln) ∧
          (∀ i, i ∈ lane_rows ln' → i ∈ lane_rows ln).
Proof.
  intros Hs t' ln' Hl'.
  destruct Hs as [_|i rest g pm Hln Hget|td i g k x g' b Hln Hk Hn Hst
                  |td i g k x g' Hln Hk Hn Hst|td i g k Hln Hk];
    simpl in Hl'; [by eauto|..].
  all: destruct (decide (t' = t)) as [->|Hne];
    [rewrite list_lookup_insert_eq in Hl' by (by eapply lookup_lt_Some);
     injection Hl' as <-; eexists; split; [done|]; split; [done|];
     unfold lane_rows; simpl; set_solver
    |rewrite list_lookup_insert_ne in Hl' by done; eauto].
Qed.

Lemma steps_rows_apart (t : nat) (c c' : kernel) (ev : list event) :
  rows_apart c → steps' t c c' ev → rows_apart c'.
Proof.
  intros Hap Hs t1 t2 ln1 ln2 i Hne H1 H2 Hi1 Hi2.
  destruct (steps_lanes _ _ _ _ Hs _ _ H1) as (l1 & Hl1 & _ & Hsub1).
  destruct (steps_lanes _ _ _ _ Hs _ _ H2) as (l2 & Hl2 & _ & Hsub2).
  eapply (Hap t1 t2); eauto.
Qed.

Lemma steps_extents (t : nat) (c c' : kernel) (ev : list event) :
  steps' t c c' ev →
  extent0 (k_vals c') = extent0 (k_vals c) ∧ extent1 (k_vals c') = extent1 (k_vals c).
Proof.
  intros Hs.
  destruct Hs as [_|i rest g pm Hln Hget|td i g k x g' b Hln Hk Hn Hst
                  |td i g k x g' Hln Hk Hn Hst|td i g k Hln Hk]; simpl; try done.
  apply view_store_Some in Hst. tauto.
Qed.

Lemma steps_bounds_inv (t : nat) (c c' : kernel) (ev : list event) :
  bounds_inv samples c → steps' t c c' ev → bounds_inv samples c'.
Proof.
  intros [Hub Hcols Hrows Hk0] Hs.
  destruct (steps_extents _ _ _ _ Hs) as [He0 He1].
  assert (∀ t' ln' i, k_lanes c' !! t' = Some ln' → i ∈ lane_rows ln' →
                      0 ≤ i < extent0 (k_vals c')) as Hrows'.
  { intros t' ln' i Hl' Hi.
    destruct (steps_lanes _ _ _ _ Hs _ _ Hl') as (ln & Hl & _ & Hsub).
    rewrite He0. eapply Hrows; eauto. }
  destruct Hs as [_|i rest g pm Hln Hget|td i g k x g' b Hln Hk Hn Hst
                  |td i g k x g' Hln Hk Hn Hst|td i g k Hln Hk];
    [done|..].
  - constructor; simpl in *; try done.
    intros t' td fr Hl'. destruct (decide (t' = t)) as [->|Hne].
    + rewrite list_lookup_insert_eq in Hl' by (by eapply lookup_lt_Some).
      by injection Hl' as <- <-.
    + rewrite list_lookup_insert_ne in Hl' by done. eauto.
  - constructor; simpl in *; try done; [lia|].
    intros t' td' fr Hl'. destruct (decide (t' = t)) as [->|Hne].
    + rewrite list_lookup_insert_eq in Hl' by (by eapply lookup_lt_Some).
      injection Hl' as <- <-. simpl. specialize (Hk0 _ _ _ Hln). simpl in Hk0. lia.
    + rewrite list_lookup_insert_ne in Hl' by done. eauto.
  - exfalso. unfold view_store in Hst. case_decide as Hin; [done|].
    apply Hin. split.
    + eapply (Hrows t); [done|]. unfold lane_rows. simpl. set_solver.
    + specialize (Hk0 _ _ _ Hln). simpl in Hk0. lia.
  - constructor; simpl in *; try done.
    intros t' td' fr Hl'. destruct (decide (t' = t)) as [->|Hne].
    + rewrite list_lookup_insert_eq in Hl' by (by eapply lookup_lt_Some). done.
    + rewrite list_lookup_insert_ne in Hl' by done. eauto.
Qed.

(** Stored entries stay stored. *)
Lemma steps_data_mono (t : nat) (c c' : kernel) (ev : list event) (i k : Z) :
  steps' t c c' ev →
  is_Some (data (k_vals c) !! (i, k)) → is_Some (data (k_vals c') !! (i, k)).
Proof.
  intros Hs Hsome.
  destruct Hs as [_|i0 rest g pm Hln Hget|td i0 g k0 x g' b Hln Hk Hn Hst
                  |td i0 g k0 x g' Hln Hk Hn Hst|td i0 g k0 Hln Hk]; simpl; try done.
  apply view_store_Some in Hst as (_ & _ & _ & ->).
  rewrite lookup_insert. case_decide; [eauto|done].
Qed.

Lemma steps_stored_mono (t : nat) (c c' : kernel) (evs ev : list event) (i k : Z) :
  steps' t c c' ev →
  stored (k_vals c) evs i k → stored (k_vals c') (evs ++ ev) i k.
Proof.
  intros Hs [Hd (t0 & x & Hin)]. split; [by eapply steps_data_mono|].
  exists t0, x. apply elem_of_app. by left.
Qed.

Lemma steps_cover_inv (assign : list (list Z)) (t : nat) (c c' : kernel)
    (evs ev : list event) :
  bounds_inv samples c → cover_inv samples assign c evs → steps' t c c' ev →
  cover_inv samples assign c' (evs ++ ev).
Proof.
  intros Hb Hcov Hs t0 td0 i0 Has Hi0.
  destruct (Hcov t0 td0 i0 Has Hi0) as (ln & Hl & Hcase).
  assert (row_filled samples (k_vals c) evs i0 →
          row_filled samples (k_vals c') (evs ++ ev) i0) as Hfill.
  { intros Hf k Hk. eapply steps_stored_mono; eauto. }
  assert (∀ k, stored (k_vals c) evs i0 k → stored (k_vals c') (evs ++ ev) i0 k) as Hmono.
  { intros k Hk. eapply steps_stored_mono; eauto. }
  destruct (decide (t0 = t)) as [->|Hne]; cycle 1.
  { exists ln. split.
    - destruct Hs; simpl; try done; by rewrite list_lookup_insert_ne.
    - destruct Hcase as [?|[(fr & Hc & Hi & Hw)|?]]; [by left| |by right; right; auto].
      right; left. exists fr. split; [done|]. split; [done|].
      intros k1 Hk1. eapply steps_stored_mono; eauto. }
  pose proof (steps_bounds_inv _ _ _ _ Hb Hs) as Hb'.
  destruct Hs as [_|i rest g pm Hln Hget|td i g k x g' b Hln Hk Hn Hst
                  |td i g k x g' Hln Hk Hn Hst|td i g k Hln Hk].
  - rewrite app_nil_r. eauto.
  - rewrite Hln in Hl. injection Hl as <-. simpl in *.
    eexists. split; [by apply list_lookup_insert_eq; eapply lookup_lt_Some|]. simpl.
    destruct Hcase as [Hin|[(fr & ? & _)|?]]; [|done|by right; right; auto].
    apply elem_of_cons in Hin as [->|Hin]; [|by left].
    right; left. eexists. split; [done|]. split; [done|]. simpl. lia.
  - rewrite Hln in Hl. injection Hl as <-. simpl in *.
    eexists. split; [by apply list_lookup_insert_eq; eapply lookup_lt_Some|]. simpl.
    destruct Hcase as [Hin|[(fr & [= <-] & Hi & Hw)|?]]; [by left| |by right; right; auto].
    right; left. eexists. split; [done|]. simpl in *. split; [done|].
    subst i0. intros k' Hk'. destruct (decide (k' = k)) as [->|Hne].
    + apply view_store_Some in Hst as (_ & _ & _ & Hdata). split.
      * simpl. rewrite Hdata, lookup_insert_eq. eauto.
      * exists t, x. set_solver.
    + apply Hmono, Hw. lia.
  - by destruct Hb' as [? _ _ _].
  - rewrite Hln in Hl. injection Hl as <-. simpl in *.
    eexists. split; [by apply list_lookup_insert_eq; eapply lookup_lt_Some|]. simpl.
    destruct Hcase as [Hin|[(fr & [= <-] & Hi & Hw)|?]]; [by left| |by right; right; auto].
    right; right. intros k' Hk'. simpl in *.
    apply Hmono, Hw. lia.
Qed.

(** *** Every lane gets a state: the pool has a slot for each lane *)

Lemma elem_of_held (lanes : list lane) (idx : nat) :
  idx ∈ held lanes ↔ ∃ t, holds lanes t idx.
Proof.
  unfold held, holds. rewrite list_elem_of_omap. split.
  - intros ([td [fr|]] & Hin & Hf); simpl in Hf; [|done].
    injection Hf as <-. apply list_elem_of_lookup in Hin as [t Ht]. eauto.
  - intros (t & td & fr & Ht & <-). exists (Lane td (Some fr)).
    split; [|done]. by eapply list_elem_of_lookup_2.
Qed.

Lemma held_length (lanes : list lane) : (length (held lanes) ≤ length lanes)%nat.
Proof.
  unfold held. induction lanes as [|[td [fr|]] lanes IH]; csimpl; lia.
Qed.

Lemma held_length_idle (lanes : list lane) (t : nat) (td : list Z) :
  lanes !! t = Some (Lane td None) → (length (held lanes) < length lanes)%nat.
Proof.
  revert t. induction lanes as [|ln lanes IH]; intros t Ht; [done|].
  destruct t as [|t]; simpl in Ht.
  - injection Ht as ->. pose proof (held_length lanes). unfold held in *. csimpl. lia.
  - specialize (IH _ Ht). unfold held in *. destruct ln as [td' [fr|]]; csimpl; lia.
Qed.

Lemma idle_can_acquire (t : nat) (c : kernel) (td : list Z) :
  pool_inv acq c → k_lanes c !! t = Some (Lane td None) →
  can_acquire acq t (k_pool c).
Proof.
  intros [Hlen Hlanes Hlocked Hexcl Hidx] Ht. split; [done|].
  assert (t < length (k_lanes c))%nat as Hlt by (by eapply lookup_lt_Some).
  destruct acq eqn:Hacq.
  - destruct (lookup_lt_is_Some_2 (locks_ (k_pool c)) t) as [[|] Hb]; [lia| |done].
    apply Hlocked in Hb as [t' Hh]. pose proof (Hidx eq_refl _ _ Hh) as ->.
    destruct Hh as (? & ? & Hh & _). congruence.
  - destruct (decide (Exists (λ b, b = false) (locks_ (k_pool c)))) as [Hex|Hnex].
    + apply Exists_exists in Hex as (b & Hin & ->).
      apply list_elem_of_lookup in Hin as [idx Hidx']. eauto.
    + exfalso. apply not_Exists_Forall in Hnex; [|intros b; apply _].
      assert (seq 0 (length (locks_ (k_pool c))) ⊆+ held (k_lanes c)) as Hsub.
      { apply NoDup_submseteq; [apply NoDup_seq|].
        intros idx Hin. apply elem_of_seq in Hin. apply elem_of_held, Hlocked.
        destruct (lookup_lt_is_Some_2 (locks_ (k_pool c)) idx) as [b Hb]; [lia|].
        rewrite Forall_lookup in Hnex. specialize (Hnex _ _ Hb). simpl in Hnex.
        by destruct b. }
      apply submseteq_length in Hsub. rewrite length_seq in Hsub.
      pose proof (held_length_idle _ _ _ Ht). lia.
Qed.

(** *** Every step of a lane that has work left brings it one step closer to
    the end *)

Lemma remaining_idle (ln : lane) : remaining samples ln = 0%nat ↔ idle ln = true.
Proof.
  destruct ln as [[|i td] [fr|]]; unfold remaining; simpl; split; try done; lia.
Qed.

Lemma steps_lanes_insert (t : nat) (c c' : kernel) (ev : list event) (ln : lane) :
  steps' t c c' ev → k_lanes c !! t = Some ln →
  ∃ ln', k_lanes c' = <[t := ln']> (k_lanes c).
Proof.
  intros Hs Hl. destruct Hs; simpl; eauto.
  exists ln. by rewrite list_insert_id.
Qed.

Lemma lane_step_progress (t : nat) (c : kernel) (ln : lane) :
  pool_inv acq c →
  k_lanes c !! t = Some ln → idle ln = false →
  ∃ ln', k_lanes (lane_step' t c).1 = <[t := ln']> (k_lanes c) ∧
         S (remaining samples ln') = remaining samples ln.
Proof.
  intros Hp Hl Hidle. unfold lane_step. rewrite Hl.
  destruct ln as [td [[i g k]|]].
  - case_decide as Hk.
    + destruct (normal draw g) as [x g'].
      destruct (view_store i k x (k_vals c)); simpl;
        (eexists; split; [done|]); unfold remaining; simpl; lia.
    + simpl. eexists; split; [done|]. unfold remaining. simpl. lia.
  - destruct td as [|i rest]; [done|].
    destruct (can_acquire_get_state acq pick t (k_pool c)) as [[g pm] ->].
    { by eapply idle_can_acquire. }
    simpl. eexists; split; [done|]. unfold remaining. simpl. lia.
Qed.

Lemma run_lane (n t : nat) (c : kernel) (ln : lane) :
  pool_inv acq c → k_lanes c !! t = Some ln → remaining samples ln = n →
  ∃ ln', k_lanes (exec' (replicate n t) c).1 = <[t := ln']> (k_lanes c) ∧
         idle ln' = true.
Proof.
  revert c ln. induction n as [|n IH]; intros c ln Hinv Hl Hrem; simpl.
  - exists ln. split; [by rewrite list_insert_id|by apply remaining_idle].
  - assert (idle ln = false) as Hidle.
    { destruct (idle ln) eqn:E; [|done]. apply remaining_idle in E. lia. }
    destruct (lane_step_progress t c ln Hinv Hl Hidle) as (ln1 & Hl1 & Hr1).
    pose proof (lane_step_steps t c) as Hs.
    destruct (lane_step' t c) as [c1 e1]. simpl in *.
    assert (pool_inv acq c1) as Hinv1 by (by eapply steps_pool_inv).
    assert (k_lanes c1 !! t = Some ln1) as Hl1'.
    { rewrite Hl1. apply list_lookup_insert_eq. by eapply lookup_lt_Some. }
    destruct (IH c1 ln1 Hinv1 Hl1' ltac:(lia)) as (ln' & Hl' & Hi').
    destruct (exec' (replicate n t) c1) as [c2 e2]. simpl in *.
    exists ln'. split; [|done]. by rewrite Hl', Hl1, list_insert_insert_eq.
Qed.

Lemma drain_from_cons (n : nat) (ln : lane) (lanes : list lane) :
  drain_from samples n (ln :: lanes) =
  replicate (remaining samples ln) n ++ drain_from samples (S n) lanes.
Proof.
  unfold drain_from. simpl. rewrite Nat.add_0_r. f_equal. f_equal.
  apply imap_ext. intros j x _. simpl. f_equal. lia.
Qed.

Lemma drain_from_finishes (l2 l1 : list lane) (c : kernel) :
  pool_inv acq c → k_lanes c = l1 ++ l2 →
  ∃ l2', k_lanes (exec' (drain_from samples (length l1) l2) c).1 = l1 ++ l2' ∧
         forallb idle l2' = true.
Proof.
  revert l1 c. induction l2 as [|ln l2 IH]; intros l1 c Hinv Hl.
  - exists []. unfold drain_from. simpl. by rewrite Hl.
  - rewrite drain_from_cons, exec_app. simpl.
    assert (k_lanes c !! length l1 = Some ln) as Hln.
    { rewrite Hl. by rewrite list_lookup_middle. }
    destruct (run_lane _ _ c ln Hinv Hln eq_refl) as (ln' & Hl' & Hi').
    set (c1 := (exec' (replicate (remaining samples ln) (length l1)) c).1) in *.
    assert (pool_inv acq c1) as Hinv1.
    { apply (exec_keeps_state (pool_inv acq)); [|done].
      intros. by eapply steps_pool_inv. }
    assert (k_lanes c1 = (l1 ++ [ln']) ++ l2) as Hl1.
    { rewrite Hl', Hl, <- app_assoc. simpl.
      rewrite insert_app_r_alt by lia. by rewrite Nat.sub_diag. }
    destruct (IH (l1 ++ [ln']) c1 Hinv1 Hl1) as (l2' & Hfin & Hall).
    rewrite length_app in Hfin. simpl in Hfin.
    replace (length l1 + 1)%nat with (S (length l1)) in Hfin by lia.
    exists (ln' :: l2'). rewrite Hfin, <- app_assoc. simpl.
    split; [done|]. by rewrite Hi', Hall.
Qed.

Lemma drain_finishes (c : kernel) :
  pool_inv acq c → finished (exec' (drain samples c) c).1 = true.
Proof.
  intros Hinv. destruct (drain_from_finishes (k_lanes c) [] c Hinv eq_refl)
    as (l2' & Hl & Hall).
  unfold finished, drain. simpl in Hl. by rewrite Hl.
Qed.

(** *** The state a launch starts in meets all of the above *)

Lemma elem_of_concat (ls : list (list Z)) (i : Z) :
  i ∈ concat ls ↔ ∃ l, i ∈ l ∧ l ∈ ls.
Proof.
  induction ls as [|l ls IH]; simpl.
  - split; [by intros ?%elem_of_nil|]. intros (l & _ & ?%elem_of_nil). done.
  - rewrite elem_of_app, IH. setoid_rewrite elem_of_cons. naive_solver.
Qed.

Lemma start_lookup (assign : list (list Z)) (pm : pool_mem) (b : buffer) (t : nat) (ln : lane) :
  k_lanes (start assign pm b) !! t = Some ln ↔
  ∃ td, assign !! t = Some td ∧ ln = Lane td None.
Proof.
  simpl. rewrite list_lookup_fmap. destruct (assign !! t); simpl; naive_solver.
Qed.

Lemma start_holds (assign : list (list Z)) (pm : pool_mem) (b : buffer) (t idx : nat) :
  ¬ holds (k_lanes (start assign pm b)) t idx.
Proof.
  intros (td & fr & Hl & _). apply start_lookup in Hl as (? & _ & ?). done.
Qed.

Lemma start_pool_inv (assign : list (list Z)) (pm : pool_mem) (b : buffer) :
  pool_ready (length assign) pm → pool_inv acq (start assign pm b).
Proof.
  intros (Hlen & Hn & Hfree). constructor.
  - done.
  - simpl. by rewrite length_fmap.
  - intros idx. split; [by intros ?%Hfree|]. intros [t Hh]. by apply start_holds in Hh.
  - intros t1 t2 idx Hh. by apply start_holds in Hh.
  - intros _ t idx Hh. by apply start_holds in Hh.
Qed.

Lemma start_bounds_inv (assign : list (list Z)) (pm : pool_mem) (b : buffer) :
  samples ≤ extent1 b →
  (∀ i, i ∈ concat assign → 0 ≤ i < extent0 b) →
  bounds_inv samples (start assign pm b).
Proof.
  intros Hcols Hrows. constructor; try done.
  - intros t ln i Hl Hi. apply start_lookup in Hl as (td & Has & ->).
    apply Hrows. apply elem_of_concat. exists td. split; [done|].
    by eapply list_elem_of_lookup_2.
  - intros t td fr Hl. apply start_lookup in Hl as (? & _ & ?). done.
Qed.

Lemma start_cover_inv (assign : list (list Z)) (pm : pool_mem) (b : buffer) :
  cover_inv samples assign (start assign pm b) [].
Proof.
  intros t td0 i Has Hi. exists (Lane td0 None). split; [|by left].
  apply start_lookup. eauto.
Qed.

Lemma NoDup_concat_apart (assign : list (list Z)) (t1 t2 : nat) (td1 td2 : list Z) (i : Z) :
  NoDup (concat assign) → t1 ≠ t2 →
  assign !! t1 = Some td1 → assign !! t2 = Some td2 →
  i ∈ td1 → i ∈ td2 → False.
Proof.
  revert t1 t2. induction assign as [|td assign IH]; intros t1 t2 Hnd Hne H1 H2 Hi1 Hi2;
    [done|].
  simpl in Hnd. apply NoDup_app in Hnd as (_ & Hdis & Hnd).
  destruct t1 as [|t1], t2 as [|t2]; simpl in *; try done.
  - injection H1 as ->. apply (Hdis i Hi1). apply elem_of_concat.
    exists td2. split; [done|]. by eapply list_elem_of_lookup_2.
  - injection H2 as ->. apply (Hdis i Hi2). apply elem_of_concat.
    exists td1. split; [done|]. by eapply list_elem_of_lookup_2.
  - eapply (IH t1 t2); eauto.
Qed.

Lemma start_rows_apart (assign : list (list Z)) (pm : pool_mem) (b : buffer) :
  NoDup (concat assign) → rows_apart (start assign pm b).
Proof.
  intros Hnd t1 t2 ln1 ln2 i Hne H1 H2 Hi1 Hi2.
  apply start_lookup in H1 as (td1 & Ha1 & ->).
  apply start_lookup in H2 as (td2 & Ha2 & ->).
  unfold lane_rows in *. simpl in *. by eapply (NoDup_concat_apart assign t1 t2).
Qed.

(** *** A launch runs to its end *)

Lemma steps_data_from (b0 : buffer) (t : nat) (c c' : kernel) (ev : list event) :
  extent0 (k_vals c) = extent0 b0 ∧ extent1 (k_vals c) = extent1 b0 ∧ data_from samples b0 c →
  steps' t c c' ev →
  extent0 (k_vals c') = extent0 b0 ∧ extent1 (k_vals c') = extent1 b0 ∧ data_from samples b0 c'.
Proof.
  intros (He0 & He1 & Hd) Hs.
  destruct (steps_extents _ _ _ _ Hs) as [He0' He1'].
  split; [congruence|]. split; [congruence|].
  destruct Hs as [_|i0 rest g pm Hln Hget|td i0 g k0 x g' b Hln Hk Hn Hst
                  |td i0 g k0 x g' Hln Hk Hn Hst|td i0 g k0 Hln Hk]; try done.
  intros i k. simpl. apply view_store_Some in Hst as (Hin & _ & _ & ->).
  rewrite lookup_insert. case_decide as Heq; [|by apply Hd].
  injection Heq as <- <-. intros _. right. split; [|done].
  unfold in_extents in *. by rewrite <- He0, <- He1.
Qed.

Lemma stores_map_app (evs1 evs2 : list event) (d : gmap (Z * Z) double) :
  stores_map (evs1 ++ evs2) d = stores_map evs2 (stores_map evs1 d).
Proof. revert d. induction evs1 as [|e evs1 IH]; intros d; simpl; [done|apply IH]. Qed.

(** The buffer is what it was when the launch began, with the stores of
    the launch made on it in the order of the events. *)
Lemma steps_replay (d0 : gmap (Z * Z) double) (t : nat) (c c' : kernel)
    (evs ev : list event) :
  data (k_vals c) = stores_map evs d0 → steps' t c c' ev →
  data (k_vals c') = stores_map (evs ++ ev) d0.
Proof.
  intros Hd Hs. rewrite stores_map_app, <- Hd.
  destruct Hs as [_|i0 rest g pm Hln Hget|td i0 g k0 x g' b Hln Hk Hn Hst
                  |td i0 g k0 x g' Hln Hk Hn Hst|td i0 g k0 Hln Hk]; simpl; try done.
  by apply view_store_Some in Hst as (_ & _ & _ & ->).
Qed.

Lemma finished_lookup (c : kernel) (t : nat) (ln : lane) :
  finished c = true → k_lanes c !! t = Some ln → ln = Lane [] None.
Proof.
  unfold finished. rewrite forallb_forall. intros Hall Hl.
  specialize (Hall ln). rewrite <- list_elem_of_In in Hall.
  specialize (Hall (list_elem_of_lookup_2 _ _ _ Hl)).
  by destruct ln as [[|] [|]].
Qed.

(** With a pool that is ready and rows inside the extents, a launch has a
    result whatever the interleaving: the pool is ready again, and every row
    that was dealt out is filled. *)
Lemma run_kernel_complete (assign : list (list Z)) (sched : list nat)
    (pm : pool_mem) (b : buffer) :
  pool_ready (length assign) pm →
  samples ≤ extent1 b →
  (∀ i, i ∈ concat assign → 0 ≤ i < extent0 b) →
  ∃ pm' b' evs,
    run_kernel draw acq pick samples assign sched pm b = Some (pm', b', evs) ∧
    pool_ready (length assign) pm' ∧
    length (states_ pm') = length (states_ pm) ∧
    extent0 b' = extent0 b ∧ extent1 b' = extent1 b ∧
    (∀ i, i ∈ concat assign → row_filled samples b' evs i) ∧
    data b' = stores_map evs (data b) ∧
    (∀ i k, is_Some (data b' !! (i, k)) →
            is_Some (data b !! (i, k)) ∨ (in_extents b i k ∧ k < samples)).
Proof.
  intros Hready Hcols Hrows. unfold run_kernel.
  set (c0 := start assign pm b).
  set (I := λ (c : kernel) (evs : list event),
         pool_inv acq c ∧ bounds_inv samples c ∧ cover_inv samples assign c evs ∧
         data (k_vals c) = stores_map evs (data b) ∧
         length (k_lanes c) = length assign ∧
         length (states_ (k_pool c)) = length (states_ pm) ∧
         (extent0 (k_vals c) = extent0 b ∧ extent1 (k_vals c) = extent1 b ∧
          data_from samples b c)).
  assert (∀ t c c' evs ev, I c evs → steps' t c c' ev → I c' (evs ++ ev)) as Hkeep.
  { intros t c c' evs ev (Hp & Hb & Hc & Hr & Hl & Hst & Hd) Hs.
    split; [by eapply steps_pool_inv|].
    split; [by eapply steps_bounds_inv|].
    split; [by eapply steps_cover_inv|].
    split; [by eapply steps_replay|].
    split; [|split; [|by eapply steps_data_from]].
    - rewrite <- Hl. destruct Hs; simpl; try done; by rewrite length_insert.
    - rewrite <- Hst. destruct Hs as [| ? ? ? ? ? Hget| | |]; simpl; try done.
      + by apply get_state_Some in Hget as (_ & _ & -> & _).
      + by rewrite length_insert. }
  assert (I c0 []) as H0.
  { split; [by apply start_pool_inv|].
    split; [by apply start_bounds_inv|].
    split; [apply start_cover_inv|].
    split; [done|].
    split; [subst c0; simpl; by rewrite length_fmap|].
    split; [done|]. split; [done|]. split; [done|].
    intros i k. by left. }
  pose proof (exec_keeps I Hkeep sched c0 [] H0) as H1.
  destruct (exec' sched c0) as [c1 ev1]. simpl in H1.
  pose proof (exec_keeps I Hkeep (drain samples c1) c1 ev1 H1) as H2.
  pose proof (drain_finishes c1 (proj1 H1)) as Hfin.
  destruct (exec' (drain samples c1) c1) as [c2 ev2]. simpl in *.
  destruct H2 as (Hp & Hb & Hc & Hr & Hl & Hst & He0 & He1 & Hd).
  rewrite Hfin. destruct Hb as [-> _ _ _]. simpl.
  eexists _, _, _. split; [done|].
  assert (∀ t idx, ¬ holds (k_lanes c2) t idx) as Hnone.
  { intros t idx (td & fr & Hln & _).
    by pose proof (finished_lookup _ _ _ Hfin Hln). }
  destruct Hp as [Hlen Hlanes Hlocked _ _].
  split.
  { split; [done|]. split; [by rewrite <- Hl|].
    intros idx Hidx. apply Hlocked in Hidx as [t Hh]. by eapply Hnone. }
  split; [done|]. split; [done|]. split; [done|]. split; [|split; [done|exact Hd]].
  - intros i Hi. apply elem_of_concat in Hi as (td & Hi & Htd).
    apply list_elem_of_lookup in Htd as [t Ht].
    destruct (Hc t td i Ht Hi) as (ln & Hln & Hcase).
    pose proof (finished_lookup _ _ _ Hfin Hln) as ->. simpl in Hcase.
    destruct Hcase as [Hin|[(fr & ? & _)|?]]; [by apply elem_of_nil in Hin|done|done].
Qed.

Lemma NoDup_list_prod (l1 l2 : list Z) :
  NoDup l1 → NoDup l2 → NoDup (list_prod l1 l2).
Proof.
  intros H1 H2. induction H1 as [|a l1 Ha H1 IH]; simpl; [constructor|].
  apply NoDup_app. split; [|split; [|done]].
  - by apply (NoDup_fmap_2 (pair a)).
  - intros [x y] Hin Hin2.
    apply list_elem_of_In, in_map_iff in Hin as (y' & [= <- <-] & _).
    apply list_elem_of_In, in_prod_iff in Hin2 as [Hin2 _].
    by apply list_elem_of_In in Hin2.
Qed.

(** C5. A launch over [rows > 0] rows with [samples > 0], on a buffer of
    these extents in which no entry has been written yet, has a result
    whatever the interleaving; in the result every entry [(i, k)] with
    [0 <= i < rows] and [0 <= k < samples] has been stored to by the launch
    and holds a value, no other entry does, and the buffer has exactly
    [rows * samples] entries. *)
Theorem parallel_fill_covers (rows : Z) (assign : list (list Z)) (sched : list nat)
    (pm : pool_mem) :
  0 < rows → 0 < samples →
  pool_ready (length assign) pm →
  concat assign ≡ₚ seqZ 0 rows →
  ∃ pm' b' evs,
    run_kernel draw acq pick samples assign sched pm (Buffer rows samples ∅)
      = Some (pm', b', evs) ∧
    (∀ i k, 0 ≤ i < rows → 0 ≤ k < samples →
       is_Some (data b' !! (i, k)) ∧ ∃ t x, Event t i (OpStore i k x) ∈ evs) ∧
    (∀ i k, is_Some (data b' !! (i, k)) → 0 ≤ i < rows ∧ 0 ≤ k < samples) ∧
    size (data b') = Z.to_nat (rows * samples).
Proof.
  intros Hrows Hsamples Hready Hperm.
  assert (∀ i, i ∈ concat assign ↔ 0 ≤ i < rows) as Hin.
  { intros i. rewrite Hperm, elem_of_seqZ. lia. }
  destruct (run_kernel_complete assign sched pm (Buffer rows samples ∅) Hready)
    as (pm' & b' & evs & Hrun & _ & _ & He0 & He1 & Hfilled & _ & Hfrom); simpl in *.
  { lia. } { intros i Hi. by apply Hin. }
  exists pm', b', evs. split; [done|].
  assert (∀ i k, 0 ≤ i < rows → 0 ≤ k < samples →
            is_Some (data b' !! (i, k)) ∧ ∃ t x, Event t i (OpStore i k x) ∈ evs) as Hall.
  { intros i k Hi Hk. apply Hfilled; [by apply Hin|done]. }
  assert (∀ i k, is_Some (data b' !! (i, k)) → 0 ≤ i < rows ∧ 0 ≤ k < samples) as Honly.
  { intros i k Hs. destruct (Hfrom i k Hs) as [Hemp|[[? ?] ?]]; [|done].
    rewrite lookup_empty in Hemp. by destruct Hemp. }
  split; [done|]. split; [done|].
  assert (dom (data b') =
          list_to_set (C := gset (Z * Z)) (list_prod (seqZ 0 rows) (seqZ 0 samples))) as Hdom.
  { apply set_eq. intros [i k].
    rewrite elem_of_dom, elem_of_list_to_set, list_elem_of_In, in_prod_iff,
      <- !list_elem_of_In, !elem_of_seqZ.
    split; [intros ?%Honly; lia|]. intros [? ?]. apply Hall; lia. }
  rewrite <- size_dom, Hdom, size_list_to_set
    by (apply NoDup_list_prod; apply NoDup_seqZ).
  rewrite length_prod, !length_seqZ. lia.
Qed.

(** C3. Acquire and release are paired inside every invocation, and a state
    is with one lane at a time.
    - An invocation of [operator()] that completes has called [get_state]
      first, once, for a slot that was free, and [free_state] last, once, for
      the same slot, which is free again; all its stores lie in between.
    - At every moment of a launch that starts with a ready pool, under every
      interleaving, two lanes that hold the state of the same slot are the
      same lane, and the slot of a state that is held is locked.
    - When a launch is complete no slot is locked any more. *)
Theorem states_paired_and_exclusive (assign : list (list Z)) (pm : pool_mem) (b : buffer) :
  pool_ready (length assign) pm →
  (∀ t i pm0 b0 pm' b' ops,
     call_operator draw acq pick samples t i pm0 b0 = Some (pm', b', ops) →
     ∃ idx body,
       ops = OpGetState idx :: body ++ [OpFreeState idx] ∧
       count is_get_state body = 0%nat ∧ count is_free_state body = 0%nat ∧
       locks_ pm0 !! idx = Some false ∧ locks_ pm' !! idx = Some false) ∧
  (∀ sched t1 t2 idx,
     holds (k_lanes (exec' sched (start assign pm b)).1) t1 idx →
     holds (k_lanes (exec' sched (start assign pm b)).1) t2 idx →
     t1 = t2) ∧
  (∀ sched t idx,
     holds (k_lanes (exec' sched (start assign pm b)).1) t idx →
     locks_ (k_pool (exec' sched (start assign pm b)).1) !! idx = Some true) ∧
  (∀ sched pm' b' evs,
     run_kernel draw acq pick samples assign sched pm b = Some (pm', b', evs) →
     ∀ idx, locks_ pm' !! idx ≠ Some true).
Proof.
  intros Hready.
  assert (∀ sched, pool_inv acq (exec' sched (start assign pm b)).1) as Hinv.
  { intros sched. apply (exec_keeps_state (pool_inv acq)).
    - intros. by eapply steps_pool_inv.
    - by apply start_pool_inv. }
  split; [|split; [|split]].
  - intros t i pm0 b0 pm' b' ops Hcall. by eapply call_operator_paired.
  - intros sched t1 t2 idx. apply (Hinv sched).
  - intros sched t idx Hh. apply (Hinv sched). eauto.
  - intros sched pm' b' evs. unfold run_kernel.
    specialize (Hinv sched).
    destruct (exec' sched (start assign pm b)) as [c1 ev1]. simpl in Hinv.
    pose proof (exec_keeps_state (pool_inv acq)
                  (λ t c c' ev Hp Hs, steps_pool_inv t c c' ev Hp Hs)
                  (drain samples c1) c1 Hinv) as Hinv2.
    destruct (exec' (drain samples c1) c1) as [c2 ev2]. simpl in *.
    destruct (finished c2) eqn:Hfin; [|done].
    destruct (negb (k_ub c2)); [|done]. simpl. intros [= <- <- <-] idx Hidx.
    apply Hinv2 in Hidx as (t & td & fr & Hln & _).
    by pose proof (finished_lookup _ _ _ Hfin Hln).
Qed.

End Launch.

(** * Launches on a thread-indexed pool do not depend on the interleaving *)

Section Indexed.
Context `{PF : Platform}.
Variable draw : gstate → double * gstate.
Variable pick : nat → list nat → nat.
Variable samples : Z.

Local Abbreviation lane_step' := (lane_step draw ThreadIndexed pick samples).
Local Abbreviation exec' := (exec draw ThreadIndexed pick samples).
Local Abbreviation steps' := (steps draw ThreadIndexed pick samples).
Local Abbreviation by_footprint := (lane_step_by_footprint draw samples).

Lemma get_state_indexed (t : nat) (pm : pool_mem) :
  get_state ThreadIndexed pick t pm =
  match states_ pm !! t, locks_ pm !! t with
  | Some s, Some false =>
      Some (Generator s t, PoolMem (states_ pm) (<[t := true]> (locks_ pm)))
  | _, _ => None
  end.
Proof.
  unfold get_state. simpl. destruct (states_ pm !! t); simpl; [|done].
  by destruct (locks_ pm !! t) as [[|]|].
Qed.

Lemma lane_step_local (t : nat) (c : kernel) :
  pool_inv ThreadIndexed c → lane_step' t c = by_footprint t c.
Proof.
  intros Hp. unfold lane_step, lane_step_by_footprint.
  destruct (k_lanes c !! t) as [[td [[i g k]|]]|] eqn:Hln; [| |done].
  - assert (state_idx_ g = t) as Hidx.
    { eapply (pi_indexed _ _ Hp eq_refl). by exists td, (Frame i g k). }
    simpl. case_decide as Hk.
    + destruct (normal draw g) as [x g'].
      unfold view_store, in_extents. case_decide.
      * unfold apply_eff. simpl. by destruct c as [? [] ? ?].
      * unfold apply_eff. simpl. by destruct c.
    + unfold apply_eff, free_state. simpl. rewrite Hidx. by destruct c.
  - simpl. destruct td as [|i rest]; [done|].
    rewrite get_state_indexed.
    destruct (states_ (k_pool c) !! t) as [s|]; [|done].
    by destruct (locks_ (k_pool c) !! t) as [[|]|].
Qed.

Lemma pool_apply_other (t t' : nat) (pe : pool_eff) (pm : pool_mem) :
  t ≠ t' →
  states_ (pool_apply t pe pm) !! t' = states_ pm !! t' ∧
  locks_ (pool_apply t pe pm) !! t' = locks_ pm !! t'.
Proof.
  intros Hne. destruct pe; simpl; rewrite ?list_lookup_insert_ne by done; done.
Qed.

Lemma pool_apply_comm (t t' : nat) (pe pe' : pool_eff) (pm : pool_mem) :
  t ≠ t' →
  pool_apply t pe (pool_apply t' pe' pm) = pool_apply t' pe' (pool_apply t pe pm).
Proof.
  intros Hne. destruct pe, pe'; simpl; try done; f_equal;
    by apply list_insert_insert_ne.
Qed.

Lemma vals_apply_extents (ve : vals_eff) (b : buffer) :
  extent0 (vals_apply ve b) = extent0 b ∧ extent1 (vals_apply ve b) = extent1 b.
Proof. by destruct ve. Qed.

Lemma vals_apply_comm (ve ve' : vals_eff) (b : buffer) :
  (∀ i, stores_to ve i → stores_to ve' i → False) →
  vals_apply ve (vals_apply ve' b) = vals_apply ve' (vals_apply ve b).
Proof.
  intros Hne. destruct ve as [|i k x], ve' as [|i' k' x']; simpl; try done.
  f_equal. apply insert_insert_ne. intros [= -> ->]. by apply (Hne i').
Qed.

Lemma local_step_stores (t : nat) (ln : lane) s l e0 e1 (e : effect) ev (i : Z) :
  local_step draw samples t ln s l e0 e1 = Some (e, ev) →
  stores_to (eff_vals e) i → i ∈ lane_rows ln.
Proof.
  destruct ln as [td [[i0 g k]|]]; simpl.
  - case_decide; [|by intros [= <- <-]].
    destruct (normal draw g) as [x g']. case_decide; intros [= <- <-]; simpl; [|done].
    intros ->. unfold lane_rows. simpl. set_solver.
  - destruct td as [|? ?]; [done|]. destruct s; [|done].
    destruct l as [[|]|]; try done. by intros [= <- <-].
Qed.

(** Steps of different lanes can be swapped. *)
Lemma by_footprint_comm (t1 t2 : nat) (c : kernel) :
  t1 ≠ t2 → rows_apart c →
  (by_footprint t2 (by_footprint t1 c).1).1 = (by_footprint t1 (by_footprint t2 c).1).1.
Proof.
  intros Hne Hap.
  assert (∀ ta tb ea, ta ≠ tb →
            by_footprint tb (apply_eff ta ea c) =
            match k_lanes c !! tb with
            | None => (apply_eff ta ea c, [])
            | Some ln =>
                match local_step draw samples tb ln (states_ (k_pool c) !! tb)
                        (locks_ (k_pool c) !! tb)
                        (extent0 (k_vals c)) (extent1 (k_vals c)) with
                | None => (apply_eff ta ea c, [])
                | Some (e, ev) => (apply_eff tb e (apply_eff ta ea c), ev)
                end
            end) as Hafter.
  { intros ta tb ea Hab. unfold lane_step_by_footprint. simpl.
    rewrite list_lookup_insert_ne by done.
    destruct (pool_apply_other ta tb (eff_pool ea) (k_pool c) Hab) as [-> ->].
    destruct (vals_apply_extents (eff_vals ea) (k_vals c)) as [-> ->]. done. }
  unfold lane_step_by_footprint at 2 4.
  destruct (k_lanes c !! t1) as [ln1|] eqn:Hl1, (k_lanes c !! t2) as [ln2|] eqn:Hl2.
  - destruct (local_step draw samples t1 ln1 _ _ _ _) as [[e1 ev1]|] eqn:E1,
             (local_step draw samples t2 ln2 _ _ _ _) as [[e2 ev2]|] eqn:E2; simpl.
    + rewrite !Hafter by done. rewrite Hl1, Hl2, E1, E2. simpl.
      unfold apply_eff. simpl. f_equal.
      * by apply pool_apply_comm.
      * apply vals_apply_comm. intros i H2 H1.
        eapply (Hap t1 t2 ln1 ln2 i); eauto using local_step_stores.
      * by apply list_insert_insert_ne.
      * by destruct (eff_ub e1), (eff_ub e2).
    + rewrite Hafter by done. rewrite Hl2, E2. simpl.
      unfold lane_step_by_footprint. by rewrite Hl1, E1.
    + rewrite Hafter by done. rewrite Hl1, E1. simpl.
      unfold lane_step_by_footprint. by rewrite Hl2, E2.
    + unfold lane_step_by_footprint. by rewrite Hl1, Hl2, E1, E2.
  - destruct (local_step draw samples t1 ln1 _ _ _ _) as [[e1 ev1]|] eqn:E1; simpl.
    + rewrite Hafter by done. rewrite Hl2. simpl.
      unfold lane_step_by_footprint. by rewrite Hl1, E1.
    + unfold lane_step_by_footprint. by rewrite Hl1, Hl2, E1.
  - destruct (local_step draw samples t2 ln2 _ _ _ _) as [[e2 ev2]|] eqn:E2; simpl.
    + rewrite Hafter by done. rewrite Hl1. simpl.
      unfold lane_step_by_footprint. by rewrite Hl2, E2.
    + unfold lane_step_by_footprint. by rewrite Hl1, Hl2, E2.
  - simpl. unfold lane_step_by_footprint. by rewrite Hl1, Hl2.
Qed.

Lemma lane_step_indexed_inv (t : nat) (c : kernel) :
  indexed_inv c → indexed_inv (lane_step' t c).1.
Proof.
  intros [Hp Hap]. pose proof (lane_step_steps draw ThreadIndexed pick samples t c) as Hs.
  split; [by eapply steps_pool_inv|eapply steps_rows_apart; eauto].
Qed.

Lemma exec_indexed_inv (sched : list nat) (c : kernel) :
  indexed_inv c → indexed_inv (exec' sched c).1.
Proof.
  revert c. induction sched as [|t sched IH]; intros c Hinv; simpl; [done|].
  pose proof (lane_step_indexed_inv t c Hinv) as H1.
  destruct (lane_step' t c) as [c1 e1]. specialize (IH c1 H1).
  by destruct (exec' sched c1).
Qed.

Lemma lane_step_comm (t1 t2 : nat) (c : kernel) :
  indexed_inv c →
  (lane_step' t2 (lane_step' t1 c).1).1 = (lane_step' t1 (lane_step' t2 c).1).1.
Proof.
  intros Hinv. destruct (decide (t1 = t2)) as [->|Hne]; [done|].
  pose proof (lane_step_indexed_inv t1 c Hinv) as [H1 _].
  pose proof (lane_step_indexed_inv t2 c Hinv) as [H2 _].
  destruct Hinv as [Hp Hap].
  rewrite (lane_step_local t2 _ H1), (lane_step_local t1 _ H2).
  rewrite !(lane_step_local _ c Hp). by apply by_footprint_comm.
Qed.

Lemma exec_cons (t : nat) (sched : list nat) (c : kernel) :
  (exec' (t :: sched) c).1 = (exec' sched (lane_step' t c).1).1.
Proof.
  change ((let '(c1, ev1) := lane_step' t c in
           let '(c2, ev2) := exec' sched c1 in (c2, ev1 ++ ev2)).1 =
          (exec' sched (lane_step' t c).1).1).
  destruct (lane_step' t c) as [c1 e1]. cbv beta iota zeta.
  change ((c1, e1).1) with c1. by destruct (exec' sched c1).
Qed.

(** The kernel an interleaving leads to depends only on how many steps'
    each lane takes. *)
Lemma exec_perm (s1 s2 : list nat) (c : kernel) :
  s1 ≡ₚ s2 → indexed_inv c → (exec' s1 c).1 = (exec' s2 c).1.
Proof.
  intros Hperm. revert c.
  induction Hperm as [|t s1 s2 _ IH|t1 t2 s|s1 s2 s3 _ IH1 _ IH2]; intros c Hinv.
  - done.
  - rewrite !exec_cons. apply IH. by apply lane_step_indexed_inv.
  - rewrite !exec_cons. by rewrite lane_step_comm.
  - rewrite IH1 by done. by apply IH2.
Qed.

Lemma drain_from_step (lanes : list lane) (n j : nat) (ln ln' : lane) :
  lanes !! j = Some ln →
  S (remaining samples ln') = remaining samples ln →
  (n + j)%nat :: drain_from samples n (<[j := ln']> lanes) ≡ₚ drain_from samples n lanes.
Proof.
  revert n j. induction lanes as [|l lanes IH]; intros n j Hl Hrem; [done|].
  destruct j as [|j]; simpl in *.
  - injection Hl as ->. rewrite !drain_from_cons, <- Hrem, Nat.add_0_r. done.
  - rewrite !drain_from_cons. rewrite <- (IH (S n) j Hl Hrem).
    replace (n + S j)%nat with (S n + j)%nat by lia.
    by rewrite Permutation_middle.
Qed.

Lemma lane_step_idle (t : nat) (c : kernel) :
  (∀ ln, k_lanes c !! t = Some ln → idle ln = true) → lane_step' t c = (c, []).
Proof.
  intros Hidle. unfold lane_step.
  destruct (k_lanes c !! t) as [ln|]; [|done].
  specialize (Hidle ln eq_refl). by destruct ln as [[|] [|]].
Qed.

(** A step taken before the fence is a step the fence does not have to
    take. *)
Lemma drain_absorbs (t : nat) (c : kernel) :
  indexed_inv c →
  (exec' (drain samples (lane_step' t c).1) (lane_step' t c).1).1 =
  (exec' (drain samples c) c).1.
Proof.
  intros Hinv.
  destruct (k_lanes c !! t) as [ln|] eqn:Hl; cycle 1.
  { rewrite lane_step_idle; [done|]. intros ln ?. congruence. }
  destruct (idle ln) eqn:Hidle.
  { rewrite lane_step_idle; [done|]. intros ln' ?. congruence. }
  destruct (lane_step_progress draw ThreadIndexed pick samples t c ln
              (proj1 Hinv) Hl Hidle) as (ln' & Hl' & Hrem).
  rewrite <- exec_cons. apply exec_perm; [|done].
  unfold drain. rewrite Hl'. by apply (drain_from_step _ 0%nat t ln ln').
Qed.

(** Whatever the interleaving before the fence, the launch ends where it
    ends when the lanes run one after the other. *)
Lemma drain_any_sched (sched : list nat) (c : kernel) :
  indexed_inv c →
  (exec' (drain samples (exec' sched c).1) (exec' sched c).1).1 =
  (exec' (drain samples c) c).1.
Proof.
  revert c. induction sched as [|t sched IH]; intros c Hinv; [done|].
  rewrite exec_cons, IH by (by apply lane_step_indexed_inv).
  by apply drain_absorbs.
Qed.

Lemma lane_step_pick (pick' : nat → list nat → nat) (t : nat) (c : kernel) :
  lane_step' t c = lane_step draw ThreadIndexed pick' samples t c.
Proof.
  unfold lane_step. by destruct (k_lanes c !! t) as [[td [fr|]]|].
Qed.

Lemma exec_pick (pick' : nat → list nat → nat) (sched : list nat) (c : kernel) :
  exec' sched c = exec draw ThreadIndexed pick' samples sched c.
Proof.
  revert c. induction sched as [|t sched IH]; intros c; [done|].
  change (exec' (t :: sched) c) with
    (let '(c1, ev1) := lane_step' t c in
     let '(c2, ev2) := exec' sched c1 in (c2, ev1 ++ ev2)).
  change (exec draw ThreadIndexed pick' samples (t :: sched) c) with
    (let '(c1, ev1) := lane_step draw ThreadIndexed pick' samples t c in
     let '(c2, ev2) := exec draw ThreadIndexed pick' samples sched c1 in
     (c2, ev1 ++ ev2)).
  replace (lane_step draw ThreadIndexed pick' samples t c)
    with (lane_step' t c) by apply lane_step_pick.
  destruct (lane_step' t c) as [c1 e1]. by rewrite IH.
Qed.

Lemma run_kernel_result (assign : list (list Z)) (sched : list nat)
    (pm : pool_mem) (b : buffer) :
  (λ r, r.1) <$> run_kernel draw ThreadIndexed pick samples assign sched pm b =
  let c1 := (exec' sched (start assign pm b)).1 in
  let c2 := (exec' (drain samples c1) c1).1 in
  if finished c2 && negb (k_ub c2) then Some (k_pool c2, k_vals c2) else None.
Proof.
  unfold run_kernel. destruct (exec' sched (start assign pm b)) as [c1 ev1].
  cbv zeta. change ((c1, ev1).1) with c1.
  destruct (exec' (drain samples c1) c1) as [c2 ev2].
  change ((c2, ev2).1) with c2. by destruct (finished c2 && negb (k_ub c2)).
Qed.

(** The pool and the buffer a launch leaves are those of the launch in which
    the lanes run one after the other, for every interleaving. *)
Lemma run_kernel_any_sched (assign : list (list Z)) (sched : list nat)
    (pm : pool_mem) (b : buffer) :
  pool_ready (length assign) pm → NoDup (concat assign) →
  (λ r, r.1) <$> run_kernel draw ThreadIndexed pick samples assign sched pm b =
  (λ r, r.1) <$> run_kernel draw ThreadIndexed pick samples assign [] pm b.
Proof.
  intros Hready Hnd.
  assert (indexed_inv (start assign pm b)) as Hinv.
  { split; [by apply start_pool_inv|by apply start_rows_apart]. }
  rewrite !run_kernel_result. cbv zeta.
  by rewrite (drain_any_sched sched _ Hinv).
Qed.

Lemma run_kernel_pick (pick' : nat → list nat → nat) (assign : list (list Z))
    (sched : list nat) (pm : pool_mem) (b : buffer) :
  run_kernel draw ThreadIndexed pick samples assign sched pm b =
  run_kernel draw ThreadIndexed pick' samples assign sched pm b.
Proof.
  unfold run_kernel. rewrite <- (exec_pick pick' sched).
  destruct (exec' sched (start assign pm b)) as [c1 ev1].
  by rewrite <- (exec_pick pick' (drain samples c1)).
Qed.

End Indexed.

Section Determinism.
Context `{PF : Platform}.

Lemma new_pool_mem_ready (wd : width) (seed : Z) :
  pool_ready concurrency (new_pool_mem wd seed).
Proof.
  unfold new_pool_mem, pool_ready. simpl.
  rewrite length_fmap, length_seq, length_replicate. split; [done|]. split; [done|].
  intros idx Hidx. apply lookup_replicate in Hidx as [? _]. done.
Qed.

(** C6. Two runs of the fill on a thread-indexed pool (no contention for
    the states), with the same dealing of the indices to the lanes and pools
    constructed from the same seed, both complete and leave the same buffer
    and the same pool, whatever the two interleavings of the lanes are. *)
Theorem fixed_partition_deterministic (wd : width) (seed samples rows : Z)
    (assign : list (list Z)) (b : buffer)
    (sched1 sched2 : list nat) (pick1 pick2 : nat → list nat → nat) :
  length assign = concurrency →
  concat assign ≡ₚ seqZ 0 rows →
  rows ≤ extent0 b → samples ≤ extent1 b →
  ∃ pm' b' evs1 evs2,
    run_kernel (draw_of wd) ThreadIndexed pick1 samples assign sched1
      (new_pool_mem wd seed) b = Some (pm', b', evs1) ∧
    run_kernel (draw_of wd) ThreadIndexed pick2 samples assign sched2
      (new_pool_mem wd seed) b = Some (pm', b', evs2).
Proof.
  intros Hlen Hperm Hrows Hcols.
  assert (pool_ready (length assign) (new_pool_mem wd seed)) as Hready.
  { rewrite Hlen. apply new_pool_mem_ready. }
  assert (NoDup (concat assign)) as Hnd.
  { rewrite Hperm. apply NoDup_seqZ. }
  assert (∀ i, i ∈ concat assign → 0 ≤ i < extent0 b) as Hin.
  { intros i. rewrite Hperm, elem_of_seqZ. lia. }
  destruct (run_kernel_complete (draw_of wd) ThreadIndexed pick1 samples assign sched1
              _ b Hready Hcols Hin) as (pm1 & b1 & evs1 & Hrun1 & _).
  destruct (run_kernel_complete (draw_of wd) ThreadIndexed pick1 samples assign sched2
              _ b Hready Hcols Hin) as (pm2 & b2 & evs2 & Hrun2 & _).
  pose proof (run_kernel_any_sched (draw_of wd) pick1 samples assign sched1 _ b Hready Hnd)
    as Heq1.
  pose proof (run_kernel_any_sched (draw_of wd) pick1 samples assign sched2 _ b Hready Hnd)
    as Heq2.
  rewrite <- Heq2, Hrun1, Hrun2 in Heq1. simpl in Heq1. injection Heq1 as <- <-.
  exists pm1, b1, evs1, evs2. split; [done|].
  by rewrite <- (run_kernel_pick (draw_of wd) pick1 samples pick2).
Qed.

End Determinism.

(** * A launch and the loops without interleaving *)

Section Serial.
Context `{PF : Platform}.
Variable draw : gstate → double * gstate.
Variable acq : acquisition.
Variable pick : nat → list nat → nat.
Variable samples : Z.

Local Abbreviation lane_step' := (lane_step draw acq pick samples).
Local Abbreviation exec' := (exec draw acq pick samples).
Local Abbreviation run_rows' := (run_rows draw acq pick samples).
Local Abbreviation run_serial' := (run_serial draw acq pick samples).

Lemma exec_app_fst (s1 s2 : list nat) (c : kernel) :
  (exec' (s1 ++ s2) c).1 = (exec' s2 (exec' s1 c).1).1.
Proof. by rewrite exec_app. Qed.

Lemma rows_by_steps (t : nat) (td : list Z) (c : kernel) pm' b' :
  k_lanes c !! t = Some (Lane td None) →
  run_rows' t td (k_pool c) (k_vals c) = Some (pm', b') →
  (exec' (replicate (length td * (Z.to_nat samples + 2)) t) c).1 =
  Kernel pm' b' (<[t := Lane [] None]> (k_lanes c)) (k_ub c).
Proof.
  revert c. induction td as [|i rest IH]; intros c Hl Hrun; simpl in *.
  - injection Hrun as <- <-. rewrite list_insert_id by done. by destruct c.
  - destruct (call_operator draw acq pick samples t i (k_pool c) (k_vals c))
      as [[[pm1 b1] ops]|] eqn:Hcall; [|done]. simpl in Hrun.
    rewrite replicate_add, exec_app_fst.
    rewrite (call_operator_by_steps draw acq pick samples t i rest c pm1 b1 ops Hl Hcall).
    cbn [fst]. rewrite (IH _ ); cbn [k_lanes k_pool k_vals k_ub].
    + by rewrite list_insert_insert_eq.
    + apply list_lookup_insert_eq. by eapply lookup_lt_Some.
    + done.
Qed.

Lemma serial_by_steps (assign : list (list Z)) (l1 : list lane) (c : kernel) pm' b' :
  k_lanes c = l1 ++ ((λ td, Lane td None) <$> assign) →
  run_serial' (length l1) assign (k_pool c) (k_vals c) = Some (pm', b') →
  (exec' (drain_from samples (length l1) ((λ td, Lane td None) <$> assign)) c).1 =
  Kernel pm' b' (l1 ++ replicate (length assign) (Lane [] None)) (k_ub c).
Proof.
  revert l1 c. induction assign as [|td rest IH]; intros l1 c Hl Hrun; simpl in *.
  - injection Hrun as <- <-. unfold drain_from. simpl.
    rewrite app_nil_r in *. rewrite <- Hl. by destruct c.
  - destruct (run_rows' (length l1) td (k_pool c) (k_vals c)) as [[pm1 b1]|] eqn:Hrows;
      [|done]. simpl in Hrun.
    rewrite drain_from_cons, exec_app_fst.
    assert (k_lanes c !! length l1 = Some (Lane td None)) as Hln.
    { rewrite Hl. by rewrite list_lookup_middle. }
    unfold remaining at 1. cbn [cur todo]. rewrite Nat.add_0_l.
    rewrite (rows_by_steps _ td c pm1 b1 Hln Hrows).
    specialize (IH (l1 ++ [Lane [] None])
                  (Kernel pm1 b1 (<[length l1 := Lane [] None]> (k_lanes c)) (k_ub c))).
    rewrite length_app in IH. simpl in IH.
    replace (length l1 + 1)%nat with (S (length l1)) in IH by lia.
    etrans; [apply IH|].
    + cbn [k_lanes]. rewrite Hl, <- app_assoc. simpl.
      rewrite insert_app_r_alt by lia. by rewrite Nat.sub_diag.
    + done.
    + by rewrite <- app_assoc.
Qed.

Lemma run_kernel_serial (assign : list (list Z)) (pm : pool_mem) (b : buffer) pm' b' :
  run_serial' 0 assign pm b = Some (pm', b') →
  (λ r, r.1) <$> run_kernel draw acq pick samples assign [] pm b = Some (pm', b').
Proof.
  intros Hrun. unfold run_kernel. simpl.
  pose proof (serial_by_steps assign [] (start assign pm b) pm' b' eq_refl Hrun) as Hex.
  unfold drain. simpl in *.
  destruct (exec' _ _) as [c2 ev2]. simpl in Hex. subst c2. simpl.
  assert (finished (Kernel pm' b' (replicate (length assign) (Lane [] None)) false) = true)
    as ->; [|done].
  unfold finished. simpl. apply forallb_forall. intros ln Hin.
  apply list_elem_of_In, elem_of_replicate in Hin as [-> _]. done.
Qed.

End Serial.

Section Serial_indexed.
Context `{PF : Platform}.
Variable draw : gstate → double * gstate.
Variable pick : nat → list nat → nat.
Variable samples : Z.

Local Abbreviation run_rows' := (run_rows draw ThreadIndexed pick samples).
Local Abbreviation run_serial' := (run_serial draw ThreadIndexed pick samples).
Local Abbreviation per := (Z.to_nat samples).

Lemma draw_seq_add (n m : nat) (s : gstate) :
  draw_seq draw (n + m) s =
  ((draw_seq draw n s).1 ++ (draw_seq draw m (draw_seq draw n s).2).1,
   (draw_seq draw m (draw_seq draw n s).2).2).
Proof.
  revert s. induction n as [|n IH]; intros s; simpl.
  - by destruct (draw_seq draw m s).
  - destruct (draw s) as [x s1]. rewrite IH.
    destruct (draw_seq draw n s1) as [xs s2]. simpl.
    by destruct (draw_seq draw m s2).
Qed.

(** One invocation by lane [t] on a thread-indexed pool. *)
Lemma call_operator_indexed (t : nat) (i : Z) (pm : pool_mem) (b : buffer) (s0 : gstate) :
  length (states_ pm) = length (locks_ pm) →
  locks_ pm !! t = Some false → states_ pm !! t = Some s0 →
  0 ≤ i < extent0 b → samples ≤ extent1 b →
  ∃ ops,
    call_operator draw ThreadIndexed pick samples t i pm b =
    Some (PoolMem (<[t := (draw_seq draw per s0).2]> (states_ pm)) (locks_ pm),
          Buffer (extent0 b) (extent1 b) (store_row i 0 (draw_seq draw per s0).1 (data b)),
          ops).
Proof.
  intros Hlen Hl Hs Hi He.
  destruct (call_operator_run draw ThreadIndexed pick samples t i pm b)
    as (g & pm1 & xs & s & Hget & Hseq & Hcall); [by split|done|done|].
  rewrite Hcall. eexists.
  apply get_state_Some in Hget as (_ & Hs' & -> & Hidx).
  rewrite (Hidx eq_refl) in *. rewrite Hs in Hs'. injection Hs' as Hs'.
  rewrite Hs', Hseq. unfold free_state. simpl.
  rewrite list_insert_insert_eq, (list_insert_id (locks_ pm)) by done. done.
Qed.

Lemma run_rows_indexed (t : nat) (td : list Z) (pm : pool_mem) (b : buffer) (s0 : gstate) :
  length (states_ pm) = length (locks_ pm) →
  locks_ pm !! t = Some false → states_ pm !! t = Some s0 →
  NoDup td → (∀ i, i ∈ td → 0 ≤ i < extent0 b) → samples ≤ extent1 b →
  ∃ b',
    run_rows' t td pm b =
    Some (PoolMem (<[t := (draw_seq draw (length td * per) s0).2]> (states_ pm)) (locks_ pm),
          b') ∧
    extent0 b' = extent0 b ∧ extent1 b' = extent1 b ∧
    (∀ i k, i ∉ td → data b' !! (i, k) = data b !! (i, k)) ∧
    (∀ j i k, td !! j = Some i → 0 ≤ k < samples →
       data b' !! (i, k) =
       (draw_seq draw (length td * per) s0).1 !! (j * per + Z.to_nat k)%nat).
Proof.
  revert pm b s0. induction td as [|i0 rest IH]; intros pm b s0 Hlen Hl Hs Hnd Hin He.
  - exists b. simpl. rewrite list_insert_id by done.
    split; [by destruct pm|]. repeat split; try done.
  - apply NoDup_cons in Hnd as [Hnotin Hnd].
    destruct (call_operator_indexed t i0 pm b s0 Hlen Hl Hs) as [ops Hcall];
      [apply Hin; left|done|].
    set (pm1 := PoolMem _ _) in Hcall. set (b1 := Buffer _ _ _) in Hcall.
    destruct (IH pm1 b1 (draw_seq draw per s0).2) as (b' & Hrun & He0 & He1 & Hframe & Hval).
    { subst pm1. simpl. by rewrite length_insert. }
    { done. }
    { subst pm1. simpl. apply list_lookup_insert_eq. by eapply lookup_lt_Some. }
    { done. }
    { intros i Hi. apply Hin. by right. }
    { done. }
    exists b'. simpl. rewrite Hcall. simpl. rewrite Hrun.
    subst pm1. simpl. rewrite list_insert_insert_eq.
    rewrite draw_seq_add. simpl.
    split; [done|]. split; [done|]. split; [done|]. split.
    + intros i k Hi. apply not_elem_of_cons in Hi as [Hne Hi].
      rewrite Hframe by done. subst b1. simpl. rewrite store_row_lookup.
      rewrite decide_False; [done|]. intros [? _]. done.
    + pose proof (draw_seq_length draw per s0) as Hlen0.
      intros [|j] i k Hj Hk; simpl in Hj.
      * injection Hj as <-. rewrite Hframe by done. subst b1. simpl.
        rewrite store_row_lookup. rewrite decide_True by lia.
        rewrite lookup_app_l by lia. f_equal. lia.
      * rewrite (Hval j i k Hj Hk).
        rewrite lookup_app_r by lia. f_equal. lia.
Qed.

Lemma run_serial_indexed (t0 : nat) (assign : list (list Z)) (pm : pool_mem) (b : buffer) :
  length (states_ pm) = length (locks_ pm) →
  (∀ t, (t0 ≤ t < t0 + length assign)%nat → locks_ pm !! t = Some false) →
  NoDup (concat assign) →
  (∀ i, i ∈ concat assign → 0 ≤ i < extent0 b) → samples ≤ extent1 b →
  ∃ pm' b',
    run_serial' t0 assign pm b = Some (pm', b') ∧
    locks_ pm' = locks_ pm ∧ length (states_ pm') = length (states_ pm) ∧
    extent0 b' = extent0 b ∧ extent1 b' = extent1 b ∧
    (∀ t, (t < t0 ∨ t0 + length assign ≤ t)%nat → states_ pm' !! t = states_ pm !! t) ∧
    (∀ i k, i ∉ concat assign → data b' !! (i, k) = data b !! (i, k)) ∧
    (∀ t td s0, assign !! t = Some td → states_ pm !! (t0 + t)%nat = Some s0 →
       states_ pm' !! (t0 + t)%nat = Some (draw_seq draw (length td * per) s0).2 ∧
       ∀ j i k, td !! j = Some i → 0 ≤ k < samples →
         data b' !! (i, k) =
         (draw_seq draw (length td * per) s0).1 !! (j * per + Z.to_nat k)%nat).
Proof.
  revert t0 pm b. induction assign as [|td rest IH]; intros t0 pm b Hlen Hl Hnd Hin He.
  - exists pm, b. simpl. repeat split; try done.
  - simpl in Hnd. apply NoDup_app in Hnd as (Hnd1 & Hdisj & Hnd2).
    assert (locks_ pm !! t0 = Some false) as Hl0 by (apply Hl; simpl; lia).
    destruct (lookup_lt_is_Some_2 (states_ pm) t0) as [s0 Hs0].
    { rewrite Hlen. by eapply lookup_lt_Some. }
    destruct (run_rows_indexed t0 td pm b s0 Hlen Hl0 Hs0 Hnd1)
      as (b1 & Hrows & He0 & He1 & Hframe1 & Hval1); [|done|].
    { intros i Hi. apply Hin. simpl. apply elem_of_app. by left. }
    set (pm1 := PoolMem _ _) in Hrows.
    destruct (IH (S t0) pm1 b1) as (pm' & b' & Hrun & Hlocks & Hst & He0' & He1' &
                                     Hsframe & Hframe & Hval).
    { subst pm1. simpl. by rewrite length_insert. }
    { intros t Ht. subst pm1. simpl. apply Hl. simpl. lia. }
    { done. }
    { intros i Hi. rewrite He0. apply Hin. simpl. apply elem_of_app. by right. }
    { by rewrite He1. }
    exists pm', b'. simpl. rewrite Hrows. simpl. rewrite Hrun.
    split; [done|]. split; [done|].
    split; [by rewrite Hst; subst pm1; simpl; rewrite length_insert|].
    split; [congruence|]. split; [congruence|]. split; [|split].
    + intros t Ht. rewrite Hsframe by lia. subst pm1. simpl.
      apply list_lookup_insert_ne. lia.
    + intros i k Hi. apply not_elem_of_app in Hi as [Hi1 Hi2].
      rewrite Hframe by done. by apply Hframe1.
    + intros [|t] td' s0' Htd Hs; simpl in Htd.
      * injection Htd as <-. rewrite Nat.add_0_r in *.
        rewrite Hs0 in Hs. injection Hs as <-. split.
        -- rewrite Hsframe by lia. subst pm1. simpl.
           apply list_lookup_insert_eq. by eapply lookup_lt_Some.
        -- intros j i k Hj Hk. rewrite Hframe; [by apply Hval1|].
           intros Hi. eapply Hdisj; [|exact Hi]. by eapply list_elem_of_lookup_2.
      * replace (t0 + S t)%nat with (S t0 + t)%nat in * by lia.
        apply (Hval t td' s0' Htd). subst pm1. simpl.
        rewrite list_lookup_insert_ne by lia. done.
Qed.

Lemma pool_ready_free (n : nat) (pm : pool_mem) (t : nat) :
  pool_ready n pm → (t < n)%nat → locks_ pm !! t = Some false.
Proof.
  intros (_ & Hn & Hfree) Ht.
  destruct (lookup_lt_is_Some_2 (locks_ pm) t) as [[|] Hl]; [lia| |done].
  by destruct (Hfree t).
Qed.

(** A launch on a thread-indexed pool, whatever the interleaving, and the
    launch in which the lanes run one after the other. *)
Lemma run_kernel_indexed (assign : list (list Z)) (sched : list nat)
    (pm : pool_mem) (b : buffer) :
  pool_ready (length assign) pm → NoDup (concat assign) →
  (∀ i, i ∈ concat assign → 0 ≤ i < extent0 b) → samples ≤ extent1 b →
  ∃ pm' b' evs,
    run_serial' 0 assign pm b = Some (pm', b') ∧
    run_kernel draw ThreadIndexed pick samples assign sched pm b = Some (pm', b', evs).
Proof.
  intros Hready Hnd Hin He.
  destruct (run_serial_indexed 0 assign pm b) as (pm' & b' & Hser & _); try done.
  { apply Hready. }
  { intros t Ht. eapply pool_ready_free; [done|lia]. }
  pose proof (run_kernel_serial draw ThreadIndexed pick samples assign pm b pm' b' Hser)
    as Hrun.
  rewrite <- (run_kernel_any_sched draw pick samples assign sched pm b Hready Hnd) in Hrun.
  destruct (run_kernel draw ThreadIndexed pick samples assign sched pm b)
    as [[[pm2 b2] evs]|]; [|done].
  simpl in Hrun. injection Hrun as -> ->. by exists pm', b', evs.
Qed.

(** X5. A launch on a thread-indexed pool, with a ready pool, no index
    dealt out twice, the rows dealt out in the buffer and at least [samples]
    columns, leaves under every interleaving of the lanes the pool and the
    buffer that the loops without interleaving leave: lane after lane, and
    for every lane [operator()] for its indices one after the other. *)
Theorem launch_is_serial (assign : list (list Z)) (sched : list nat)
    (pm : pool_mem) (b : buffer) :
  pool_ready (length assign) pm → NoDup (concat assign) →
  (∀ i, i ∈ concat assign → 0 ≤ i < extent0 b) → samples ≤ extent1 b →
  ∃ pm' b' evs,
    run_serial' 0 assign pm b = Some (pm', b') ∧
    run_kernel draw ThreadIndexed pick samples assign sched pm b = Some (pm', b', evs).
Proof. apply run_kernel_indexed. Qed.

(** X6. What such a launch leaves, lane by lane.  Lane [t] has drawn
    [length td * samples] values from the state [s0] its slot held, one
    after the other; the row of the [j]-th index it was dealt holds the
    values number [j * samples] to [j * samples + samples - 1] of them, and
    its slot holds the state these draws lead to.  The slots past the lanes
    and the rows not dealt out hold what they held. *)
Theorem launch_row_values (assign : list (list Z)) (sched : list nat)
    (pm : pool_mem) (b : buffer) (t : nat) (td : list Z) (s0 : gstate) :
  pool_ready (length assign) pm → NoDup (concat assign) →
  (∀ i, i ∈ concat assign → 0 ≤ i < extent0 b) → samples ≤ extent1 b →
  assign !! t = Some td → states_ pm !! t = Some s0 →
  ∃ pm' b' evs xs s,
    run_kernel draw ThreadIndexed pick samples assign sched pm b = Some (pm', b', evs) ∧
    draw_seq draw (length td * Z.to_nat samples) s0 = (xs, s) ∧
    states_ pm' !! t = Some s ∧
    (∀ j i k, td !! j = Some i → 0 ≤ k < samples →
       data b' !! (i, k) = xs !! (j * Z.to_nat samples + Z.to_nat k)%nat) ∧
    (∀ t', (length assign ≤ t')%nat → states_ pm' !! t' = states_ pm !! t') ∧
    (∀ i k, i ∉ concat assign → data b' !! (i, k) = data b !! (i, k)).
Proof.
  intros Hready Hnd Hin He Htd Hs0.
  destruct (run_kernel_indexed assign sched pm b Hready Hnd Hin He)
    as (pm' & b' & evs & Hser & Hrun).
  destruct (run_serial_indexed 0 assign pm b) as (pm2 & b2 & Hser2 & _ & _ & _ & _ &
                                                   Hsframe & Hframe & Hval); try done.
  { apply Hready. }
  { intros t' Ht'. eapply pool_ready_free; [done|lia]. }
  rewrite Hser in Hser2. injection Hser2 as <- <-.
  destruct (Hval t td s0 Htd Hs0) as [Hs Hv].
  destruct (draw_seq draw (length td * Z.to_nat samples) s0) as [xs s] eqn:Hseq.
  exists pm', b', evs, xs, s. repeat split; try done.
  intros t' Ht'. apply Hsframe. lia.
Qed.

(** X4. Two invocations in a row by the same lane of a thread-indexed
    pool, for two different rows: the second one goes on where the first one
    stopped.  Row [i] holds the first [samples] values drawn from the state
    [s0] of the slot, row [j] the next [samples] values, and the slot holds
    the state after [2 * samples] draws. *)
Theorem invocations_continue_stream (t : nat) (i j : Z) (pm : pool_mem) (b : buffer)
    (s0 : gstate) :
  length (states_ pm) = length (locks_ pm) →
  locks_ pm !! t = Some false → states_ pm !! t = Some s0 →
  0 ≤ i < extent0 b → 0 ≤ j < extent0 b → i ≠ j → samples ≤ extent1 b →
  ∃ pm1 b1 ops1 pm2 b2 ops2 xs s,
    call_operator draw ThreadIndexed pick samples t i pm b = Some (pm1, b1, ops1) ∧
    call_operator draw ThreadIndexed pick samples t j pm1 b1 = Some (pm2, b2, ops2) ∧
    draw_seq draw (2 * Z.to_nat samples) s0 = (xs, s) ∧
    states_ pm2 !! t = Some s ∧
    ∀ k, 0 ≤ k < samples →
      data b2 !! (i, k) = xs !! Z.to_nat k ∧
      data b2 !! (j, k) = xs !! (Z.to_nat samples + Z.to_nat k)%nat.
Proof.
  intros Hlen Hl Hs Hi Hj Hne He.
  destruct (call_operator_indexed t i pm b s0 Hlen Hl Hs Hi He) as [ops1 Hcall1].
  set (pm1 := PoolMem _ _) in Hcall1. set (b1 := Buffer _ _ _) in Hcall1.
  destruct (call_operator_indexed t j pm1 b1 (draw_seq draw per s0).2) as [ops2 Hcall2];
    try done.
  { subst pm1. simpl. by rewrite length_insert. }
  { subst pm1. simpl. apply list_lookup_insert_eq. by eapply lookup_lt_Some. }
  eexists pm1, b1, ops1, _, _, ops2, _, _.
  split; [exact Hcall1|]. split; [exact Hcall2|].
  replace (2 * per)%nat with (per + per)%nat by lia.
  split; [apply draw_seq_add|]. simpl.
  pose proof (draw_seq_length draw per s0) as Hlen0.
  split.
  - rewrite list_insert_insert_eq. apply list_lookup_insert_eq. by eapply lookup_lt_Some.
  - intros k Hk. rewrite !store_row_lookup. split.
    + rewrite decide_False by (intros [? _]; done).
      rewrite decide_True by lia. rewrite lookup_app_l by lia. f_equal. lia.
    + pose proof (draw_seq_length draw per (draw_seq draw per s0).2) as Hlen1.
      rewrite decide_True by lia. rewrite lookup_app_r by lia. f_equal. lia.
Qed.

End Serial_indexed.

(** * The calls of a launch, counted *)

Section Counts.
Context `{PF : Platform}.
Variable draw : gstate → double * gstate.
Variable acq : acquisition.
Variable pick : nat → list nat → nat.
Variable samples : Z.

Local Abbreviation exec' := (exec draw acq pick samples).
Local Abbreviation steps' := (steps draw acq pick samples).

Lemma sum_list_with_insert {A} (f : A → nat) (l : list A) (t : nat) (x y : A) :
  l !! t = Some x →
  (sum_list_with f (<[t := y]> l) + f x = sum_list_with f l + f y)%nat.
Proof.
  revert t. induction l as [|a l IH]; intros [|t] Hl; simpl in *; try done.
  - injection Hl as ->. lia.
  - specialize (IH t Hl). lia.
Qed.

Lemma count_of_app (p : op → bool) (i : Z) (l1 l2 : list event) :
  count_of p i (l1 ++ l2) = (count_of p i l1 + count_of p i l2)%nat.
Proof. unfold count_of. by rewrite filter_app, length_app. Qed.

Lemma count_of_cons (p : op → bool) (i : Z) (e : event) (l : list event) :
  count_of p i (e :: l) =
  ((if decide (ev_task e = i) then if p (ev_op e) then 1 else 0 else 0) + count_of p i l)%nat.
Proof.
  unfold count_of. rewrite filter_cons.
  destruct (decide (ev_task e = i)) as [Hi|Hi].
  - destruct (p (ev_op e)) eqn:Hp.
    + by rewrite decide_True.
    + rewrite decide_False; [done|]. intros [_ ?]. done.
  - rewrite decide_False; [done|]. intros [? _]. done.
Qed.

Lemma count_of_nil (p : op → bool) (i : Z) : count_of p i [] = 0%nat.
Proof. done. Qed.

Lemma dealt_cons (i j : Z) (rows : list Z) :
  dealt i (j :: rows) = ((if decide (j = i) then 1 else 0) + dealt i rows)%nat.
Proof. unfold dealt. rewrite filter_cons. by case_decide. Qed.

Ltac hide_sums i evs :=
  repeat match goal with
  | H : context [sum_list_with (?m i) ?l] |- _ =>
      let P := fresh "P" in set (P := sum_list_with (m i) l) in *; clearbody P
  | |- context [sum_list_with (?m i) ?l] =>
      let P := fresh "P" in set (P := sum_list_with (m i) l) in *; clearbody P
  | H : context [count_of ?p i evs] |- _ =>
      let P := fresh "C" in set (P := count_of p i evs) in *; clearbody P
  | |- context [count_of ?p i evs] =>
      let P := fresh "C" in set (P := count_of p i evs) in *; clearbody P
  end.

Ltac lane_sums i t new Hln :=
  pose proof (sum_list_with_insert (pending i) _ t _ new Hln);
  pose proof (sum_list_with_insert (inside i) _ t _ new Hln);
  pose proof (sum_list_with_insert (drawn i) _ t _ new Hln).

Ltac count_step i evs :=
  cbn [k_lanes k_ub];
  rewrite ?count_of_app, ?count_of_cons, ?count_of_nil;
  cbn [ev_task ev_op is_get_state is_free_state is_normal is_store];
  hide_sums i evs;
  unfold pending, inside, drawn in *; cbn [todo cur fr_i fr_k] in *;
  rewrite ?dealt_cons in *;
  repeat case_decide; try congruence; lia.

Lemma steps_count_inv (i : Z) (total : nat) (t : nat) (c c' : kernel)
    (evs ev : list event) :
  count_inv samples i total c evs → steps' t c c' ev →
  count_inv samples i total c' (evs ++ ev).
Proof.
  intros [Hg Hf Hn Hs Hk] Hst.
  destruct Hst as [_|i0 rest g pm Hln Hget|td i0 g k0 x g' b Hln Hlt Hnorm Hstore
                  |td i0 g k0 x g' Hln Hlt Hnorm Hstore|td i0 g k0 Hln Hge].
  - rewrite app_nil_r. by split.
  - lane_sums i t (Lane rest (Some (Frame i0 g 0))) Hln.
    split.
    + count_step i evs.
    + count_step i evs.
    + count_step i evs.
    + cbn [k_ub]. intros Hub. specialize (Hs Hub). count_step i evs.
    + intros t' td' fr Hl'. cbn [k_lanes] in Hl'.
      destruct (decide (t' = t)) as [->|Hne].
      * rewrite list_lookup_insert_eq in Hl' by (by eapply lookup_lt_Some).
        injection Hl' as <- <-. simpl. lia.
      * rewrite list_lookup_insert_ne in Hl' by done. by eapply Hk.
  - pose proof (Hk _ _ _ Hln) as Hk0. cbn [fr_k] in Hk0.
    lane_sums i t (Lane td (Some (Frame i0 g' (k0 + 1)))) Hln.
    assert (Z.to_nat (k0 + 1) = S (Z.to_nat k0)) as Hk1 by lia.
    split.
    + count_step i evs.
    + count_step i evs.
    + count_step i evs.
    + cbn [k_ub]. intros Hub. specialize (Hs Hub). count_step i evs.
    + intros t' td' fr Hl'. cbn [k_lanes] in Hl'.
      destruct (decide (t' = t)) as [->|Hne].
      * rewrite list_lookup_insert_eq in Hl' by (by eapply lookup_lt_Some).
        injection Hl' as <- <-. simpl. lia.
      * rewrite list_lookup_insert_ne in Hl' by done. by eapply Hk.
  - pose proof (Hk _ _ _ Hln) as Hk0. cbn [fr_k] in Hk0.
    lane_sums i t (Lane td (Some (Frame i0 g' (k0 + 1)))) Hln.
    assert (Z.to_nat (k0 + 1) = S (Z.to_nat k0)) as Hk1 by lia.
    split.
    + count_step i evs.
    + count_step i evs.
    + count_step i evs.
    + done.
    + intros t' td' fr Hl'. cbn [k_lanes] in Hl'.
      destruct (decide (t' = t)) as [->|Hne].
      * rewrite list_lookup_insert_eq in Hl' by (by eapply lookup_lt_Some).
        injection Hl' as <- <-. simpl. lia.
      * rewrite list_lookup_insert_ne in Hl' by done. by eapply Hk.
  - pose proof (Hk _ _ _ Hln) as Hk0. cbn [fr_k] in Hk0.
    lane_sums i t (Lane td None) Hln.
    assert (Z.to_nat k0 = Z.to_nat samples) as Hk1 by lia.
    split.
    + count_step i evs.
    + count_step i evs.
    + count_step i evs.
    + cbn [k_ub]. intros Hub. specialize (Hs Hub). count_step i evs.
    + intros t' td' fr Hl'. cbn [k_lanes] in Hl'.
      destruct (decide (t' = t)) as [->|Hne].
      * rewrite list_lookup_insert_eq in Hl' by (by eapply lookup_lt_Some). done.
      * rewrite list_lookup_insert_ne in Hl' by done. by eapply Hk.
Qed.

Lemma start_count_inv (i : Z) (assign : list (list Z)) (pm : pool_mem) (b : buffer) :
  count_inv samples i (dealt i (concat assign)) (start assign pm b) [].
Proof.
  assert (sum_list_with (pending i) ((λ td, Lane td None) <$> assign)
          = dealt i (concat assign) ∧
          sum_list_with (inside i) ((λ td, Lane td None) <$> assign) = 0%nat ∧
          sum_list_with (drawn i) ((λ td, Lane td None) <$> assign) = 0%nat)
    as (Hp & Hi & Hd).
  { induction assign as [|td rest (IH1 & IH2 & IH3)]; [done|].
    rewrite fmap_cons. cbn [sum_list_with concat]. rewrite IH1, IH2, IH3.
    unfold pending, inside, drawn, dealt. simpl.
    by rewrite filter_app, length_app. }
  split; cbn [start k_lanes k_ub]; rewrite ?Hp, ?Hi, ?Hd, ?count_of_nil; try done.
  intros t td fr Hl. apply list_lookup_fmap_Some in Hl as (? & ? & ?). done.
Qed.

Lemma finished_sums (i : Z) (c : kernel) :
  finished c = true →
  sum_list_with (pending i) (k_lanes c) = 0%nat ∧
  sum_list_with (inside i) (k_lanes c) = 0%nat ∧
  sum_list_with (drawn i) (k_lanes c) = 0%nat.
Proof.
  unfold finished. induction (k_lanes c) as [|ln l IH]; [done|].
  simpl. intros [Hln Hl]%andb_prop. destruct (IH Hl) as (-> & -> & ->).
  by destruct ln as [[|] [|]].
Qed.

(** What a launch that completes has called for index [i], whatever the
    interleaving. *)
Lemma run_kernel_counts (i : Z) (assign : list (list Z)) (sched : list nat)
    (pm : pool_mem) (b : buffer) pm' b' evs :
  run_kernel draw acq pick samples assign sched pm b = Some (pm', b', evs) →
  count_of is_get_state i evs = dealt i (concat assign) ∧
  count_of is_free_state i evs = dealt i (concat assign) ∧
  count_of is_normal i evs = (dealt i (concat assign) * Z.to_nat samples)%nat ∧
  count_of is_store i evs = (dealt i (concat assign) * Z.to_nat samples)%nat.
Proof.
  unfold run_kernel.
  pose proof (exec_keeps draw acq pick samples
                (count_inv samples i (dealt i (concat assign)))
                (steps_count_inv i _) sched _ [] (start_count_inv i assign pm b)) as H1.
  destruct (exec' sched (start assign pm b)) as [c1 ev1]. simpl in H1.
  pose proof (exec_keeps draw acq pick samples
                (count_inv samples i (dealt i (concat assign)))
                (steps_count_inv i _) (drain samples c1) c1 ev1 H1) as H2.
  destruct (exec' (drain samples c1) c1) as [c2 ev2]. simpl in H2.
  destruct (finished c2) eqn:Hfin; [|done].
  destruct (k_ub c2) eqn:Hub; [done|]. simpl. intros [= <- <- <-].
  destruct H2 as [Hg Hf Hn Hs _].
  destruct (finished_sums i c2 Hfin) as (Hp & Hi & Hd).
  rewrite Hp in Hg. rewrite Hi in Hf. rewrite Hd in Hn. specialize (Hs Hub).
  lia.
Qed.

Lemma dealt_seqZ (i m : Z) (n : nat) :
  dealt i (seqZ m (Z.of_nat n)) = if decide (m ≤ i < m + Z.of_nat n) then 1%nat else 0%nat.
Proof.
  revert m. induction n as [|n IH]; intros m.
  - simpl. case_decide; [lia|done].
  - replace (Z.of_nat (S n)) with (Z.succ (Z.of_nat n)) by lia.
    rewrite seqZ_cons by lia. rewrite Z.pred_succ, dealt_cons, IH.
    repeat case_decide; lia.
Qed.

Lemma dealt_range (i rows : Z) (l : list Z) :
  l ≡ₚ seqZ 0 rows →
  dealt i l = if decide (0 ≤ i < rows) then 1%nat else 0%nat.
Proof.
  intros Hperm. unfold dealt. rewrite Hperm. fold (dealt i (seqZ 0 rows)).
  destruct (decide (0 ≤ rows)) as [Hr|Hr].
  - replace rows with (Z.of_nat (Z.to_nat rows)) at 1 by lia.
    rewrite dealt_seqZ. repeat case_decide; lia.
  - unfold seqZ. replace (Z.to_nat rows) with 0%nat by lia. simpl.
    case_decide; [lia|done].
Qed.

(** X7. A launch over the rows [0 .. rows - 1], each dealt to exactly one
    lane, on a ready pool and a buffer that has these rows and at least
    [samples] columns, makes exactly one invocation for every index of the
    range, whatever the interleaving and whatever the pool: for every such
    [i] there is one [get_state], one [free_state], and there are [samples]
    draws and [samples] stores; for an index outside of the range there is
    none of these. *)
Theorem every_index_once (rows : Z) (assign : list (list Z)) (sched : list nat)
    (pm : pool_mem) (b : buffer) :
  pool_ready (length assign) pm →
  concat assign ≡ₚ seqZ 0 rows →
  rows ≤ extent0 b → samples ≤ extent1 b →
  ∃ pm' b' evs,
    run_kernel draw acq pick samples assign sched pm b = Some (pm', b', evs) ∧
    (∀ i, 0 ≤ i < rows →
       count_of is_get_state i evs = 1%nat ∧
       count_of is_free_state i evs = 1%nat ∧
       count_of is_normal i evs = Z.to_nat samples ∧
       count_of is_store i evs = Z.to_nat samples) ∧
    (∀ i, ¬ 0 ≤ i < rows →
       count_of is_get_state i evs = 0%nat ∧
       count_of is_free_state i evs = 0%nat ∧
       count_of is_normal i evs = 0%nat ∧
       count_of is_store i evs = 0%nat).
Proof.
  intros Hready Hperm Hrows Hcols.
  destruct (run_kernel_complete draw acq pick samples assign sched pm b Hready Hcols)
    as (pm' & b' & evs & Hrun & _).
  { intros i. rewrite Hperm, elem_of_seqZ. lia. }
  exists pm', b', evs. split; [done|].
  split; intros i Hi; destruct (run_kernel_counts i _ _ _ _ _ _ _ Hrun) as (Hg & Hf & Hn & Hs);
    rewrite (dealt_range i rows _ Hperm) in *.
  - rewrite decide_True in * by done. rewrite Hg, Hf, Hn, Hs. repeat split; lia.
  - rewrite decide_False in * by done. rewrite Hg, Hf, Hn, Hs. repeat split; lia.
Qed.

End Counts.

(** * Launches with nothing to do *)

Section No_work.
Context `{PF : Platform}.
Variable draw : gstate → double * gstate.
Variable acq : acquisition.
Variable pick : nat → list nat → nat.
Variable samples : Z.

Local Abbreviation lane_step' := (lane_step draw acq pick samples).
Local Abbreviation exec' := (exec draw acq pick samples).
Local Abbreviation steps' := (steps draw acq pick samples).

Lemma exec_finished (sched : list nat) (c : kernel) :
  finished c = true → exec' sched c = (c, []).
Proof.
  intros Hfin. induction sched as [|t sched IH]; [done|]. simpl.
  assert (lane_step' t c = (c, [])) as ->; [|by rewrite IH].
  unfold lane_step. destruct (k_lanes c !! t) as [ln|] eqn:Hl; [|done].
  by rewrite (finished_lookup c t ln Hfin Hl).
Qed.

(** A launch no index is dealt out in does nothing. *)
Lemma run_kernel_no_rows (assign : list (list Z)) (sched : list nat)
    (pm : pool_mem) (b : buffer) :
  concat assign = [] →
  run_kernel draw acq pick samples assign sched pm b = Some (pm, b, []).
Proof.
  intros Hnil.
  assert (finished (start assign pm b) = true) as Hfin.
  { unfold finished, start. simpl. apply forallb_forall. intros ln Hin.
    apply list_elem_of_In, list_elem_of_fmap in Hin as (td & -> & Htd).
    destruct td as [|i td]; [done|].
    assert (i ∈ concat assign) as Hi.
    { apply elem_of_concat. exists (i :: td). split; [by left|done]. }
    rewrite Hnil in Hi. by apply elem_of_nil in Hi. }
  unfold run_kernel. rewrite (exec_finished sched _ Hfin).
  rewrite (exec_finished _ _ Hfin). by rewrite Hfin.
Qed.

Lemma all_false (l : list bool) :
  (∀ idx, l !! idx ≠ Some true) → l = replicate (length l) false.
Proof.
  induction l as [|x l IH]; intros Hl; [done|]. simpl.
  destruct x; [by destruct (Hl 0%nat)|].
  f_equal. apply IH. intros idx. apply (Hl (S idx)).
Qed.

(** A launch with no samples to draw takes and gives back the states and
    leaves the pool and the buffer as they were. *)
Lemma run_kernel_no_samples (assign : list (list Z)) (sched : list nat)
    (pm : pool_mem) (b : buffer) :
  samples ≤ 0 → pool_ready (length assign) pm →
  ∃ evs, run_kernel draw acq pick samples assign sched pm b = Some (pm, b, evs).
Proof.
  intros Hn Hready. unfold run_kernel.
  set (K := λ (c : kernel),
         pool_inv acq c ∧ k_vals c = b ∧ k_ub c = false ∧
         states_ (k_pool c) = states_ pm ∧
         length (locks_ (k_pool c)) = length (locks_ pm) ∧
         ∀ t td fr, k_lanes c !! t = Some (Lane td (Some fr)) →
           states_ pm !! state_idx_ (fr_gen fr) = Some (state_ (fr_gen fr)) ∧
           fr_k fr = 0).
  assert (∀ t c c' ev, K c → steps' t c c' ev → K c') as Hkeep.
  { intros t c c' ev (Hp & Hb & Hub & Hs & Hlen & Hfr) Hst.
    split; [by eapply steps_pool_inv|].
    destruct Hst as [_|i0 rest g pm1 Hln Hget|td i0 g k0 x g' b1 Hln Hlt Hnorm Hstore
                    |td i0 g k0 x g' Hln Hlt Hnorm Hstore|td i0 g k0 Hln Hge];
      cbn [k_vals k_ub k_pool k_lanes].
    - done.
    - apply get_state_Some in Hget as (_ & Hst & -> & _). cbn [states_ locks_].
      rewrite length_insert, <- Hs.
      do 4 (split; [done|]). intros t' td' fr Hl'.
      destruct (decide (t' = t)) as [->|Hne].
      + rewrite list_lookup_insert_eq in Hl' by (by eapply lookup_lt_Some).
        injection Hl' as <- <-. done.
      + rewrite list_lookup_insert_ne in Hl' by done. rewrite Hs. by eapply Hfr.
    - destruct (Hfr _ _ _ Hln) as [_ Hk]. simpl in Hk. lia.
    - destruct (Hfr _ _ _ Hln) as [_ Hk]. simpl in Hk. lia.
    - destruct (Hfr _ _ _ Hln) as [Hst _]. simpl in Hst.
      unfold free_state. cbn [states_ locks_].
      rewrite length_insert, Hs, list_insert_id by done.
      do 4 (split; [done|]). intros t' td' fr Hl'.
      destruct (decide (t' = t)) as [->|Hne].
      + rewrite list_lookup_insert_eq in Hl' by (by eapply lookup_lt_Some). done.
      + rewrite list_lookup_insert_ne in Hl' by done. by eapply Hfr. }
  assert (K (start assign pm b)) as H0.
  { split; [by apply start_pool_inv|]. do 4 (split; [done|]).
    intros t td fr Hl. apply list_lookup_fmap_Some in Hl as (? & ? & ?). done. }
  pose proof (exec_keeps_state draw acq pick samples K Hkeep sched _ H0) as H1.
  destruct (exec' sched (start assign pm b)) as [c1 ev1]. simpl in H1.
  pose proof (exec_keeps_state draw acq pick samples K Hkeep (drain samples c1) c1 H1) as H2.
  pose proof (drain_finishes draw acq pick samples c1 (proj1 H1)) as Hfin.
  destruct (exec' (drain samples c1) c1) as [c2 ev2]. simpl in *.
  destruct H2 as (Hp & Hb & Hub & Hs & Hlen & _).
  rewrite Hfin, Hub. simpl. exists (ev1 ++ ev2). do 2 f_equal.
  f_equal; [|done]. destruct (k_pool c2) as [sts lks] eqn:Hpool, pm as [sts0 lks0].
  simpl in *. subst sts. f_equal.
  rewrite (all_false lks), (all_false lks0), Hlen; [done|apply Hready|].
  intros idx Hidx. destruct Hp as [_ _ Hlocked _ _]. rewrite Hpool in Hlocked.
  apply Hlocked in Hidx as (t & td & fr & Hl & _).
  by pose proof (finished_lookup _ _ _ Hfin Hl).
Qed.

End No_work.

(** * Where the values of a launch come from *)

Section Segments.
Context `{PF : Platform}.
Variable draw : gstate → double * gstate.
Variable acq : acquisition.
Variable pick : nat → list nat → nat.
Variable samples : Z.

Local Abbreviation exec' := (exec draw acq pick samples).
Local Abbreviation steps' := (steps draw acq pick samples).
Local Abbreviation per := (Z.to_nat samples).

Lemma advance_S (n : nat) (s : gstate) :
  advance draw (S n) s = (draw (advance draw n s)).2.
Proof. done. Qed.

Lemma lookup_insert_lane (lanes : list lane) (t t' : nat) (ln0 ln' ln : lane) :
  lanes !! t = Some ln0 → <[t := ln']> lanes !! t' = Some ln →
  (t' = t ∧ ln = ln') ∨ (t' ≠ t ∧ lanes !! t' = Some ln).
Proof.
  intros H0 H. destruct (decide (t' = t)) as [->|Hne].
  - rewrite list_lookup_insert_eq in H by (by eapply lookup_lt_Some). left. by injection H.
  - rewrite list_lookup_insert_ne in H by done. by right.
Qed.

(** Every step of a launch keeps [seg_inv], with the segment of a row
    fixed at its [get_state] and the count of a slot raised at its
    [free_state]. *)
Lemma steps_seg_inv (pm0 : pool_mem) (assign : list (list Z)) (t : nat) (c c' : kernel)
    (ev : list event) (seg : gmap Z (nat * nat)) (uses : nat → nat) :
  pool_inv acq c → bounds_inv samples c → rows_apart c →
  seg_inv draw samples pm0 assign seg uses c → steps' t c c' ev →
  ∃ seg' uses', seg_inv draw samples pm0 assign seg' uses' c'.
Proof.
  intros Hp Hb Hap [Hlen Hpool Hframe Hseg Hinj Htodo Hcover Hnodup] Hst.
  destruct Hst as [_|i rest g pm1 Hln Hget|td i g k x g' b Hln Hlt Hnorm Hstore
                  |td i g k x g' Hln Hlt Hnorm Hstore|td i g k Hln Hge].
  - exists seg, uses. by split.
  - (* get_state *)
    apply get_state_Some in Hget as (Hl & Hs & -> & _).
    set (idx := state_idx_ g) in *.
    destruct (lookup_lt_is_Some_2 (states_ pm0) idx) as [s0 Hs0].
    { rewrite <- Hlen. by eapply lookup_lt_Some. }
    pose proof (Hpool idx s0 Hs0 Hl) as Hst0. rewrite Hs in Hst0. injection Hst0 as Hst0.
    pose proof (Hnodup _ _ Hln) as Hnd. unfold lane_rows in Hnd. simpl in Hnd.
    apply NoDup_cons in Hnd as [Hi_rest Hnd_rest].
    assert (∀ t' ln, t' ≠ t → k_lanes c !! t' = Some ln → i ∉ lane_rows ln) as Hother.
    { intros t' ln Hne Hl' Hin. eapply (Hap t t'); eauto. unfold lane_rows. simpl. by left. }
    exists (<[i := (idx, uses idx)]> seg), uses.
    split; cbn [k_pool k_vals k_lanes states_ locks_].
    + done.
    + intros idx' s0' Hs0' Hl'. destruct (decide (idx' = idx)) as [->|Hne].
      * rewrite list_lookup_insert_eq in Hl' by (by eapply lookup_lt_Some). done.
      * rewrite list_lookup_insert_ne in Hl' by done. by apply Hpool.
    + intros t' td' i' g' k' Hl'.
      destruct (lookup_insert_lane _ _ _ _ _ _ Hln Hl') as [[-> Heq]|[Hne Hold]].
      * injection Heq as -> -> -> ->. fold idx.
        split; [lia|]. split; [by rewrite lookup_insert_eq|].
        exists s0. split; [done|]. split; [by rewrite Nat.add_0_r|]. intros; lia.
      * destruct (Hframe _ _ _ _ _ Hold) as (Hk & Hsg & Hrest).
        split; [done|]. split; [|done].
        rewrite lookup_insert_ne; [done|]. intros <-.
        eapply (Hother t'); eauto. unfold lane_rows. simpl. by left.
    + intros j idx' m Hj. destruct (decide (j = i)) as [->|Hne].
      * rewrite lookup_insert_eq in Hj. injection Hj as <- <-.
        left. exists t, rest, g, 0. split; [|done].
        apply list_lookup_insert_eq. by eapply lookup_lt_Some.
      * rewrite lookup_insert_ne in Hj by done.
        destruct (Hseg _ _ _ Hj) as [(t' & td' & g' & k' & Hl' & Hi' & Hm)|(Hm & Hrows & Hs0')].
        -- left. exists t', td', g', k'. split; [|done].
           rewrite list_lookup_insert_ne; [done|]. intros ->. congruence.
        -- right. split; [done|]. split; [|done].
           intros t' ln Hl'.
           destruct (lookup_insert_lane _ _ _ _ _ _ Hln Hl') as [[-> ->]|[_ Hold]].
           ++ apply (Hrows _ _ Hln).
           ++ by eapply Hrows.
    + intros i1 i2 p H1 H2.
      assert (∀ j, j ≠ i → seg !! j = Some (idx, uses idx) → False) as Hfresh.
      { intros j Hne Hj.
        destruct (Hseg _ _ _ Hj) as [(t' & td' & g' & k' & Hl' & Hi' & _)|(Hm & _)]; [|lia].
        assert (locks_ (k_pool c) !! idx = Some true) as Htrue.
        { apply (pi_locked _ _ Hp). exists t', td', (Frame j g' k'). done. }
        congruence. }
      destruct (decide (i1 = i)) as [->|Hne1], (decide (i2 = i)) as [->|Hne2]; [done| | |].
      * rewrite lookup_insert_eq in H1. injection H1 as <-.
        rewrite lookup_insert_ne in H2 by done. by destruct (Hfresh i2).
      * rewrite lookup_insert_eq in H2. injection H2 as <-.
        rewrite lookup_insert_ne in H1 by done. by destruct (Hfresh i1).
      * rewrite lookup_insert_ne in H1, H2 by done. by eapply Hinj.
    + intros t' ln j Hl' Hj.
      destruct (lookup_insert_lane _ _ _ _ _ _ Hln Hl') as [[-> ->]|[Hne Hold]].
      * simpl in Hj. rewrite lookup_insert_ne by (intros <-; done).
        apply (Htodo _ _ _ Hln). simpl. by right.
      * rewrite lookup_insert_ne.
        -- by eapply Htodo.
        -- intros <-. eapply (Hother t'); eauto. unfold lane_rows.
           apply elem_of_app. by right.
    + intros j Hj. destruct (Hcover j Hj) as [(t' & ln & Hl' & Hin)|Hsome].
      * destruct (decide (t' = t)) as [->|Hne].
        -- rewrite Hln in Hl'. injection Hl' as <-. simpl in Hin.
           apply elem_of_cons in Hin as [->|Hin].
           ++ right. by rewrite lookup_insert_eq.
           ++ left. exists t, (Lane rest (Some (Frame i g 0))). split; [|done].
              apply list_lookup_insert_eq. by eapply lookup_lt_Some.
        -- left. exists t', ln. split; [|done]. by rewrite list_lookup_insert_ne.
      * right. destruct (decide (j = i)) as [->|Hne].
        -- by rewrite lookup_insert_eq.
        -- by rewrite lookup_insert_ne.
    + intros t' ln Hl'.
      destruct (lookup_insert_lane _ _ _ _ _ _ Hln Hl') as [[-> ->]|[_ Hold]].
      * unfold lane_rows. simpl. by apply NoDup_cons.
      * by eapply Hnodup.
  - (* a draw and its store *)
    apply view_store_Some in Hstore as (_ & _ & _ & Hdata).
    unfold normal in Hnorm. destruct (draw (state_ g)) as [x1 s1] eqn:Hdraw.
    injection Hnorm as <- <-.
    destruct (Hframe _ _ _ _ _ Hln) as (Hk & Hsg & s0 & Hs0 & Hstate & Hvals).
    assert (∀ t' ln, t' ≠ t → k_lanes c !! t' = Some ln → i ∉ lane_rows ln) as Hother.
    { intros t' ln Hne Hl' Hin. eapply (Hap t t'); eauto. unfold lane_rows. simpl. by left. }
    exists seg, uses. split; cbn [k_pool k_vals k_lanes states_ locks_].
    + done.
    + done.
    + intros t' td' i' g' k' Hl'.
      destruct (lookup_insert_lane _ _ _ _ _ _ Hln Hl') as [[-> Heq]|[Hne Hold]].
      * injection Heq as -> -> -> ->. cbn [state_idx_ state_].
        split; [lia|]. split; [done|]. exists s0. split; [done|]. split.
        -- replace (Z.to_nat (k + 1)) with (S (Z.to_nat k)) by lia.
           rewrite Nat.add_succ_r, advance_S. by rewrite <- Hstate, Hdraw.
        -- intros k' Hk'. rewrite Hdata. destruct (decide (k' = k)) as [->|Hne].
           ++ rewrite lookup_insert_eq. unfold draw_at. by rewrite <- Hstate, Hdraw.
           ++ rewrite lookup_insert_ne by congruence. apply Hvals. lia.
      * destruct (Hframe _ _ _ _ _ Hold) as (Hk' & Hsg' & s0' & Hs0' & Hstate' & Hvals').
        split; [done|]. split; [done|]. exists s0'. split; [done|]. split; [done|].
        intros k'' Hk''. rewrite Hdata, lookup_insert_ne; [by apply Hvals'|].
        intros [= <- _]. eapply (Hother t'); eauto. unfold lane_rows. simpl. by left.
    + intros j idx' m Hj.
      destruct (Hseg _ _ _ Hj)
        as [(t' & td' & g' & k' & Hl' & Hi' & Hm)|(Hm & Hrows & s0' & Hs0' & Hh)].
      * left. destruct (decide (t' = t)) as [->|Hne].
        -- rewrite Hln in Hl'. injection Hl' as <- <- <- <-.
           exists t, td, (Generator s1 (state_idx_ g)), (k + 1). split; [|done].
           apply list_lookup_insert_eq. by eapply lookup_lt_Some.
        -- exists t', td', g', k'. split; [|done]. by rewrite list_lookup_insert_ne.
      * right. split; [done|]. split.
        -- intros t' ln Hl'.
           destruct (lookup_insert_lane _ _ _ _ _ _ Hln Hl') as [[-> ->]|[_ Hold]].
           ++ apply (Hrows _ _ Hln).
           ++ by eapply Hrows.
        -- exists s0'. split; [done|]. intros k' Hk'. rewrite Hdata, lookup_insert_ne.
           ++ by apply Hh.
           ++ intros [= <- _]. eapply (Hrows _ _ Hln). unfold lane_rows. simpl. by left.
    + done.
    + intros t' ln j Hl' Hj.
      destruct (lookup_insert_lane _ _ _ _ _ _ Hln Hl') as [[-> ->]|[Hne Hold]].
      * by apply (Htodo _ _ _ Hln).
      * by eapply Htodo.
    + intros j Hj. destruct (Hcover j Hj) as [(t' & ln & Hl' & Hin)|Hsome]; [|by right].
      left. destruct (decide (t' = t)) as [->|Hne].
      * rewrite Hln in Hl'. injection Hl' as <-.
        eexists t, _.
        split; [apply list_lookup_insert_eq; by eapply lookup_lt_Some|exact Hin].
      * exists t', ln. split; [|done]. by rewrite list_lookup_insert_ne.
    + intros t' ln Hl'.
      destruct (lookup_insert_lane _ _ _ _ _ _ Hln Hl') as [[-> ->]|[_ Hold]].
      * apply (Hnodup _ _ Hln).
      * by eapply Hnodup.
  - (* a store outside of the extents: there is none *)
    exfalso. destruct Hb as [_ Hcols Hrows Hk0].
    unfold view_store in Hstore. rewrite decide_True in Hstore; [done|].
    split.
    + eapply Hrows; [exact Hln|]. unfold lane_rows. simpl. by left.
    + specialize (Hk0 _ _ _ Hln). simpl in Hk0. lia.
  - (* free_state *)
    destruct (Hframe _ _ _ _ _ Hln) as (Hk & Hsg & s0 & Hs0 & Hstate & Hvals).
    set (idx := state_idx_ g) in *.
    assert (Z.to_nat k = per) as Hkn by lia.
    assert (idx < length (states_ (k_pool c)))%nat as Hidx.
    { rewrite Hlen. by eapply lookup_lt_Some. }
    assert (∀ t' td' fr, t' ≠ t → k_lanes c !! t' = Some (Lane td' (Some fr)) →
              state_idx_ (fr_gen fr) ≠ idx) as Hexcl.
    { intros t' td' fr Hne Hl' Heq. apply Hne.
      apply (pi_excl _ _ Hp t' t idx).
      - by exists td', fr.
      - by exists td, (Frame i g k). }
    pose proof (Hnodup _ _ Hln) as Hnd. unfold lane_rows in Hnd. simpl in Hnd.
    apply NoDup_cons in Hnd as [Hi_td Hnd_td].
    exists seg, (λ j, if decide (j = idx) then S (uses idx) else uses j).
    split; cbn [k_pool k_vals k_lanes states_ locks_ free_state].
    + unfold free_state. simpl. by rewrite length_insert.
    + unfold free_state. simpl. intros idx' s0' Hs0' Hl'.
      destruct (decide (idx' = idx)) as [->|Hne].
      * rewrite list_lookup_insert_eq by done.
        rewrite Hs0 in Hs0'. injection Hs0' as <-. rewrite Hstate, Hkn.
        do 2 f_equal. lia.
      * rewrite list_lookup_insert_ne in Hl' by done.
        rewrite list_lookup_insert_ne by done. by apply Hpool.
    + intros t' td' i' g' k' Hl'.
      destruct (lookup_insert_lane _ _ _ _ _ _ Hln Hl') as [[-> Heq]|[Hne Hold]]; [done|].
      pose proof (Hexcl _ _ _ Hne Hold) as Hidx'. simpl in Hidx'.
      rewrite decide_False by done. by eapply Hframe.
    + intros j idx' m Hj.
      destruct (Hseg _ _ _ Hj) as [(t' & td' & g' & k' & Hl' & Hi' & Hm)|(Hm & Hrows & Hs0')].
      * destruct (decide (t' = t)) as [->|Hne].
        -- rewrite Hln in Hl'. injection Hl' as <- <- <- <-. subst idx'. fold idx in Hm.
           right. rewrite decide_True by done. split; [lia|]. split.
           ++ intros t' ln Hl'.
              destruct (lookup_insert_lane _ _ _ _ _ _ Hln Hl') as [[-> ->]|[Hne Hold]].
              ** done.
              ** intros Hin. eapply (Hap t t'); eauto. unfold lane_rows. simpl. by left.
           ++ exists s0. split; [done|]. intros k' Hk'. subst m. apply Hvals. lia.
        -- left. exists t', td', g', k'. split; [by rewrite list_lookup_insert_ne|].
           split; [done|]. pose proof (Hexcl _ _ _ Hne Hl') as Hidx'. simpl in Hidx'.
           rewrite decide_False by congruence. done.
      * right. split; [case_decide; subst; lia|]. split; [|done].
        intros t' ln Hl'.
        destruct (lookup_insert_lane _ _ _ _ _ _ Hln Hl') as [[-> ->]|[_ Hold]].
        -- intros Hin. eapply (Hrows _ _ Hln). unfold lane_rows. simpl. by right.
        -- by eapply Hrows.
    + done.
    + intros t' ln j Hl' Hj.
      destruct (lookup_insert_lane _ _ _ _ _ _ Hln Hl') as [[-> ->]|[Hne Hold]].
      * by apply (Htodo _ _ _ Hln).
      * by eapply Htodo.
    + intros j Hj. destruct (Hcover j Hj) as [(t' & ln & Hl' & Hin)|Hsome]; [|by right].
      left. destruct (decide (t' = t)) as [->|Hne].
      * rewrite Hln in Hl'. injection Hl' as <-.
        eexists t, _.
        split; [apply list_lookup_insert_eq; by eapply lookup_lt_Some|exact Hin].
      * exists t', ln. split; [|done]. by rewrite list_lookup_insert_ne.
    + intros t' ln Hl'.
      destruct (lookup_insert_lane _ _ _ _ _ _ Hln Hl') as [[-> ->]|[_ Hold]].
      * done.
      * by eapply Hnodup.
Qed.

Lemma NoDup_concat_lookup (assign : list (list Z)) (t : nat) (td : list Z) :
  NoDup (concat assign) → assign !! t = Some td → NoDup td.
Proof.
  revert t. induction assign as [|td0 assign IH]; intros t Hnd Ht; [done|].
  simpl in Hnd. apply NoDup_app in Hnd as (Hnd0 & _ & Hnd1).
  destruct t as [|t]; simpl in Ht; [by injection Ht as <-|by eapply IH].
Qed.

Lemma start_seg_inv (assign : list (list Z)) (pm : pool_mem) (b : buffer) :
  NoDup (concat assign) →
  seg_inv draw samples pm assign ∅ (λ _, 0%nat) (start assign pm b).
Proof.
  intros Hnd. split; cbn [start k_pool k_vals].
  - done.
  - intros idx s0 Hs0 _. done.
  - intros t td i g k Hl. apply (start_lookup pick) in Hl as (? & _ & ?). done.
  - intros i idx m Hi. by rewrite lookup_empty in Hi.
  - intros i j p Hi. by rewrite lookup_empty in Hi.
  - intros. apply lookup_empty.
  - intros i Hi. left. apply elem_of_concat in Hi as (td & Hi & Htd).
    apply list_elem_of_lookup in Htd as [t Ht].
    exists t, (Lane td None). split; [|done]. apply (start_lookup pick). eauto.
  - intros t ln Hl. apply (start_lookup pick) in Hl as (td & Ht & ->).
    unfold lane_rows. simpl. by eapply NoDup_concat_lookup.
Qed.

(** Where the values of a launch that completes come from. *)
Lemma run_kernel_segments (assign : list (list Z)) (sched : list nat)
    (pm : pool_mem) (b : buffer) pm' b' evs :
  pool_ready (length assign) pm → NoDup (concat assign) →
  samples ≤ extent1 b → (∀ i, i ∈ concat assign → 0 ≤ i < extent0 b) →
  run_kernel draw acq pick samples assign sched pm b = Some (pm', b', evs) →
  ∃ (seg : gmap Z (nat * nat)) (uses : nat → nat),
    (∀ i, i ∈ concat assign →
       ∃ idx m s0, seg !! i = Some (idx, m) ∧ (m < uses idx)%nat ∧
                   states_ pm !! idx = Some s0 ∧ holds_segment draw samples b' i s0 m) ∧
    (∀ i j p, seg !! i = Some p → seg !! j = Some p → i = j) ∧
    (∀ idx s0, states_ pm !! idx = Some s0 →
       states_ pm' !! idx = Some (advance draw (uses idx * per) s0)).
Proof.
  intros Hready Hnd Hcols Hrows. unfold run_kernel.
  set (I := λ (c : kernel),
         pool_inv acq c ∧ bounds_inv samples c ∧ rows_apart c ∧
         ∃ seg uses, seg_inv draw samples pm assign seg uses c).
  assert (∀ t c c' ev, I c → steps' t c c' ev → I c') as Hkeep.
  { intros t c c' ev (Hp & Hb & Hap & seg & uses & Hsi) Hs.
    split; [by eapply steps_pool_inv|].
    split; [by eapply steps_bounds_inv|].
    split; [by eapply steps_rows_apart|].
    by eapply steps_seg_inv. }
  assert (I (start assign pm b)) as H0.
  { split; [by apply start_pool_inv|].
    split; [by apply start_bounds_inv|].
    split; [by apply start_rows_apart|].
    exists ∅, (λ _, 0%nat). by apply start_seg_inv. }
  pose proof (exec_keeps_state draw acq pick samples I Hkeep sched _ H0) as H1.
  destruct (exec' sched (start assign pm b)) as [c1 ev1]. simpl in H1.
  pose proof (exec_keeps_state draw acq pick samples I Hkeep (drain samples c1) c1 H1) as H2.
  destruct (exec' (drain samples c1) c1) as [c2 ev2]. simpl in H2.
  destruct (finished c2) eqn:Hfin; [|done].
  destruct (k_ub c2) eqn:Hub; [done|]. simpl. intros [= <- <- <-].
  destruct H2 as (Hp & _ & _ & seg & uses & [Hlen Hpool Hframe Hseg Hinj Htodo Hcover _]).
  exists seg, uses. split; [|split; [done|]].
  - intros i Hi. destruct (Hcover i Hi) as [(t & ln & Hl & Hin)|[[idx m] Hsg]].
    { rewrite (finished_lookup _ _ _ Hfin Hl) in Hin. by apply elem_of_nil in Hin. }
    destruct (Hseg _ _ _ Hsg) as [(t & td & g & k & Hl & _)|(Hm & _ & s0 & Hs0 & Hh)].
    { by pose proof (finished_lookup _ _ _ Hfin Hl). }
    by exists idx, m, s0.
  - intros idx s0 Hs0. apply Hpool; [done|].
    destruct (lookup_lt_is_Some_2 (locks_ (k_pool c2)) idx) as [[|] Hl]; [| |done].
    + rewrite <- (pi_len _ _ Hp), Hlen. by eapply lookup_lt_Some.
    + apply (pi_locked _ _ Hp) in Hl as (t & td & fr & Hl & _).
      by pose proof (finished_lookup _ _ _ Hfin Hl).
Qed.

Lemma advance_shift (n : nat) (s : gstate) :
  advance draw n (draw s).2 = advance draw (S n) s.
Proof. unfold advance. by rewrite Nat.iter_succ_r. Qed.

(** [advance] and [draw_at] are the state and the values of [draw_seq]. *)
Lemma draw_seq_draw_at (n : nat) (s : gstate) :
  draw_seq draw n s = (draw_at draw s <$> seq 0 n, advance draw n s).
Proof.
  revert s. induction n as [|n IH]; intros s; [done|].
  simpl. destruct (draw s) as [x s1] eqn:Hd. rewrite IH.
  assert (s1 = (draw s).2) as -> by (by rewrite Hd).
  rewrite advance_shift. f_equal. f_equal.
  - unfold draw_at, advance. simpl. by rewrite Hd.
  - rewrite <- fmap_S_seq, <- list_fmap_compose. apply list_fmap_ext.
    intros j m _. unfold draw_at. simpl. by rewrite advance_shift.
Qed.

(** X11. No draw is used twice.  In a launch over the rows
    [0 .. rows - 1], each dealt to exactly one lane, on a ready pool and a
    buffer that has these rows and at least [samples] columns, whatever the
    interleaving and whatever the pool (thread-indexed or contended), every
    row [i] ends up holding one whole segment of [samples] successive draws
    from the state one slot [(seg i).1] held at the start, segment number
    [(seg i).2] of that slot; two different rows hold different segments;
    and every slot ends with the state that lies behind all the segments
    drawn from it ([uses idx] of them), which is where the next launch goes
    on. *)
Theorem rows_hold_fresh_segments (rows : Z) (assign : list (list Z)) (sched : list nat)
    (pm : pool_mem) (b : buffer) :
  pool_ready (length assign) pm →
  concat assign ≡ₚ seqZ 0 rows →
  rows ≤ extent0 b → samples ≤ extent1 b →
  ∃ pm' b' evs (seg : Z → nat * nat) (uses : nat → nat),
    run_kernel draw acq pick samples assign sched pm b = Some (pm', b', evs) ∧
    (∀ i, 0 ≤ i < rows →
       ((seg i).2 < uses (seg i).1)%nat ∧
       ∃ s0, states_ pm !! (seg i).1 = Some s0 ∧
             holds_segment draw samples b' i s0 (seg i).2) ∧
    (∀ i j, 0 ≤ i < rows → 0 ≤ j < rows → seg i = seg j → i = j) ∧
    (∀ idx s0, states_ pm !! idx = Some s0 →
       states_ pm' !! idx = Some (advance draw (uses idx * Z.to_nat samples) s0)).
Proof.
  intros Hready Hperm Hrows Hcols.
  assert (∀ i, i ∈ concat assign ↔ 0 ≤ i < rows) as Hin.
  { intros i. rewrite Hperm, elem_of_seqZ. lia. }
  assert (NoDup (concat assign)) as Hnd.
  { rewrite Hperm. apply NoDup_seqZ. }
  destruct (run_kernel_complete draw acq pick samples assign sched pm b Hready Hcols)
    as (pm' & b' & evs & Hrun & _).
  { intros i Hi. apply Hin in Hi. lia. }
  destruct (run_kernel_segments assign sched pm b pm' b' evs Hready Hnd Hcols)
    as (seg & uses & Hseg & Hinj & Hpool); [|done|].
  { intros i Hi. apply Hin in Hi. lia. }
  exists pm', b', evs, (λ i, default (0%nat, 0%nat) (seg !! i)), uses.
  split; [done|]. split; [|split; [|done]].
  - intros i Hi. apply Hin in Hi.
    destruct (Hseg i Hi) as (idx & m & s0 & -> & Hm & Hs0 & Hh). simpl. eauto.
  - intros i j Hi Hj. apply Hin in Hi, Hj.
    destruct (Hseg i Hi) as (idx & m & s0 & Hsi & _).
    destruct (Hseg j Hj) as (idx' & m' & s0' & Hsj & _).
    rewrite Hsi, Hsj. simpl. intros [= -> ->]. by eapply Hinj.
Qed.

End Segments.

(** * Facts about [main] *)

Section Main_facts.
Context `{PF : Platform}.
Variable env : environment.

Lemma stores_map_mono (evs : list event) (d : gmap (Z * Z) double) (c : Z * Z) :
  is_Some (d !! c) → is_Some (stores_map evs d !! c).
Proof.
  revert d. induction evs as [|e evs IH]; intros d Hd; simpl; [done|].
  apply IH. destruct (ev_op e) as [| |i k x|]; try done.
  rewrite lookup_insert. case_decide; [eauto|done].
Qed.

Lemma stores_map_has (evs : list event) (d : gmap (Z * Z) double) t i k x :
  Event t i (OpStore i k x) ∈ evs → is_Some (stores_map evs d !! (i, k)).
Proof.
  revert d. induction evs as [|e evs IH]; intros d Hin; [by apply elem_of_nil in Hin|].
  apply elem_of_cons in Hin as [<-|Hin]; simpl; [|by apply IH].
  apply stores_map_mono. rewrite lookup_insert_eq. eauto.
Qed.

Lemma stores_map_union (evs : list event) (d : gmap (Z * Z) double) :
  stores_map evs d = stores_map evs ∅ ∪ d.
Proof.
  revert d. induction evs as [|e evs IH]; intros d; simpl.
  - by rewrite (left_id_L ∅ (∪)).
  - destruct (ev_op e) as [| |i k x|]; try apply IH.
    rewrite (IH (<[(i, k) := x]> d)), (IH (<[(i, k) := x]> ∅)).
    rewrite <- (assoc_L (∪)). f_equal.
    by rewrite insert_union_singleton_l, insert_empty, <- insert_union_singleton_l.
Qed.

(** Stores that reach every entry of a buffer leave nothing of what it
    held. *)
Lemma stores_map_covered (evs : list event) (d : gmap (Z * Z) double) :
  (∀ c, is_Some (d !! c) → is_Some (stores_map evs ∅ !! c)) →
  stores_map evs d = stores_map evs ∅.
Proof.
  intros Hcov. rewrite stores_map_union. apply map_eq. intros c.
  rewrite lookup_union. destruct (stores_map evs ∅ !! c) as [x|] eqn:Hs.
  - by destruct (d !! c).
  - destruct (d !! c) as [y|] eqn:Hd; [|done].
    destruct (Hcov c) as [z Hz]; [by rewrite Hd|]. congruence.
Qed.

Lemma launch_on_ready (lp : launch) (wd : width) (size n : Z) (pid : nat) (m : memory) :
  fill_ready size n m → pid = 0%nat ∨ pid = 1%nat →
  valid_launch (Range 0 size) lp →
  ∃ m' evs,
    launch_on lp wd n 0 pid m = Some (m', evs) ∧ fill_ready size n m' ∧
    ∃ b', views m' !! 0%nat = Some b' ∧ data b' = stores_map evs ∅.
Proof.
  intros (Hdom & (b & Hb & He0 & He1 & Hin) & (pm0 & Hpm0 & Hr0) & (pm1 & Hpm1 & Hr1))
         Hpid [Hlen Hperm].
  unfold range_indices in Hperm. simpl in Hperm.
  replace (size - 0) with size in Hperm by lia.
  assert (∃ pm, pools m !! pid = Some pm ∧ pool_ready (length (lp_assign lp)) pm)
    as (pm & Hpm & Hready).
  { rewrite Hlen. destruct Hpid as [-> | ->]; eauto. }
  assert (∀ i, i ∈ concat (lp_assign lp) ↔ 0 ≤ i < size) as Hrows.
  { intros i. rewrite Hperm, elem_of_seqZ. lia. }
  destruct (run_kernel_complete (draw_of wd) exec_space_acquisition (lp_pick lp) n
              (lp_assign lp) (lp_interleave lp) pm b Hready)
    as (pm' & b' & evs & Hrun & Hready' & _ & He0' & He1' & Hfilled & Hreplay & Hfrom).
  { lia. } { intros i Hi. apply Hrows in Hi. lia. }
  unfold launch_on. rewrite Hb. simpl. rewrite Hpm. simpl. rewrite Hrun. simpl.
  eexists _, _. split; [done|]. rewrite Hlen in Hready'.
  assert (data b' = stores_map evs ∅) as Hdata.
  { rewrite Hreplay. apply stores_map_covered. intros [i k] Hs.
    destruct (Hin i k Hs) as [Hi Hk].
    destruct (Hfilled i) with (k := k) as [_ (t & x & Hev)];
      [apply Hrows; lia|lia|].
    by eapply stores_map_has. }
  split; [|exists b'; split; [by simpl; rewrite lookup_insert_eq|done]].
  split; [|split; [|split]]; simpl.
  - rewrite dom_insert_L, Hdom. set_solver.
  - exists b'. rewrite lookup_insert_eq. split; [done|].
    split; [congruence|]. split; [congruence|].
    intros i k Hs. unfold in_extents. rewrite He0', He1'.
    destruct (Hfrom i k Hs) as [Hold|[Hnew _]]; [by apply Hin|done].
  - destruct Hpid as [-> | ->].
    + rewrite lookup_insert_eq. eauto.
    + rewrite lookup_insert_ne by done. eauto.
  - destruct Hpid as [-> | ->].
    + rewrite lookup_insert_ne by done. eauto.
    + rewrite lookup_insert_eq. eauto.
Qed.

(** *** Running [main] call by call *)

Lemma M_bind_Returned {A B} (m : M A) (f : A → M B) (w w1 : world) (a : A) :
  m w = Returned a w1 → (m ≫= f) w = f a w1.
Proof. intros H. unfold mbind, M_bind. by rewrite H. Qed.

Lemma Kokkos_initialize_run args m o tr :
  Kokkos_initialize args (World m o tr) =
  Returned (initialize_args args) (World m o (tr ++ [Kokkos_initialize_call])).
Proof. done. Qed.

Lemma Kokkos_finalize_run m o tr :
  Kokkos_finalize (World m o tr) = Returned () (World m o (tr ++ [Kokkos_finalize_call])).
Proof. done. Qed.

Lemma Kokkos_fence_run m o tr :
  Kokkos_fence (World m o tr) = Returned () (World m o (tr ++ [fence_call])).
Proof. done. Qed.

Lemma printf_run s m o tr :
  printf s (World m o tr) = Returned () (World m (o +:+ s) (tr ++ [printf_call s])).
Proof. done. Qed.

Lemma cout_run s m o tr :
  cout s (World m o tr) = Returned () (World m (o +:+ s) (tr ++ [cout_call s])).
Proof. done. Qed.

Lemma std_stoi_run s z m o tr :
  stoi s = inr z →
  std_stoi s (World m o tr) = Returned z (World m o (tr ++ [stoi_call s])).
Proof. intros H. unfold std_stoi, mbind, M_bind. simpl. by rewrite H. Qed.

Lemma std_stoi_throw s e m o tr :
  stoi s = inl e →
  std_stoi s (World m o tr) = Uncaught e (World m o (tr ++ [stoi_call s])).
Proof. intros H. unfold std_stoi, mbind, M_bind. simpl. by rewrite H. Qed.

Lemma new_pool_run {P} (mk : nat → P) wd seed m o tr :
  new_pool mk wd seed (World m o tr) =
  Returned (mk (size (pools m)))
    (World (Memory (views m) (<[size (pools m) := new_pool_mem wd seed]> (pools m))) o
       (tr ++ [Pool_ctor_call wd seed (size (pools m))])).
Proof. done. Qed.

Lemma new_view_run label n0 n1 m o tr :
  0 ≤ n0 → 0 ≤ n1 →
  new_view label n0 n1 (World m o tr) =
  Returned (View_handle (size (views m)))
    (World (Memory (<[size (views m) := Buffer n0 n1 ∅]> (views m)) (pools m)) o
       (tr ++ [View_ctor_call label n0 n1 (size (views m))])).
Proof. intros. unfold new_view. by rewrite decide_True. Qed.

Lemma new_Timer_run m o tr :
  new_Timer env (World m o tr) =
  Returned (Timer_at (env_clock env (length tr)))
    (World m o (tr ++ [Timer_ctor_call (env_clock env (length tr))])).
Proof. done. Qed.

Lemma Timer_reset_run timer m o tr :
  Timer_reset env timer (World m o tr) =
  Returned (Timer_at (env_clock env (length tr)))
    (World m o (tr ++ [Timer_reset_call (env_clock env (length tr))])).
Proof. done. Qed.

Lemma Timer_seconds_run timer m o tr :
  Timer_seconds env timer (World m o tr) =
  Returned (elapsed_seconds (env_clock env (length tr)) (m_old timer))
    (World m o (tr ++ [Timer_seconds_call (env_clock env (length tr))
                         (elapsed_seconds (env_clock env (length tr)) (m_old timer))])).
Proof. done. Qed.

(** One launch of [main] and the fence after it. *)
Lemma fill_run {P} `{GeneratorPool P} (f : generate_random P) (size : Z) m o tr :
  fill_ready size (samples f) m →
  vals f = View_handle 0 →
  pool_id (rand_pool f) = 0%nat ∨ pool_id (rand_pool f) = 1%nat →
  (∀ k, valid_launch (Range 0 size) (env_launch env k)) →
  ∃ m' evs,
    parallel_for env (Range 0 size) f (World m o tr) =
    Returned () (World m' o
                   (tr ++ [parallel_for_call (Range 0 size) pool_width
                             (pool_id (rand_pool f)) 0 (samples f)])) ∧
    launch_on (env_launch env (length tr)) pool_width (samples f) 0
      (pool_id (rand_pool f)) m = Some (m', evs) ∧
    fill_ready size (samples f) m' ∧
    ∃ b', views m' !! 0%nat = Some b' ∧ data b' = stores_map evs ∅.
Proof.
  intros Hready Hvals Hpid Hvalid.
  destruct (launch_on_ready (env_launch env (length tr)) pool_width size (samples f)
              (pool_id (rand_pool f)) m Hready Hpid (Hvalid _))
    as (m' & evs & Hlaunch & Hready' & Hb').
  exists m', evs. split; [|done].
  unfold parallel_for. simpl.
  rewrite decide_True by apply Hvalid. rewrite Hvals. simpl. by rewrite Hlaunch.
Qed.

Lemma fills_run {P} `{GeneratorPool P} (f : generate_random P) (size : Z) (k : nat) m o tr :
  fill_ready size (samples f) m →
  vals f = View_handle 0 →
  pool_id (rand_pool f) = 0%nat ∨ pool_id (rand_pool f) = 1%nat →
  (∀ k, valid_launch (Range 0 size) (env_launch env k)) →
  ∃ m',
    repeat_M k (parallel_for env (Range 0 size) f ;; Kokkos_fence) (World m o tr) =
    Returned () (World m' o
      (tr ++ concat (replicate k
                       (fill_calls size (samples f) pool_width (pool_id (rand_pool f)))))) ∧
    fill_ready size (samples f) m'.
Proof.
  intros Hready Hvals Hpid Hvalid. revert m tr Hready.
  induction k as [|k IH]; intros m tr Hready.
  - exists m. simpl. by rewrite app_nil_r.
  - destruct (fill_run f size m o tr Hready Hvals Hpid Hvalid)
      as (m1 & evs & Hrun & _ & Hready1 & _).
    destruct (IH m1 ((tr ++ [parallel_for_call (Range 0 size) pool_width
                                (pool_id (rand_pool f)) 0 (samples f)]) ++ [fence_call])
                Hready1) as (m' & Hrest & Hready').
    exists m'. split; [|done].
    change (repeat_M (S k) ?body) with (body ;; repeat_M k body).
    erewrite M_bind_Returned;
      [|erewrite M_bind_Returned; [apply Kokkos_fence_run|apply Hrun]].
    rewrite Hrest. unfold fill_calls. simpl. by rewrite <- !app_assoc.
Qed.

Lemma string_app_assoc (a b c : string) : (a +:+ b) +:+ c = a +:+ b +:+ c.
Proof.
  induction a as [|x a IH]; [done|].
  change (String x ((a +:+ b) +:+ c) = String x (a +:+ b +:+ c)). by rewrite IH.
Qed.

Lemma out_three_lines (a b c : string) : (("" +:+ a) +:+ b) +:+ c = a +:+ b +:+ c.
Proof. change ("" +:+ a) with a. apply string_app_assoc. Qed.

Ltac run_call lem :=
  etrans; [apply M_bind_Returned; lem|]; cbv beta.

(** The run of [main] when the argument count is not three. *)
Lemma main_usage_run (args : list string) :
  length (initialize_args args) ≠ 3%nat →
  main env args initial_world =
  Returned 0 (World (Memory ∅ ∅) usage_line
                [Kokkos_initialize_call; printf_call usage_line; Kokkos_finalize_call]).
Proof.
  intros Hargc. unfold main, initial_world.
  run_call ltac:(apply Kokkos_initialize_run).
  rewrite decide_True by done.
  run_call ltac:(apply printf_run).
  run_call ltac:(apply Kokkos_finalize_run).
  done.
Qed.

Lemma main_memory_ready (rows n : Z) :
  fill_ready rows n
    (Memory {[0%nat := Buffer rows n ∅]}
       (<[1%nat := new_pool_mem W1024 5374857]> {[0%nat := new_pool_mem W64 5374857]})).
Proof.
  split; [|split; [|split]]; simpl.
  - by rewrite dom_singleton_L.
  - eexists. rewrite lookup_singleton_eq. split; [done|]. simpl.
    split; [done|]. split; [done|]. intros i k Hs.
    rewrite lookup_empty in Hs. by destruct Hs.
  - eexists. rewrite lookup_insert_ne by done. rewrite lookup_singleton_eq.
    split; [done|]. apply new_pool_mem_ready.
  - eexists. rewrite lookup_insert_eq. split; [done|]. apply new_pool_mem_ready.
Qed.

(** The run of [main] with two arguments that convert to integers that are
    not negative. *)
Lemma main_valid_run (args : list string) (size n : Z) :
  length (initialize_args args) = 3%nat →
  stoi (initialize_args args !!! 1%nat) = inr size →
  stoi (initialize_args args !!! 2%nat) = inr n →
  0 ≤ size → 0 ≤ n →
  (∀ k, valid_launch (Range 0 size) (env_launch env k)) →
  ∃ m m_before evs b,
    main env args initial_world =
    Returned 0 (World m (exec_space_line +:+ time_64_line env +:+ time_1024_line env)
                  (valid_trace env (initialize_args args) size n)) ∧
    fill_ready size n m ∧
    launch_on (env_launch env 25) W1024 n 0 1 m_before = Some (m, evs) ∧
    views m !! 0%nat = Some b ∧ data b = stores_map evs ∅.
Proof.
  intros Hargc Hsize Hn Hsize0 Hn0 Hvalid.
  pose proof (main_memory_ready size n) as Hready0.
  set (m0 := Memory _ _) in Hready0.
  set (f64 := Functor (View_handle 0) (XorShift64_handle 0) n).
  set (f1024 := Functor (View_handle 0) (XorShift1024_handle 1) n).
  set (tr8 := [Kokkos_initialize_call; cout_call exec_space_line;
               stoi_call (initialize_args args !!! 1%nat);
               stoi_call (initialize_args args !!! 2%nat);
               Pool_ctor_call W64 5374857 0; Pool_ctor_call W1024 5374857 1;
               View_ctor_call "Vals" size n 0; Timer_ctor_call (env_clock env 7)]).
  assert (pool_id (rand_pool f64) = 0%nat ∨ pool_id (rand_pool f64) = 1%nat) as H64
    by (by left).
  assert (pool_id (rand_pool f1024) = 0%nat ∨ pool_id (rand_pool f1024) = 1%nat) as H1024
    by (by right).
  destruct (fills_run f64 size 5 m0 exec_space_line tr8 Hready0 eq_refl H64
              Hvalid) as (m5 & Hrun5 & Hready5).
  set (tr18 := tr8 ++ _) in Hrun5.
  destruct (fill_run f64 size m5 exec_space_line
              (tr18 ++ [Timer_reset_call (env_clock env 18)])
              Hready5 eq_refl H64 Hvalid)
    as (m6 & evs6 & Hrun6 & _ & Hready6 & _).
  set (tr20 := (tr18 ++ _) ++ _) in Hrun6.
  destruct (fill_run f1024 size m6 exec_space_line
              (tr20 ++ [fence_call; Timer_seconds_call (env_clock env 21) (time_64 env)])
              Hready6 eq_refl H1024 Hvalid)
    as (m7 & evs7 & Hrun7 & _ & Hready7 & _).
  set (tr23 := (tr20 ++ _) ++ _) in Hrun7.
  destruct (fill_run f1024 size m7 exec_space_line
              (tr23 ++ [fence_call; Timer_reset_call (env_clock env 24)])
              Hready7 eq_refl H1024 Hvalid)
    as (m8 & evs8 & Hrun8 & Hlaunch8 & Hready8 & b8 & Hb8 & Hdata8).
  exists m8, m7, evs8, b8. split; [|done].
  unfold main, initial_world.
  run_call ltac:(apply Kokkos_initialize_run).
  rewrite decide_False by (intros ?; done).
  etrans; [apply M_bind_Returned|].
  { run_call ltac:(apply cout_run).
    run_call ltac:(by apply std_stoi_run).
    run_call ltac:(by apply std_stoi_run).
    run_call ltac:(apply new_pool_run).
    run_call ltac:(apply new_pool_run).
    run_call ltac:(by apply new_view_run).
    run_call ltac:(apply new_Timer_run).
    cbn [views pools].
    rewrite !map_size_empty, !insert_empty, !map_size_singleton.
    run_call ltac:(apply Hrun5).
    run_call ltac:(apply Timer_reset_run).
    run_call ltac:(apply Hrun6).
    run_call ltac:(apply Kokkos_fence_run).
    run_call ltac:(apply Timer_seconds_run).
    rewrite <- !(app_assoc tr20).
    run_call ltac:(apply Hrun7).
    run_call ltac:(apply Kokkos_fence_run).
    run_call ltac:(apply Timer_reset_run).
    rewrite <- !(app_assoc tr23).
    run_call ltac:(apply Hrun8).
    run_call ltac:(apply Kokkos_fence_run).
    run_call ltac:(apply Timer_seconds_run).
    run_call ltac:(apply cout_run).
    apply cout_run. }
  cbv beta.
  run_call ltac:(apply Kokkos_finalize_run).
  f_equal. f_equal. apply out_three_lines.
Qed.

(** C4. When the argument count [Kokkos::initialize] leaves is not three
    (the program name and two arguments), [main] returns, and all it has
    done is: initialize, print the usage line, finalize.  Nothing else is
    printed, no view and no pool has been made, the memory is empty. *)
Theorem wrong_argument_count (args : list string) :
  length (initialize_args args) ≠ 3%nat →
  ∃ w,
    main env args initial_world = Returned 0 w ∧
    w_out w = "Please pass two integers on the command line" +:+ endl ∧
    w_trace w = [Kokkos_initialize_call;
                 printf_call ("Please pass two integers on the command line" +:+ endl);
                 Kokkos_finalize_call] ∧
    views (w_mem w) = ∅ ∧ pools (w_mem w) = ∅.
Proof.
  intros Hargc. eexists. split; [by apply main_usage_run|]. done.
Qed.

(** C7, as amended. With two arguments that convert to integers that are
    not negative, [main] returns after exactly the calls of [valid_trace].
    Their stages are, in this order: initialization, the two conversions,
    the construction of the 64-bit pool and of the 1024-bit pool, the
    allocation of the buffer, five fills with the 64-bit pool, a fill with
    the 64-bit pool between a start and a reading of the timer, a fill with
    the 1024-bit pool, a fill with the 1024-bit pool between a start and a
    reading of the timer, teardown.  The order the specification gives
    occurs in it once the construction of the pools is put before the
    allocation of the buffer, and does not occur in it as it stands. *)
Theorem stages_in_order (args : list string) (size n : Z) :
  length (initialize_args args) = 3%nat →
  stoi (initialize_args args !!! 1%nat) = inr size →
  stoi (initialize_args args !!! 2%nat) = inr n →
  0 ≤ size → 0 ≤ n →
  (∀ k, valid_launch (Range 0 size) (env_launch env k)) →
  ∃ w,
    main env args initial_world = Returned 0 w ∧
    w_trace w = valid_trace env (initialize_args args) size n ∧
    omap stage_of (w_trace w) =
      [Initialize; Parse; Parse; Construct_pool W64; Construct_pool W1024; Allocate] ++
      replicate 5 (Fill W64) ++
      [Timer_start; Fill W64; Timer_read;
       Fill W1024;
       Timer_start; Fill W1024; Timer_read; Teardown] ∧
    in_order pools_first_order (omap stage_of (w_trace w)) = true ∧
    in_order spec_order (omap stage_of (w_trace w)) = false.
Proof.
  intros Hargc Hsize Hn Hsize0 Hn0 Hvalid.
  destruct (main_valid_run args size n Hargc Hsize Hn Hsize0 Hn0 Hvalid)
    as (m & _ & _ & _ & Hrun & _).
  eexists. split; [exact Hrun|]. done.
Qed.

(** C8. With two arguments that convert to integers that are not negative,
    what [main] has written to standard output when it returns is three
    lines: "Exec space: " and the name of the execution space; "Time 64: "
    and the seconds between the start of the timer before the timed fill with
    the 64-bit pool and its reading after the fence of that fill; "Time 1024: "
    and the same for the timed fill with the 1024-bit pool. *)
Theorem three_lines_of_output (args : list string) (size n : Z) :
  length (initialize_args args) = 3%nat →
  stoi (initialize_args args !!! 1%nat) = inr size →
  stoi (initialize_args args !!! 2%nat) = inr n →
  0 ≤ size → 0 ≤ n →
  (∀ k, valid_launch (Range 0 size) (env_launch env k)) →
  ∃ w t0 t1 t2 t3,
    main env args initial_world = Returned 0 w ∧
    w_out w =
      ("Exec space: " +:+ exec_space_name +:+ endl) +:+
      ("Time 64: " +:+ show_double (elapsed_seconds t1 t0) +:+ endl) +:+
      ("Time 1024: " +:+ show_double (elapsed_seconds t3 t2) +:+ endl) ∧
    take 4 (drop 18 (w_trace w)) =
      [Timer_reset_call t0; parallel_for_call (Range 0 size) W64 0 0 n; fence_call;
       Timer_seconds_call t1 (elapsed_seconds t1 t0)] ∧
    take 4 (drop 24 (w_trace w)) =
      [Timer_reset_call t2; parallel_for_call (Range 0 size) W1024 1 0 n; fence_call;
       Timer_seconds_call t3 (elapsed_seconds t3 t2)] ∧
    length (filter (λ c, is_output c = true) (w_trace w)) = 3%nat.
Proof.
  intros Hargc Hsize Hn Hsize0 Hn0 Hvalid.
  destruct (main_valid_run args size n Hargc Hsize Hn Hsize0 Hn0 Hvalid)
    as (m & _ & _ & _ & Hrun & _).
  eexists _, (env_clock env 18), (env_clock env 21), (env_clock env 24), (env_clock env 27).
  split; [exact Hrun|]. done.
Qed.

Lemma main_Returned (args : list string) (code : Z) (w : world) :
  main env args initial_world = Returned code w →
  code = 0 ∧ last (w_trace w) = Some Kokkos_finalize_call.
Proof.
  unfold main, initial_world.
  erewrite M_bind_Returned by apply Kokkos_initialize_run.
  match goal with
  | |- (?body ≫= ?k) ?w0 = _ → _ =>
      unfold mbind at 1; unfold M_bind at 1; destruct (body w0) as [[] [m o tr]| |]
  end; try done.
  erewrite M_bind_Returned by apply Kokkos_finalize_run.
  intros [= <- <-]. split; [done|]. apply last_snoc.
Qed.

Lemma M_bind_Uncaught {A B} (m : M A) (f : A → M B) (w w1 : world) (e : exn) :
  m w = Uncaught e w1 → (m ≫= f) w = Uncaught e w1.
Proof. intros H. unfold mbind, M_bind. by rewrite H. Qed.

(** The runs of [main] in which [std::stoi] throws (lines 93 and 94). *)
Lemma main_first_unconverted (args : list string) (e : exn) :
  length (initialize_args args) = 3%nat →
  stoi (initialize_args args !!! 1%nat) = inl e →
  main env args initial_world =
  Uncaught e (World (Memory ∅ ∅) exec_space_line
                [Kokkos_initialize_call; cout_call exec_space_line;
                 stoi_call (initialize_args args !!! 1%nat)]).
Proof.
  intros Hargc H1. unfold main, initial_world.
  run_call ltac:(apply Kokkos_initialize_run).
  rewrite decide_False by (intros ?; done).
  apply M_bind_Uncaught.
  run_call ltac:(apply cout_run).
  apply M_bind_Uncaught. etrans; [by apply std_stoi_throw|reflexivity].
Qed.

Lemma main_second_unconverted (args : list string) (size : Z) (e : exn) :
  length (initialize_args args) = 3%nat →
  stoi (initialize_args args !!! 1%nat) = inr size →
  stoi (initialize_args args !!! 2%nat) = inl e →
  main env args initial_world =
  Uncaught e (World (Memory ∅ ∅) exec_space_line
                [Kokkos_initialize_call; cout_call exec_space_line;
                 stoi_call (initialize_args args !!! 1%nat);
                 stoi_call (initialize_args args !!! 2%nat)]).
Proof.
  intros Hargc H1 H2. unfold main, initial_world.
  run_call ltac:(apply Kokkos_initialize_run).
  rewrite decide_False by (intros ?; done).
  apply M_bind_Uncaught.
  run_call ltac:(apply cout_run).
  run_call ltac:(by apply std_stoi_run).
  apply M_bind_Uncaught. etrans; [by apply std_stoi_throw|reflexivity].
Qed.

(** C9, as amended. Every run of [main] that returns, returns 0 and has
    called [Kokkos::finalize] last; [main] does return when the argument
    count is not three, and when it is three and the two arguments convert to
    integers that are not negative.  Not every run that ends returns: with
    three arguments of which the first or, the first one having converted,
    the second does not convert, the run ends in the exception of
    [std::stoi], which nothing catches, and [Kokkos::finalize] has not been
    called. *)
Theorem exit_code_zero (args : list string) :
  (∀ code w, main env args initial_world = Returned code w →
             code = 0 ∧ last (w_trace w) = Some Kokkos_finalize_call) ∧
  (length (initialize_args args) ≠ 3%nat →
   ∃ w, main env args initial_world = Returned 0 w) ∧
  (∀ size n,
     length (initialize_args args) = 3%nat →
     stoi (initialize_args args !!! 1%nat) = inr size →
     stoi (initialize_args args !!! 2%nat) = inr n →
     0 ≤ size → 0 ≤ n →
     (∀ k, valid_launch (Range 0 size) (env_launch env k)) →
     ∃ w, main env args initial_world = Returned 0 w) ∧
  (∀ e,
     length (initialize_args args) = 3%nat →
     stoi (initialize_args args !!! 1%nat) = inl e ∨
     (∃ size, stoi (initialize_args args !!! 1%nat) = inr size ∧
              stoi (initialize_args args !!! 2%nat) = inl e) →
     ∃ w, main env args initial_world = Uncaught e w ∧
          Kokkos_finalize_call ∉ w_trace w).
Proof.
  split; [|split; [|split]].
  - apply main_Returned.
  - intros Hargc. eexists. by apply main_usage_run.
  - intros size n Hargc Hsize Hn Hsize0 Hn0 Hvalid.
    destruct (main_valid_run args size n Hargc Hsize Hn Hsize0 Hn0 Hvalid)
      as (m & _ & _ & _ & Hrun & _).
    eexists. exact Hrun.
  - intros e Hargc [H1|(size & H1 & H2)].
    + rewrite (main_first_unconverted args e Hargc H1). eexists. split; [done|].
      simpl. intros Hin.
      repeat (apply elem_of_cons in Hin as [Hin|Hin]; [done|]).
      by apply elem_of_nil in Hin.
    + rewrite (main_second_unconverted args size e Hargc H1 H2). eexists. split; [done|].
      simpl. intros Hin.
      repeat (apply elem_of_cons in Hin as [Hin|Hin]; [done|]).
      by apply elem_of_nil in Hin.
Qed.

(** C10. With two arguments that convert to integers that are not negative:
    - calls 22 to 27 of the run are a fill with the 1024-bit pool and its
      fence, then the start of the timer, then a second fill with the same
      pool and its fence, then the reading of the timer; the seconds recorded
      for the 1024-bit pool are those between that start and that reading, so
      the first of the two fills is not in them;
    - the run allocates one buffer, view 0, every fill is on view 0, and view
      0 is the only buffer in memory at the end;
    - what that buffer holds at the end is the stores of the last fill, call
      25, made on an empty buffer. *)
Theorem second_pool_warm_up (args : list string) (size n : Z) :
  length (initialize_args args) = 3%nat →
  stoi (initialize_args args !!! 1%nat) = inr size →
  stoi (initialize_args args !!! 2%nat) = inr n →
  0 ≤ size → 0 ≤ n →
  (∀ k, valid_launch (Range 0 size) (env_launch env k)) →
  ∃ w t2 t3 m_before evs b,
    main env args initial_world = Returned 0 w ∧
    take 6 (drop 22 (w_trace w)) =
      [parallel_for_call (Range 0 size) W1024 1 0 n; fence_call;
       Timer_reset_call t2;
       parallel_for_call (Range 0 size) W1024 1 0 n; fence_call;
       Timer_seconds_call t3 (elapsed_seconds t3 t2)] ∧
    t2 = env_clock env 24 ∧ t3 = env_clock env 27 ∧
    omap stage_of (drop 28 (w_trace w)) = [Teardown] ∧
    length (filter (λ c, stage_of c = Some (Fill W1024)) (w_trace w)) = 2%nat ∧
    length (filter (λ c, stage_of c = Some Allocate) (w_trace w)) = 1%nat ∧
    Forall (uses_view 0) (w_trace w) ∧
    dom (views (w_mem w)) = {[0%nat]} ∧
    launch_on (env_launch env 25) W1024 n 0 1 m_before = Some (w_mem w, evs) ∧
    views (w_mem w) !! 0%nat = Some b ∧
    data b = stores_map evs ∅.
Proof.
  intros Hargc Hsize Hn Hsize0 Hn0 Hvalid.
  destruct (main_valid_run args size n Hargc Hsize Hn Hsize0 Hn0 Hvalid)
    as (m & m_before & evs & b & Hrun & Hready & Hlaunch & Hb & Hdata).
  eexists _, (env_clock env 24), (env_clock env 27), m_before, evs, b.
  split; [exact Hrun|]. simpl.
  split; [done|]. split; [done|]. split; [done|]. split; [done|].
  split; [done|]. split; [done|].
  split; [by repeat constructor|].
  split; [apply Hready|]. done.
Qed.

End Main_facts.

(** * More facts about [main] *)

Section Main_more.
Context `{PF : Platform}.

Ltac run_call lem :=
  etrans; [apply M_bind_Returned; lem|]; cbv beta.

(** X8. With three arguments of which the first or, the first one having
    converted, the second does not convert to an [int], [main] does not
    return: it ends in the exception [std::stoi] throws, which nothing
    catches.  By then it has printed the line with the execution space and
    nothing else, it has constructed no pool and allocated no buffer, and it
    has not called [Kokkos::finalize]: all it has called is
    [Kokkos::initialize], the output and [std::stoi]. *)
Theorem conversion_failure (env : environment) (args : list string) (e : exn) :
  length (initialize_args args) = 3%nat →
  stoi (initialize_args args !!! 1%nat) = inl e ∨
  (∃ size, stoi (initialize_args args !!! 1%nat) = inr size ∧
           stoi (initialize_args args !!! 2%nat) = inl e) →
  ∃ w,
    main env args initial_world = Uncaught e w ∧
    w_out w = "Exec space: " +:+ exec_space_name +:+ endl ∧
    views (w_mem w) = ∅ ∧ pools (w_mem w) = ∅ ∧
    Kokkos_finalize_call ∉ w_trace w ∧
    Forall (λ c, stage_of c = Some Initialize ∨ stage_of c = Some Parse ∨ is_output c = true)
      (w_trace w).
Proof.
  intros Hargc [H1|(size & H1 & H2)].
  - rewrite (main_first_unconverted env args e Hargc H1).
    eexists. split; [done|]. simpl.
    repeat split; try done.
    + intros Hin. repeat (apply elem_of_cons in Hin as [Hin|Hin]; [done|]).
      by apply elem_of_nil in Hin.
    + repeat (constructor; [simpl; auto|]). constructor.
  - rewrite (main_second_unconverted env args size e Hargc H1 H2).
    eexists. split; [done|]. simpl.
    repeat split; try done.
    + intros Hin. repeat (apply elem_of_cons in Hin as [Hin|Hin]; [done|]).
      by apply elem_of_nil in Hin.
    + repeat (constructor; [simpl; auto|]). constructor.
Qed.

(** The run of [main] with two arguments that convert, and the memory it
    leaves: that of its eight launches, one after the other, on the memory
    as allocated. *)
Lemma main_memory_run (env : environment) (args : list string) (size n : Z) :
  length (initialize_args args) = 3%nat →
  stoi (initialize_args args !!! 1%nat) = inr size →
  stoi (initialize_args args !!! 2%nat) = inr n →
  0 ≤ size → 0 ≤ n →
  (∀ k, valid_launch (Range 0 size) (env_launch env k)) →
  ∃ m o tr,
    launch_all env n main_launches (allocated size n) = Some m ∧
    main env args initial_world = Returned 0 (World m o tr).
Proof.
  intros Hargc Hsize Hn Hsize0 Hn0 Hvalid.
  pose proof (main_memory_ready size n) as Hready0.
  change (Memory _ _) with (allocated size n) in Hready0.
  set (f64 := Functor (View_handle 0) (XorShift64_handle 0) n).
  set (f1024 := Functor (View_handle 0) (XorShift1024_handle 1) n).
  set (o := "" +:+ "Exec space: " +:+ exec_space_name +:+ endl).
  set (tr8 := [Kokkos_initialize_call; cout_call ("Exec space: " +:+ exec_space_name +:+ endl);
               stoi_call (initialize_args args !!! 1%nat);
               stoi_call (initialize_args args !!! 2%nat);
               Pool_ctor_call W64 5374857 0; Pool_ctor_call W1024 5374857 1;
               View_ctor_call "Vals" size n 0; Timer_ctor_call (env_clock env 7)]).
  set (pf64 := parallel_for_call (Range 0 size) W64 0 0 n).
  set (pf1024 := parallel_for_call (Range 0 size) W1024 1 0 n).
  assert (pool_id (rand_pool f64) = 0%nat ∨ pool_id (rand_pool f64) = 1%nat) as H64
    by (by left).
  assert (pool_id (rand_pool f1024) = 0%nat ∨ pool_id (rand_pool f1024) = 1%nat) as H1024
    by (by right).
  destruct (fill_run env f64 size _ o tr8 Hready0 eq_refl H64 Hvalid)
    as (m1 & evs1 & Hrun1 & Hl1 & Hready1 & _).
  set (tr10 := (tr8 ++ [pf64]) ++ [fence_call]).
  destruct (fill_run env f64 size m1 o tr10 Hready1 eq_refl H64 Hvalid)
    as (m2 & evs2 & Hrun2 & Hl2 & Hready2 & _).
  set (tr12 := (tr10 ++ [pf64]) ++ [fence_call]).
  destruct (fill_run env f64 size m2 o tr12 Hready2 eq_refl H64 Hvalid)
    as (m3 & evs3 & Hrun3 & Hl3 & Hready3 & _).
  set (tr14 := (tr12 ++ [pf64]) ++ [fence_call]).
  destruct (fill_run env f64 size m3 o tr14 Hready3 eq_refl H64 Hvalid)
    as (m4 & evs4 & Hrun4 & Hl4 & Hready4 & _).
  set (tr16 := (tr14 ++ [pf64]) ++ [fence_call]).
  destruct (fill_run env f64 size m4 o tr16 Hready4 eq_refl H64 Hvalid)
    as (m5 & evs5 & Hrun5 & Hl5 & Hready5 & _).
  set (tr18 := (tr16 ++ [pf64]) ++ [fence_call]).
  set (tr19 := tr18 ++ [Timer_reset_call (env_clock env (length tr18))]).
  destruct (fill_run env f64 size m5 o tr19 Hready5 eq_refl H64 Hvalid)
    as (m6 & evs6 & Hrun6 & Hl6 & Hready6 & _).
  set (tr21 := (tr19 ++ [pf64]) ++ [fence_call]).
  set (t64 := elapsed_seconds (env_clock env (length tr21)) (env_clock env (length tr18))).
  set (tr22 := tr21 ++ [Timer_seconds_call (env_clock env (length tr21)) t64]).
  destruct (fill_run env f1024 size m6 o tr22 Hready6 eq_refl H1024 Hvalid)
    as (m7 & evs7 & Hrun7 & Hl7 & Hready7 & _).
  set (tr24 := (tr22 ++ [pf1024]) ++ [fence_call]).
  set (tr25 := tr24 ++ [Timer_reset_call (env_clock env (length tr24))]).
  destruct (fill_run env f1024 size m7 o tr25 Hready7 eq_refl H1024 Hvalid)
    as (m8 & evs8 & Hrun8 & Hl8 & Hready8 & _).
  exists m8. eexists _, _. split.
  { change (length tr8) with 8%nat in Hl1. change (length tr10) with 10%nat in Hl2.
    change (length tr12) with 12%nat in Hl3. change (length tr14) with 14%nat in Hl4.
    change (length tr16) with 16%nat in Hl5. change (length tr19) with 19%nat in Hl6.
    change (length tr22) with 22%nat in Hl7. change (length tr25) with 25%nat in Hl8.
    unfold main_launches, launch_all.
    change (@pool_width _ XorShift64_GeneratorPool) with W64 in *.
    change (@pool_width _ XorShift1024_GeneratorPool) with W1024 in *.
    cbn [samples f64 f1024 rand_pool pool_id XorShift64_GeneratorPool
         XorShift1024_GeneratorPool pool64_id pool1024_id] in *.
    rewrite Hl1. cbn [mbind option_bind]. rewrite Hl2. cbn [mbind option_bind].
    rewrite Hl3. cbn [mbind option_bind]. rewrite Hl4. cbn [mbind option_bind].
    rewrite Hl5. cbn [mbind option_bind]. rewrite Hl6. cbn [mbind option_bind].
    rewrite Hl7. cbn [mbind option_bind]. rewrite Hl8. done. }
  unfold main, initial_world.
  run_call ltac:(apply Kokkos_initialize_run).
  rewrite decide_False by (intros ?; done).
  etrans; [apply M_bind_Returned|].
  { run_call ltac:(apply cout_run).
    run_call ltac:(by apply std_stoi_run).
    run_call ltac:(by apply std_stoi_run).
    run_call ltac:(apply new_pool_run).
    run_call ltac:(apply new_pool_run).
    run_call ltac:(by apply new_view_run).
    run_call ltac:(apply new_Timer_run).
    cbn [views pools].
    rewrite !map_size_empty, !insert_empty, !map_size_singleton.
    etrans; [apply M_bind_Returned|].
    { cbn [repeat_M].
      run_call ltac:(run_call ltac:(apply Hrun1); apply Kokkos_fence_run).
      run_call ltac:(run_call ltac:(apply Hrun2); apply Kokkos_fence_run).
      run_call ltac:(run_call ltac:(apply Hrun3); apply Kokkos_fence_run).
      run_call ltac:(run_call ltac:(apply Hrun4); apply Kokkos_fence_run).
      run_call ltac:(run_call ltac:(apply Hrun5); apply Kokkos_fence_run).
      reflexivity. }
    cbv beta.
    run_call ltac:(apply Timer_reset_run).
    run_call ltac:(apply Hrun6).
    run_call ltac:(apply Kokkos_fence_run).
    run_call ltac:(apply Timer_seconds_run).
    run_call ltac:(apply Hrun7).
    run_call ltac:(apply Kokkos_fence_run).
    run_call ltac:(apply Timer_reset_run).
    run_call ltac:(apply Hrun8).
    run_call ltac:(apply Kokkos_fence_run).
    run_call ltac:(apply Timer_seconds_run).
    run_call ltac:(apply cout_run).
    apply cout_run. }
  cbv beta.
  run_call ltac:(apply Kokkos_finalize_run).
  reflexivity.
Qed.

End Main_more.

Section Main_memory.
Context `{PF : Platform}.

Lemma launch_on_no_work (lp : launch) (wd : width) (size n : Z) (pid : nat) (m : memory) :
  fill_ready size n m → pid = 0%nat ∨ pid = 1%nat →
  valid_launch (Range 0 size) lp → size = 0 ∨ n ≤ 0 →
  ∃ evs, launch_on lp wd n 0 pid m = Some (m, evs).
Proof.
  intros (_ & (b & Hb & _) & (pm0 & Hpm0 & Hr0) & (pm1 & Hpm1 & Hr1)) Hpid [Hlen Hperm] Hno.
  assert (∃ pm, pools m !! pid = Some pm ∧ pool_ready (length (lp_assign lp)) pm)
    as (pm & Hpm & Hready).
  { rewrite Hlen. destruct Hpid as [-> | ->]; eauto. }
  assert (∃ evs, run_kernel (draw_of wd) exec_space_acquisition (lp_pick lp) n
                   (lp_assign lp) (lp_interleave lp) pm b = Some (pm, b, evs))
    as [evs Hrun].
  { destruct Hno as [-> | Hn].
    - exists []. apply run_kernel_no_rows. by apply Permutation_nil_r.
    - by apply run_kernel_no_samples. }
  exists evs. unfold launch_on. rewrite Hb. simpl. rewrite Hpm. simpl. rewrite Hrun. simpl.
  rewrite !insert_id by done. by destruct m.
Qed.

Lemma launch_all_no_work (env : environment) (size n : Z)
    (ls : list (nat * width * nat)) (m : memory) :
  fill_ready size n m → Forall (λ l, l.2 = 0%nat ∨ l.2 = 1%nat) ls →
  (∀ k, valid_launch (Range 0 size) (env_launch env k)) → size = 0 ∨ n ≤ 0 →
  launch_all env n ls m = Some m.
Proof.
  intros Hready Hls Hvalid Hno. induction Hls as [|[[k wd] pid] ls Hpid _ IH]; [done|].
  simpl. destruct (launch_on_no_work (env_launch env k) wd size n pid m Hready Hpid
                     (Hvalid k) Hno) as [evs ->].
  simpl. exact IH.
Qed.

Lemma main_launches_pools : Forall (λ l, l.2 = 0%nat ∨ l.2 = 1%nat) main_launches.
Proof. repeat (constructor; [simpl; auto|]). constructor. Qed.

(** X9. With no rows or no samples ([size = 0] or [samples = 0]) [main]
    makes all its calls, the eight launches among them, and returns 0, and
    no launch has drawn a value: the buffer holds no entry and the two pools
    hold the states they were constructed with. *)
Theorem nothing_to_fill (env : environment) (args : list string) (size n : Z) :
  length (initialize_args args) = 3%nat →
  stoi (initialize_args args !!! 1%nat) = inr size →
  stoi (initialize_args args !!! 2%nat) = inr n →
  0 ≤ size → 0 ≤ n → size = 0 ∨ n = 0 →
  (∀ k, valid_launch (Range 0 size) (env_launch env k)) →
  ∃ w,
    main env args initial_world = Returned 0 w ∧
    w_trace w = valid_trace env (initialize_args args) size n ∧
    length (filter (λ c, is_launch c = true) (w_trace w)) = 8%nat ∧
    views (w_mem w) = {[0%nat := Buffer size n ∅]} ∧
    pools (w_mem w) =
      <[1%nat := new_pool_mem W1024 5374857]> {[0%nat := new_pool_mem W64 5374857]}.
Proof.
  intros Hargc Hsize Hn Hsize0 Hn0 Hno Hvalid.
  destruct (main_memory_run env args size n Hargc Hsize Hn Hsize0 Hn0 Hvalid)
    as (m & o & tr & Hall & Hrun).
  destruct (main_valid_run env args size n Hargc Hsize Hn Hsize0 Hn0 Hvalid)
    as (m' & _ & _ & _ & Hrun' & _).
  rewrite Hrun in Hrun'. injection Hrun' as _ _ ->.
  rewrite (launch_all_no_work env size n main_launches (allocated size n)) in Hall.
  - injection Hall as <-. eexists. split; [exact Hrun|]. done.
  - apply main_memory_ready.
  - apply main_launches_pools.
  - done.
  - destruct Hno as [?|?]; [by left|right; lia].
Qed.

(** On a thread-indexed pool the memory a launch leaves depends on how the
    indices are dealt to the lanes only. *)
Lemma launch_on_any_sched (lp1 lp2 : launch) (wd : width) (size n : Z) (pid : nat)
    (m : memory) :
  exec_space_acquisition = ThreadIndexed →
  fill_ready size n m → pid = 0%nat ∨ pid = 1%nat →
  valid_launch (Range 0 size) lp1 → lp_assign lp2 = lp_assign lp1 →
  fst <$> launch_on lp1 wd n 0 pid m = fst <$> launch_on lp2 wd n 0 pid m.
Proof.
  intros Hacq (_ & (b & Hb & _) & (pm0 & Hpm0 & Hr0) & (pm1 & Hpm1 & Hr1)) Hpid
         [Hlen Hperm] Hassign.
  assert (∃ pm, pools m !! pid = Some pm ∧ pool_ready (length (lp_assign lp1)) pm)
    as (pm & Hpm & Hready).
  { rewrite Hlen. destruct Hpid as [-> | ->]; eauto. }
  assert (NoDup (concat (lp_assign lp1))) as Hnd.
  { rewrite Hperm. apply NoDup_seqZ. }
  unfold launch_on. rewrite Hb. simpl. rewrite Hpm. simpl. rewrite Hacq, Hassign.
  pose proof (run_kernel_any_sched (draw_of wd) (lp_pick lp1) n (lp_assign lp1)
                (lp_interleave lp1) pm b Hready Hnd) as H1.
  pose proof (run_kernel_any_sched (draw_of wd) (lp_pick lp1) n (lp_assign lp1)
                (lp_interleave lp2) pm b Hready Hnd) as H2.
  rewrite (run_kernel_pick (draw_of wd) (lp_pick lp1) n (lp_pick lp2) (lp_assign lp1)
             (lp_interleave lp2)) in H2.
  rewrite <- H2 in H1.
  destruct (run_kernel (draw_of wd) ThreadIndexed (lp_pick lp1) n (lp_assign lp1)
              (lp_interleave lp1) pm b) as [[[pm1' b1'] evs1]|];
    destruct (run_kernel (draw_of wd) ThreadIndexed (lp_pick lp2) n (lp_assign lp1)
                (lp_interleave lp2) pm b) as [[[pm2' b2'] evs2]|]; simpl in *; try done.
  by injection H1 as -> ->.
Qed.

Lemma launch_all_any_sched (env1 env2 : environment) (size n : Z)
    (ls : list (nat * width * nat)) (m : memory) :
  exec_space_acquisition = ThreadIndexed →
  fill_ready size n m → Forall (λ l, l.2 = 0%nat ∨ l.2 = 1%nat) ls →
  (∀ k, valid_launch (Range 0 size) (env_launch env1 k)) →
  (∀ k, lp_assign (env_launch env2 k) = lp_assign (env_launch env1 k)) →
  launch_all env1 n ls m = launch_all env2 n ls m.
Proof.
  intros Hacq Hready Hls Hvalid Hassign. revert m Hready.
  induction Hls as [|[[k wd] pid] ls Hpid _ IH]; intros m Hready; [done|].
  simpl in *.
  pose proof (launch_on_any_sched (env_launch env1 k) (env_launch env2 k) wd size n pid m
                Hacq Hready Hpid (Hvalid k) (Hassign k)) as Heq.
  destruct (launch_on_ready (env_launch env1 k) wd size n pid m Hready Hpid (Hvalid k))
    as (m' & evs & Hl & Hready' & _).
  rewrite Hl in *. simpl in Heq.
  destruct (launch_on (env_launch env2 k) wd n 0 pid m) as [[m2 evs2]|]; [|done].
  simpl in Heq. injection Heq as <-. simpl. by apply IH.
Qed.

(** X10. On an execution space with a thread-indexed pool, two runs of
    [main] with the same arguments in which every launch deals the indices
    to the lanes in the same way leave the same memory, buffer and pools,
    whatever the interleavings of the lanes in the sixteen launches and
    whatever the clocks show. *)
Theorem main_memory_any_schedule (env1 env2 : environment) (args : list string)
    (size n : Z) :
  exec_space_acquisition = ThreadIndexed →
  length (initialize_args args) = 3%nat →
  stoi (initialize_args args !!! 1%nat) = inr size →
  stoi (initialize_args args !!! 2%nat) = inr n →
  0 ≤ size → 0 ≤ n →
  (∀ k, valid_launch (Range 0 size) (env_launch env1 k)) →
  (∀ k, lp_assign (env_launch env2 k) = lp_assign (env_launch env1 k)) →
  ∃ w1 w2,
    main env1 args initial_world = Returned 0 w1 ∧
    main env2 args initial_world = Returned 0 w2 ∧
    w_mem w1 = w_mem w2.
Proof.
  intros Hacq Hargc Hsize Hn Hsize0 Hn0 Hvalid Hassign.
  assert (∀ k, valid_launch (Range 0 size) (env_launch env2 k)) as Hvalid2.
  { intros k. destruct (Hvalid k) as [Hlen Hperm]. split; by rewrite Hassign. }
  destruct (main_memory_run env1 args size n Hargc Hsize Hn Hsize0 Hn0 Hvalid)
    as (m1 & o1 & tr1 & Hall1 & Hrun1).
  destruct (main_memory_run env2 args size n Hargc Hsize Hn Hsize0 Hn0 Hvalid2)
    as (m2 & o2 & tr2 & Hall2 & Hrun2).
  rewrite (launch_all_any_sched env1 env2 size n main_launches (allocated size n))
    in Hall1; try done.
  - rewrite Hall1 in Hall2. injection Hall2 as <-.
    eexists _, _. split; [exact Hrun1|]. split; [exact Hrun2|]. done.
  - apply main_memory_ready.
  - apply main_launches_pools.
Qed.

End Main_memory.

Section Main_values.
Context `{PF : Platform}.

Lemma advance_add (draw : gstate → double * gstate) (a n : nat) (s : gstate) :
  advance draw n (advance draw a s) = advance draw (a + n) s.
Proof.
  unfold advance. rewrite Nat.add_comm. symmetry. apply Nat.iter_add.
Qed.

Lemma draw_at_advance (draw : gstate → double * gstate) (a n : nat) (s : gstate) :
  draw_at draw (advance draw a s) n = draw_at draw s (a + n).
Proof. unfold draw_at. by rewrite advance_add. Qed.

Lemma launch_all_app (env : environment) (n : Z) (l1 l2 : list (nat * width * nat))
    (m : memory) :
  launch_all env n (l1 ++ l2) m = launch_all env n l1 m ≫= launch_all env n l2.
Proof.
  revert m. induction l1 as [|[[k wd] pid] l1 IH]; intros m; [done|].
  simpl. destruct (launch_on (env_launch env k) wd n 0 pid m) as [[m1 evs]|]; [|done].
  simpl. apply IH.
Qed.

(** A launch changes the buffer and its own pool. *)
Lemma launch_on_inv (lp : launch) (wd : width) (n : Z) (pid : nat) (m m' : memory) evs :
  launch_on lp wd n 0 pid m = Some (m', evs) →
  ∃ b pm pm' b',
    views m !! 0%nat = Some b ∧ pools m !! pid = Some pm ∧
    run_kernel (draw_of wd) exec_space_acquisition (lp_pick lp) n
      (lp_assign lp) (lp_interleave lp) pm b = Some (pm', b', evs) ∧
    m' = Memory (<[0%nat := b']> (views m)) (<[pid := pm']> (pools m)).
Proof.
  unfold launch_on. intros H.
  destruct (views m !! 0%nat) as [b|]; [|done]. simpl in H.
  destruct (pools m !! pid) as [pm|]; [|done]. simpl in H.
  destruct (run_kernel _ _ _ _ _ _ _ _) as [[[pm' b'] evs']|] eqn:Hrun; [|done].
  simpl in H. injection H as <- <-. by exists b, pm, pm', b'.
Qed.

(** The launches on the first pool leave the second pool as it is. *)
Lemma launch_all_first_pool (env : environment) (size n : Z)
    (ls : list (nat * width * nat)) (m : memory) :
  fill_ready size n m → Forall (λ l, l.2 = 0%nat) ls →
  (∀ k, valid_launch (Range 0 size) (env_launch env k)) →
  ∃ m', launch_all env n ls m = Some m' ∧ fill_ready size n m' ∧
        pools m' !! 1%nat = pools m !! 1%nat.
Proof.
  intros Hready Hls Hvalid. revert m Hready.
  induction Hls as [|[[k wd] pid] ls Hpid _ IH]; intros m Hready; [by exists m|].
  simpl in Hpid. subst pid.
  destruct (launch_on_ready (env_launch env k) wd size n 0 m Hready (or_introl eq_refl)
              (Hvalid k)) as (m1 & evs & Hl & Hready1 & _).
  destruct (IH m1 Hready1) as (m' & Hall & Hready' & Hp).
  exists m'. simpl. rewrite Hl. simpl. split; [done|]. split; [done|].
  rewrite Hp. apply launch_on_inv in Hl as (b & pm & pm' & b' & _ & _ & _ & ->).
  simpl. by rewrite lookup_insert_ne.
Qed.

(** X12. What [main] leaves in the buffer.  With two arguments that
    convert to integers that are not negative, whatever the execution space,
    the interleavings and the clock, [main] returns with a buffer in which
    every entry of every row is a draw of the 1024-bit generator from a state
    the constructor of the second pool made with the seed 5374857: row [i]
    holds [samples] successive draws from the state of one slot
    [(seg i).1], from draw number [(warm (seg i).1 + (seg i).2) * samples]
    on, and two different rows have different segments [seg].  So no two
    entries of the buffer hold the same draw. *)
Theorem main_leaves_fresh_draws (env : environment) (args : list string) (size n : Z) :
  length (initialize_args args) = 3%nat →
  stoi (initialize_args args !!! 1%nat) = inr size →
  stoi (initialize_args args !!! 2%nat) = inr n →
  0 ≤ size → 0 ≤ n →
  (∀ k, valid_launch (Range 0 size) (env_launch env k)) →
  ∃ w b (seg : Z → nat * nat) (warm : nat → nat),
    main env args initial_world = Returned 0 w ∧
    views (w_mem w) !! 0%nat = Some b ∧
    (∀ i, 0 ≤ i < size →
       ((seg i).1 < concurrency)%nat ∧
       ∀ k, 0 ≤ k < n →
         data b !! (i, k) =
         Some (draw_at xorshift1024_normal (xorshift1024_init 5374857 (seg i).1)
                 ((warm (seg i).1 + (seg i).2) * Z.to_nat n + Z.to_nat k))) ∧
    (∀ i j, 0 ≤ i < size → 0 ≤ j < size → seg i = seg j → i = j).
Proof.
  intros Hargc Hsize Hn Hsize0 Hn0 Hvalid.
  destruct (main_memory_run env args size n Hargc Hsize Hn Hsize0 Hn0 Hvalid)
    as (m & o & tr & Hall & Hrun).
  change main_launches with
    ([(8, W64, 0); (10, W64, 0); (12, W64, 0); (14, W64, 0); (16, W64, 0);
      (19, W64, 0)]%nat ++ [(22%nat, W1024, 1%nat); (25%nat, W1024, 1%nat)]) in Hall.
  rewrite launch_all_app in Hall.
  destruct (launch_all_first_pool env size n
              [(8, W64, 0); (10, W64, 0); (12, W64, 0); (14, W64, 0); (16, W64, 0);
               (19, W64, 0)]%nat (allocated size n))
    as (m6 & Hall6 & Hready6 & Hp6).
  { apply main_memory_ready. }
  { repeat (constructor; [done|]). constructor. }
  { done. }
  rewrite Hall6 in Hall. simpl in Hall.
  destruct (launch_on (env_launch env 22) W1024 n 0 1 m6) as [[m7 evs7]|] eqn:Hl7; [|done].
  simpl in Hall.
  destruct (launch_on (env_launch env 25) W1024 n 0 1 m7) as [[m8 evs8]|] eqn:Hl8; [|done].
  simpl in Hall. injection Hall as <-.
  destruct (launch_on_ready (env_launch env 22) W1024 size n 1 m6 Hready6
              (or_intror eq_refl) (Hvalid _)) as (m7' & evs7' & Hl7' & Hready7 & _).
  rewrite Hl7 in Hl7'. injection Hl7' as <- <-.
  apply launch_on_inv in Hl7 as (b6 & pm6 & pm7 & b7 & Hb6 & Hpm6 & Hrun7 & ->).
  apply launch_on_inv in Hl8 as (b7' & pm7' & pm8 & b8 & Hb7 & Hpm7 & Hrun8 & ->).
  cbn [views pools] in Hb7, Hpm7.
  rewrite lookup_insert_eq in Hb7. rewrite lookup_insert_eq in Hpm7.
  injection Hb7 as <-. injection Hpm7 as <-.
  assert (pm6 = new_pool_mem W1024 5374857) as ->.
  { rewrite Hp6 in Hpm6. unfold allocated in Hpm6. simpl in Hpm6.
    rewrite lookup_insert_eq in Hpm6. by injection Hpm6. }
  destruct Hready6 as (_ & (b6' & Hb6' & He0 & He1 & _) & _).
  rewrite Hb6 in Hb6'. injection Hb6' as <-.
  destruct Hready7 as (_ & (b7' & Hb7' & He0' & He1' & _) & _ & (pm7' & Hpm7' & Hr7)).
  cbn [views pools] in Hb7', Hpm7'.
  rewrite lookup_insert_eq in Hb7'. rewrite lookup_insert_eq in Hpm7'.
  injection Hb7' as <-. injection Hpm7' as <-.
  destruct (Hvalid 22%nat) as [Hlen7 Hperm7]. destruct (Hvalid 25%nat) as [Hlen8 Hperm8].
  unfold range_indices in Hperm7, Hperm8. simpl in Hperm7, Hperm8.
  replace (size - 0) with size in Hperm7, Hperm8 by lia.
  assert (∀ lp, concat (lp_assign lp) ≡ₚ seqZ 0 size →
                NoDup (concat (lp_assign lp)) ∧
                ∀ i, i ∈ concat (lp_assign lp) ↔ 0 ≤ i < size) as Hdeal.
  { intros lp Hperm. split; [rewrite Hperm; apply NoDup_seqZ|].
    intros i. rewrite Hperm, elem_of_seqZ. lia. }
  destruct (Hdeal _ Hperm7) as [Hnd7 Hin7]. destruct (Hdeal _ Hperm8) as [Hnd8 Hin8].
  assert (pool_ready (length (lp_assign (env_launch env 22))) (new_pool_mem W1024 5374857))
    as Hr6 by (rewrite Hlen7; apply new_pool_mem_ready).
  assert (pool_ready (length (lp_assign (env_launch env 25))) pm7) as Hr7'
    by (by rewrite Hlen8).
  assert (n ≤ extent1 b6) as Hc6 by lia.
  assert (n ≤ extent1 b7) as Hc7 by lia.
  assert (∀ i, i ∈ concat (lp_assign (env_launch env 22)) → 0 ≤ i < extent0 b6) as Hrows6.
  { intros i Hi. apply Hin7 in Hi. lia. }
  assert (∀ i, i ∈ concat (lp_assign (env_launch env 25)) → 0 ≤ i < extent0 b7) as Hrows7.
  { intros i Hi. apply Hin8 in Hi. lia. }
  destruct (run_kernel_segments _ _ _ _ _ _ _ _ _ _ _ Hr6 Hnd7 Hc6 Hrows6 Hrun7)
    as (seg7 & uses7 & _ & _ & Hpool7).
  destruct (run_kernel_segments _ _ _ _ _ _ _ _ _ _ _ Hr7' Hnd8 Hc7 Hrows7 Hrun8)
    as (seg8 & uses8 & Hseg8 & Hinj8 & _).
  eexists _, b8, (λ i, default (0%nat, 0%nat) (seg8 !! i)), uses7.
  split; [exact Hrun|]. split; [by simpl; rewrite lookup_insert_eq|]. split.
  - intros i Hi. apply Hin8 in Hi.
    destruct (Hseg8 i Hi) as (idx & m & s0 & -> & Hm & Hs0 & Hh). simpl.
    assert (idx < concurrency)%nat as Hidx.
    { pose proof (lookup_lt_Some _ _ _ Hs0) as Hlt.
      destruct (run_kernel_complete (draw_of W1024) exec_space_acquisition
                  (lp_pick (env_launch env 22)) n (lp_assign (env_launch env 22))
                  (lp_interleave (env_launch env 22)) _ b6 Hr6 Hc6 Hrows6)
        as (pm7' & b7' & evs7' & Hrun7' & _ & Hlen & _).
      rewrite Hrun7 in Hrun7'. injection Hrun7' as <- <- <-.
      rewrite Hlen in Hlt. simpl in Hlt. by rewrite length_fmap, length_seq in Hlt. }
    split; [done|]. intros k Hk.
    assert (states_ (new_pool_mem W1024 5374857) !! idx
            = Some (xorshift1024_init 5374857 idx)) as Hinit.
    { simpl. rewrite list_lookup_fmap, lookup_seq_lt by done. done. }
    rewrite (Hpool7 idx _ Hinit) in Hs0. injection Hs0 as <-.
    rewrite (Hh k Hk), draw_at_advance. do 2 f_equal. simpl. lia.
  - intros i j Hi Hj. apply Hin8 in Hi, Hj.
    destruct (Hseg8 i Hi) as (idx & m & s0 & Hsi & _).
    destruct (Hseg8 j Hj) as (idx' & m' & s0' & Hsj & _).
    rewrite Hsi, Hsj. simpl. intros [= -> ->]. by eapply Hinj8.
Qed.

End Main_values.

(** * The theorems on the small platform *)

Section Demo_facts.

Lemma demo_pool_ready : pool_ready (PF := Demo.cpu) 2 Demo.pool.
Proof.
  split; [done|]. split; [simpl; lia|].
  intros [|[|idx]] H; simpl in H; discriminate.
Defined.

Lemma demo_deal_perm : concat (Demo.deal 3) ≡ₚ seqZ 0 3.
Proof. vm_compute. apply perm_skip, perm_swap. Defined.

Lemma demo_launch_valid (acq : acquisition) (k : nat) :
  valid_launch (PF := Demo.platform acq) (Range 0 3) (env_launch Demo.run_env k).
Proof. split; [done|]. apply demo_deal_perm. Defined.

Lemma fill_task_invocation_witness :
  ∃ pm' b' ops,
    call_operator (PF := Demo.cpu)
      xorshift64_normal ThreadIndexed Demo.race 2 0 1 Demo.pool Demo.fresh_vals
      = Some (pm', b', ops) ∧
    count is_get_state ops = 1%nat ∧ count is_normal ops = 2%nat ∧
    count is_free_state ops = 1%nat.
Proof.
  destruct (fill_task_invocation (PF := Demo.cpu)
              xorshift64_normal ThreadIndexed Demo.race 2 0 1 Demo.pool Demo.fresh_vals)
    as (idx & s0 & xs & s & pm' & b' & ops & Hcall & _ & _ & _ & _ & _ & _ & _ & _ &
        Hg & Hn & Hf).
  - split; [done|]. done.
  - simpl. lia.
  - simpl. lia.
  - exists pm', b', ops. split; [exact Hcall|]. split; [exact Hg|]. split; [exact Hn|exact Hf].
Defined.

Lemma fill_task_frame_witness :
  ∃ pm' b' ops,
    call_operator (PF := Demo.cpu)
      xorshift64_normal ThreadIndexed Demo.race 2 0 1 Demo.pool Demo.fresh_vals
      = Some (pm', b', ops) ∧
    ∀ c, c ∈ written ops → c.1 = 1.
Proof.
  eexists _, _, _. split; [reflexivity|].
  exact (proj1 (fill_task_frame (PF := Demo.cpu)
                  xorshift64_normal ThreadIndexed Demo.race 2 0 1 Demo.pool Demo.fresh_vals
                  _ _ _ eq_refl)).
Defined.

Lemma states_paired_and_exclusive_witness :
  pool_ready (PF := Demo.cpu) (length (Demo.deal 3)) Demo.pool ∧
  ∀ sched t1 t2 idx,
    holds (k_lanes (exec (PF := Demo.cpu)
                      xorshift64_normal ThreadIndexed Demo.race 2 sched
                      (start (Demo.deal 3) Demo.pool Demo.fresh_vals)).1) t1 idx →
    holds (k_lanes (exec (PF := Demo.cpu)
                      xorshift64_normal ThreadIndexed Demo.race 2 sched
                      (start (Demo.deal 3) Demo.pool Demo.fresh_vals)).1) t2 idx →
    t1 = t2.
Proof.
  split; [exact demo_pool_ready|].
  apply (states_paired_and_exclusive (PF := Demo.cpu)
           xorshift64_normal ThreadIndexed Demo.race 2 (Demo.deal 3) Demo.pool
           Demo.fresh_vals).
  exact demo_pool_ready.
Defined.

Lemma parallel_fill_covers_witness :
  ∃ pm' b' evs,
    run_kernel (PF := Demo.cpu)
      xorshift64_normal ThreadIndexed Demo.race 2 (Demo.deal 3) Demo.sched
      Demo.pool Demo.fresh_vals = Some (pm', b', evs) ∧
    size (data b') = 6%nat.
Proof.
  destruct (parallel_fill_covers (PF := Demo.cpu)
              xorshift64_normal ThreadIndexed Demo.race 2 3 (Demo.deal 3) Demo.sched
              Demo.pool) as (pm' & b' & evs & Hrun & _ & _ & Hsize).
  - lia.
  - lia.
  - exact demo_pool_ready.
  - exact demo_deal_perm.
  - exists pm', b', evs. split; [exact Hrun|exact Hsize].
Defined.

Lemma fixed_partition_deterministic_witness :
  ∃ pm' b' evs1 evs2,
    run_kernel (PF := Demo.cpu)
      (draw_of W64) ThreadIndexed Demo.race 2 (Demo.deal 3) [0; 0; 1; 0]%nat
      (new_pool_mem W64 5374857) Demo.fresh_vals = Some (pm', b', evs1) ∧
    run_kernel (PF := Demo.cpu)
      (draw_of W64) ThreadIndexed (λ _ _, 1%nat) 2 (Demo.deal 3) [1; 1; 1; 0; 1]%nat
      (new_pool_mem W64 5374857) Demo.fresh_vals = Some (pm', b', evs2).
Proof.
  apply (fixed_partition_deterministic (PF := Demo.cpu)
           W64 5374857 2 3 (Demo.deal 3) Demo.fresh_vals).
  - reflexivity.
  - exact demo_deal_perm.
  - simpl. lia.
  - simpl. lia.
Defined.

Lemma wrong_argument_count_witness :
  length (initialize_args (Platform := Demo.gpu) Demo.few_args) ≠ 3%nat ∧
  ∃ w, main (PF := Demo.gpu) Demo.run_env Demo.few_args initial_world = Returned 0 w ∧
       views (w_mem w) = ∅ ∧ pools (w_mem w) = ∅.
Proof.
  assert (length (initialize_args (Platform := Demo.gpu) Demo.few_args) ≠ 3%nat) as Hargc
    by (simpl; lia).
  split; [exact Hargc|].
  destruct (wrong_argument_count (PF := Demo.gpu) Demo.run_env Demo.few_args Hargc)
    as (w & Hrun & _ & _ & Hv & Hp).
  exists w. split; [exact Hrun|]. split; [exact Hv|exact Hp].
Defined.

(** The run of [main] on the small platform has the buffer allocated after
    the pools are constructed: the order the specification gives does not
    occur in it. *)
Lemma spec_order_does_not_occur :
  ∃ w, main (PF := Demo.gpu) Demo.run_env Demo.args initial_world = Returned 0 w ∧
       in_order spec_order (omap stage_of (w_trace w)) = false.
Proof.
  destruct (main_valid_run (PF := Demo.gpu) Demo.run_env Demo.args 3 2)
    as (m & _ & _ & _ & Hrun & _).
  - reflexivity.
  - reflexivity.
  - reflexivity.
  - lia.
  - lia.
  - apply demo_launch_valid.
  - eexists. split; [exact Hrun|]. reflexivity.
Qed.

Lemma stages_in_order_witness :
  ∃ w, main (PF := Demo.gpu) Demo.run_env Demo.args initial_world = Returned 0 w ∧
       in_order pools_first_order (omap stage_of (w_trace w)) = true.
Proof.
  destruct (stages_in_order (PF := Demo.gpu) Demo.run_env Demo.args 3 2)
    as (w & Hrun & _ & _ & Hord & _).
  - reflexivity.
  - reflexivity.
  - reflexivity.
  - lia.
  - lia.
  - apply demo_launch_valid.
  - exists w. split; [exact Hrun|exact Hord].
Defined.

Lemma three_lines_of_output_witness :
  ∃ w, main (PF := Demo.gpu) Demo.run_env Demo.args initial_world = Returned 0 w ∧
       length (filter (λ c, is_output c = true) (w_trace w)) = 3%nat.
Proof.
  destruct (three_lines_of_output (PF := Demo.gpu) Demo.run_env Demo.args 3 2)
    as (w & t0 & t1 & t2 & t3 & Hrun & _ & _ & _ & Hcount).
  - reflexivity.
  - reflexivity.
  - reflexivity.
  - lia.
  - lia.
  - apply demo_launch_valid.
  - exists w. split; [exact Hrun|exact Hcount].
Defined.

Lemma exit_code_zero_witness :
  (∃ w, main (PF := Demo.gpu) Demo.run_env Demo.few_args initial_world = Returned 0 w) ∧
  (∃ w, main (PF := Demo.gpu) Demo.run_env Demo.args initial_world = Returned 0 w).
Proof.
  destruct (exit_code_zero (PF := Demo.gpu) Demo.run_env Demo.few_args) as (_ & Hfew & _).
  destruct (exit_code_zero (PF := Demo.gpu) Demo.run_env Demo.args) as (_ & _ & Hvalid & _).
  split.
  - apply Hfew. simpl. lia.
  - apply (Hvalid 3 2); try reflexivity; try lia. apply demo_launch_valid.
Defined.

(** The run of [main] with the arguments [3] and [x] ends, and not with the
    exit code 0: it ends in the exception of [std::stoi], and
    [Kokkos::finalize] is not among its calls. *)
Lemma exit_without_return :
  (∀ code w, main (PF := Demo.gpu) Demo.run_env Demo.unconverted_args initial_world
             ≠ Returned code w) ∧
  ∃ w, main (PF := Demo.gpu) Demo.run_env Demo.unconverted_args initial_world
       = Uncaught invalid_argument w ∧
       Kokkos_finalize_call ∉ w_trace w.
Proof.
  rewrite (main_second_unconverted (PF := Demo.gpu) Demo.run_env Demo.unconverted_args
             3 invalid_argument eq_refl eq_refl eq_refl).
  split; [intros code w H; discriminate H|].
  eexists. split; [reflexivity|]. simpl. intros Hin.
  repeat (apply elem_of_cons in Hin as [Hin|Hin]; [discriminate Hin|]).
  by apply elem_of_nil in Hin.
Qed.

Lemma second_pool_warm_up_witness :
  ∃ w, main (PF := Demo.gpu) Demo.run_env Demo.args initial_world = Returned 0 w ∧
       length (filter (λ c, stage_of c = Some (Fill W1024)) (w_trace w)) = 2%nat ∧
       dom (views (w_mem w)) = {[0%nat]}.
Proof.
  destruct (second_pool_warm_up (PF := Demo.gpu) Demo.run_env Demo.args 3 2)
    as (w & t2 & t3 & mb & evs & b & Hrun & _ & _ & _ & _ & Hc & _ & _ & Hdom & _).
  - reflexivity.
  - reflexivity.
  - reflexivity.
  - lia.
  - lia.
  - apply demo_launch_valid.
  - exists w. split; [exact Hrun|]. split; [exact Hc|exact Hdom].
Defined.

(** A run whose first argument does not convert ends in the exception of
    [std::stoi], after the first line of output and before any teardown. *)
Example unconverted_argument :
  main (PF := Demo.gpu) Demo.run_env Demo.bad_args initial_world =
  Uncaught invalid_argument
    (World (Memory ∅ ∅) ("Exec space: Demo" +:+ endl)
       [Kokkos_initialize_call; cout_call ("Exec space: Demo" +:+ endl);
        stoi_call "three"]).
Proof. reflexivity. Qed.

(** With a contended pool the interleaving decides which lane draws from
    which state: two interleavings of the same launch leave different
    buffers. *)
Example contended_depends_on_race :
  (λ r, data r.1.2) <$>
    run_kernel (PF := Demo.gpu) xorshift64_normal Contended (λ _ _, 0%nat) 2
      (Demo.deal 3) [0; 1]%nat Demo.gpu_pool Demo.gpu_vals ≠
  (λ r, data r.1.2) <$>
    run_kernel (PF := Demo.gpu) xorshift64_normal Contended (λ _ _, 0%nat) 2
      (Demo.deal 3) [1; 0]%nat Demo.gpu_pool Demo.gpu_vals.
Proof.
  intros H.
  assert (Demo.race_left = Demo.race_right) as Heq; [|discriminate Heq].
  transitivity ((λ r, data r.1.2) <$>
    run_kernel (PF := Demo.gpu) xorshift64_normal Contended (λ _ _, 0%nat) 2
      (Demo.deal 3) [0; 1]%nat Demo.gpu_pool Demo.gpu_vals); [reflexivity|].
  rewrite H. reflexivity.
Qed.

Lemma demo_deal_NoDup : NoDup (concat (Demo.deal 3)).
Proof. rewrite demo_deal_perm. apply NoDup_seqZ. Defined.

Lemma demo_deal_rows (i : Z) : i ∈ concat (Demo.deal 3) → 0 ≤ i < 3.
Proof. intros Hi. rewrite demo_deal_perm in Hi. apply elem_of_seqZ in Hi. lia. Defined.

Lemma invocation_defined_iff_witness :
  can_acquire (PF := Demo.cpu) ThreadIndexed 0 Demo.pool ∧
  (is_Some (call_operator (PF := Demo.cpu)
              xorshift64_normal ThreadIndexed Demo.race 3 0 1 Demo.pool Demo.fresh_vals)
   ↔ 3 ≤ 0 ∨ (0 ≤ 1 < 3 ∧ 3 ≤ 2)).
Proof.
  assert (can_acquire (PF := Demo.cpu) ThreadIndexed 0 Demo.pool) as Hacq
    by (split; reflexivity).
  split; [exact Hacq|].
  exact (invocation_defined_iff (PF := Demo.cpu)
           xorshift64_normal ThreadIndexed Demo.race 3 0 1 Demo.pool Demo.fresh_vals Hacq).
Defined.

Lemma invocation_pool_frame_witness :
  ∃ pm' b' ops,
    call_operator (PF := Demo.cpu)
      xorshift64_normal ThreadIndexed Demo.race 2 0 1 Demo.pool Demo.fresh_vals
      = Some (pm', b', ops) ∧
    locks_ pm' = locks_ Demo.pool.
Proof.
  eexists _, _, _. split; [reflexivity|].
  destruct (invocation_pool_frame (PF := Demo.cpu)
              xorshift64_normal ThreadIndexed Demo.race 2 0 1 Demo.pool Demo.fresh_vals
              _ _ _ eq_refl) as (idx & s0 & s & _ & _ & _ & _ & Hlocks & _).
  exact Hlocks.
Defined.

Lemma invocation_without_samples_witness :
  0 ≤ 0 ∧ can_acquire (PF := Demo.cpu) ThreadIndexed 0 Demo.pool ∧
  ∃ idx,
    call_operator (PF := Demo.cpu)
      xorshift64_normal ThreadIndexed Demo.race 0 0 7 Demo.pool Demo.fresh_vals
      = Some (Demo.pool, Demo.fresh_vals, [OpGetState idx; OpFreeState idx]).
Proof.
  assert (can_acquire (PF := Demo.cpu) ThreadIndexed 0 Demo.pool) as Hacq
    by (split; reflexivity).
  split; [lia|]. split; [exact Hacq|].
  apply (invocation_without_samples (PF := Demo.cpu)
           xorshift64_normal ThreadIndexed Demo.race 0 0 7 Demo.pool Demo.fresh_vals);
    [lia|exact Hacq].
Defined.

Lemma invocations_continue_stream_witness :
  ∃ pm1 b1 ops1 pm2 b2 ops2 xs s,
    call_operator (PF := Demo.cpu)
      xorshift64_normal ThreadIndexed Demo.race 2 0 0 Demo.pool Demo.fresh_vals
      = Some (pm1, b1, ops1) ∧
    call_operator (PF := Demo.cpu)
      xorshift64_normal ThreadIndexed Demo.race 2 0 1 pm1 b1 = Some (pm2, b2, ops2) ∧
    draw_seq (PF := Demo.cpu) xorshift64_normal 4 5 = (xs, s) ∧
    states_ pm2 !! 0%nat = Some s ∧
    data b2 !! (1, 1) = xs !! 3%nat.
Proof.
  destruct (invocations_continue_stream (PF := Demo.cpu)
              xorshift64_normal Demo.race 2 0 0 1 Demo.pool Demo.fresh_vals 5)
    as (pm1 & b1 & ops1 & pm2 & b2 & ops2 & xs & s & H1 & H2 & Hseq & Hs & Hval).
  - reflexivity.
  - reflexivity.
  - reflexivity.
  - simpl. lia.
  - simpl. lia.
  - lia.
  - simpl. lia.
  - exists pm1, b1, ops1, pm2, b2, ops2, xs, s.
    split; [exact H1|]. split; [exact H2|]. split; [exact Hseq|]. split; [exact Hs|].
    exact (proj2 (Hval 1 ltac:(lia))).
Defined.

Lemma launch_is_serial_witness :
  ∃ pm' b' evs,
    run_serial (PF := Demo.cpu)
      xorshift64_normal ThreadIndexed Demo.race 2 0 (Demo.deal 3)
      Demo.pool Demo.fresh_vals = Some (pm', b') ∧
    run_kernel (PF := Demo.cpu)
      xorshift64_normal ThreadIndexed Demo.race 2 (Demo.deal 3) Demo.sched
      Demo.pool Demo.fresh_vals = Some (pm', b', evs).
Proof.
  apply (launch_is_serial (PF := Demo.cpu)
           xorshift64_normal Demo.race 2 (Demo.deal 3) Demo.sched Demo.pool Demo.fresh_vals).
  - exact demo_pool_ready.
  - exact demo_deal_NoDup.
  - exact demo_deal_rows.
  - simpl. lia.
Defined.

Lemma launch_row_values_witness :
  ∃ pm' b' evs xs s,
    run_kernel (PF := Demo.cpu)
      xorshift64_normal ThreadIndexed Demo.race 2 (Demo.deal 3) Demo.sched
      Demo.pool Demo.fresh_vals = Some (pm', b', evs) ∧
    draw_seq (PF := Demo.cpu) xorshift64_normal 4 5 = (xs, s) ∧
    states_ pm' !! 0%nat = Some s ∧
    data b' !! (2, 1) = xs !! 3%nat.
Proof.
  destruct (launch_row_values (PF := Demo.cpu)
              xorshift64_normal Demo.race 2 (Demo.deal 3) Demo.sched Demo.pool
              Demo.fresh_vals 0 [0; 2] 5)
    as (pm' & b' & evs & xs & s & Hrun & Hseq & Hs & Hval & _).
  - exact demo_pool_ready.
  - exact demo_deal_NoDup.
  - exact demo_deal_rows.
  - simpl. lia.
  - reflexivity.
  - reflexivity.
  - exists pm', b', evs, xs, s.
    split; [exact Hrun|]. split; [exact Hseq|]. split; [exact Hs|].
    exact (Hval 1%nat 2 1 eq_refl ltac:(lia)).
Defined.

Lemma every_index_once_witness :
  ∃ pm' b' evs,
    run_kernel (PF := Demo.gpu)
      xorshift64_normal Contended Demo.race 2 (Demo.deal 3) Demo.sched
      Demo.gpu_pool Demo.gpu_vals = Some (pm', b', evs) ∧
    count_of is_get_state 2 evs = 1%nat ∧ count_of is_normal 2 evs = 2%nat ∧
    count_of is_get_state 3 evs = 0%nat.
Proof.
  destruct (every_index_once (PF := Demo.gpu)
              xorshift64_normal Contended Demo.race 2 3 (Demo.deal 3) Demo.sched
              Demo.gpu_pool Demo.gpu_vals)
    as (pm' & b' & evs & Hrun & Hin & Hout).
  - split; [reflexivity|]. split; [simpl; lia|].
    intros [|[|idx]] H; simpl in H; discriminate.
  - exact demo_deal_perm.
  - simpl. lia.
  - simpl. lia.
  - exists pm', b', evs. split; [exact Hrun|].
    destruct (Hin 2 ltac:(lia)) as (Hg & _ & Hn & _).
    destruct (Hout 3 ltac:(lia)) as (Hg3 & _).
    split; [exact Hg|]. split; [exact Hn|exact Hg3].
Defined.

Lemma conversion_failure_witness :
  ∃ w, main (PF := Demo.gpu) Demo.run_env Demo.bad_args initial_world
       = Uncaught invalid_argument w ∧
       pools (w_mem w) = ∅ ∧ Kokkos_finalize_call ∉ w_trace w.
Proof.
  destruct (conversion_failure (PF := Demo.gpu) Demo.run_env Demo.bad_args invalid_argument)
    as (w & Hrun & _ & _ & Hp & Hfin & _).
  - reflexivity.
  - left. reflexivity.
  - exists w. split; [exact Hrun|]. split; [exact Hp|exact Hfin].
Defined.

Lemma nothing_to_fill_witness :
  ∃ w, main (PF := Demo.gpu) Demo.run_env Demo.no_samples_args initial_world = Returned 0 w ∧
       views (w_mem w) = {[0%nat := Buffer 3 0 ∅]}.
Proof.
  destruct (nothing_to_fill (PF := Demo.gpu) Demo.run_env Demo.no_samples_args 3 0)
    as (w & Hrun & _ & _ & Hv & _).
  - reflexivity.
  - reflexivity.
  - reflexivity.
  - lia.
  - lia.
  - right. reflexivity.
  - apply demo_launch_valid.
  - exists w. split; [exact Hrun|exact Hv].
Defined.

Lemma main_memory_any_schedule_witness :
  ∃ w1 w2,
    main (PF := Demo.cpu) Demo.run_env Demo.args initial_world = Returned 0 w1 ∧
    main (PF := Demo.cpu) Demo.other_env Demo.args initial_world = Returned 0 w2 ∧
    w_mem w1 = w_mem w2.
Proof.
  apply (main_memory_any_schedule (PF := Demo.cpu) Demo.run_env Demo.other_env Demo.args 3 2).
  - reflexivity.
  - reflexivity.
  - reflexivity.
  - reflexivity.
  - lia.
  - lia.
  - apply demo_launch_valid.
  - reflexivity.
Defined.

Lemma rows_hold_fresh_segments_witness :
  ∃ pm' b' evs (seg : Z → nat * nat),
    run_kernel (PF := Demo.gpu)
      xorshift64_normal Contended Demo.race 2 (Demo.deal 3) Demo.sched
      Demo.gpu_pool Demo.gpu_vals = Some (pm', b', evs) ∧
    ∀ i j, 0 ≤ i < 3 → 0 ≤ j < 3 → seg i = seg j → i = j.
Proof.
  destruct (rows_hold_fresh_segments (PF := Demo.gpu)
              xorshift64_normal Contended Demo.race 2 3 (Demo.deal 3) Demo.sched
              Demo.gpu_pool Demo.gpu_vals)
    as (pm' & b' & evs & seg & uses & Hrun & _ & Hinj & _).
  - split; [reflexivity|]. split; [simpl; lia|].
    intros [|[|idx]] H; simpl in H; discriminate.
  - exact demo_deal_perm.
  - simpl. lia.
  - simpl. lia.
  - exists pm', b', evs, seg. split; [exact Hrun|exact Hinj].
Defined.

Lemma main_leaves_fresh_draws_witness :
  ∃ w b (seg : Z → nat * nat),
    main (PF := Demo.gpu) Demo.run_env Demo.args initial_world = Returned 0 w ∧
    views (w_mem w) !! 0%nat = Some b ∧
    ∀ i j, 0 ≤ i < 3 → 0 ≤ j < 3 → seg i = seg j → i = j.
Proof.
  destruct (main_leaves_fresh_draws (PF := Demo.gpu) Demo.run_env Demo.args 3 2)
    as (w & b & seg & warm & Hrun & Hb & _ & Hinj).
  - reflexivity.
  - reflexivity.
  - reflexivity.
  - lia.
  - lia.
  - apply demo_launch_valid.
  - exists w, b, seg. split; [exact Hrun|]. split; [exact Hb|exact Hinj].
Defined.

End Demo_facts.
